(** * The data-store core of the block editor: store facade, resolver binder
      and REST entity resolvers

    A shallow embedding of

    - [packages/data/src/redux-store/index.js] (the resolver run-cache, the
      selector/resolver binder [mapResolvers], the facade's [subscribe] and the
      promise-returning [resolveSelect] selectors), and
    - [packages/core-data/src/resolvers.js] ([getEntityRecord],
      [getEntityRecords], [getEntityRecords.shouldInvalidate], [canUser]),

    followed by the properties the specification states about them.

    JavaScript values are an inductive type; numbers are integers ([Z]), which
    is all the record keys of the REST layer need.  Asynchronous code is
    modelled by explicit state passing: a resolver is a computation in a monad
    that threads the outside world, logs every effect it performs and may
    raise; the binder is a transition system whose events are selector calls,
    timer callbacks, dispatches and the settling of a resolver's promise. *)

From Stdlib Require Import String Ascii List ZArith Bool Lia Arith DecimalString.
Import ListNotations.
Open Scope string_scope.
Open Scope list_scope.
Set Warnings "-register-all".

(* ================================================================== *)
(** * Part I.  The model                                               *)
(* ================================================================== *)

(** ** Association lists

    JavaScript objects, [Map]s and [EquivalentKeyMap]s are all finite maps
    whose keys are compared by some equality test; insertion keeps the
    position of a key that is already present, as the JavaScript containers
    do. *)

Section Assoc.
Context {K V : Type} (eqb : K -> K -> bool).

Fixpoint assoc_get (m : list (K * V)) (k : K) : option V :=
  match m with
  | [] => None
  | (k', v) :: m' => if eqb k k' then Some v else assoc_get m' k
  end.

Fixpoint assoc_set (m : list (K * V)) (k : K) (v : V) : list (K * V) :=
  match m with
  | [] => [(k, v)]
  | (k', v') :: m' =>
      if eqb k k' then (k', v) :: m' else (k', v') :: assoc_set m' k v
  end.

Fixpoint assoc_delete (m : list (K * V)) (k : K) : list (K * V) :=
  match m with
  | [] => []
  | (k', v') :: m' =>
      if eqb k k' then assoc_delete m' k else (k', v') :: assoc_delete m' k
  end.

End Assoc.

(** ** JavaScript values *)

Inductive value : Type :=
| VUndefined
| VNull
| VBool (b : bool)
| VNum (z : Z)
| VStr (s : string)
| VArr (items : list value)
| VObj (props : list (string * value)).

(** A plain object, seen through its own enumerable properties. *)
Definition object : Type := list (string * value).

(** [ToBoolean]: what [if (v)], [!v], [a && b] and [a || b] test. *)
Definition truthy (v : value) : bool :=
  match v with
  | VUndefined | VNull => false
  | VBool b => b
  | VNum z => negb (Z.eqb z 0)
  | VStr s => negb (String.eqb s EmptyString)
  | VArr _ | VObj _ => true
  end.

(** [a && b] yields [a] when [a] is falsy and [b] otherwise. *)
Definition js_and (a b : value) : value := if truthy a then b else a.

(** [o[k]] on a plain object: [undefined] when the property is absent. *)
Definition prop (o : object) (k : string) : value :=
  match assoc_get String.eqb o k with
  | Some v => v
  | None => VUndefined
  end.

(** [{ ...o, k: v }]. *)
Definition set_prop (o : object) (k : string) (v : value) : object :=
  assoc_set String.eqb o k v.

(** [o.hasOwnProperty( k )]. *)
Definition has_prop (o : object) (k : string) : bool :=
  match assoc_get String.eqb o k with
  | Some _ => true
  | None => false
  end.

(** [v === s] for a string [s]: no conversion takes place, so the test holds
    only for the string value [s] itself. *)
Definition is_string (s : string) (v : value) : bool :=
  match v with
  | VStr s' => String.eqb s' s
  | _ => false
  end.

(** Two values are the same data: the same constructors on the same parts,
    the properties of an object in the same order. *)
Fixpoint value_same (a b : value) {struct a} : bool :=
  match a, b with
  | VUndefined, VUndefined => true
  | VNull, VNull => true
  | VBool x, VBool y => Bool.eqb x y
  | VNum x, VNum y => Z.eqb x y
  | VStr x, VStr y => String.eqb x y
  | VArr xs, VArr ys =>
      (fix items (xs ys : list value) {struct xs} : bool :=
         match xs, ys with
         | [], [] => true
         | x :: xs', y :: ys' => value_same x y && items xs' ys'
         | _, _ => false
         end) xs ys
  | VObj ps, VObj qs =>
      (fix props (ps qs : list (string * value)) {struct ps} : bool :=
         match ps, qs with
         | [], [] => true
         | (k, v) :: ps', (k', v') :: qs' =>
             String.eqb k k' && value_same v v' && props ps' qs'
         | _, _ => false
         end) ps qs
  | _, _ => false
  end.

(** An [EquivalentKeyMap] walks a key along [Object.keys( key ).sort()], one
    level of its tree per property name and one per property value, an
    object or array among the values being a key of a nested map in turn.
    The path of a key is therefore that of the key with the properties of
    every object in it put in the order of their names: the order in which an
    object lists its properties plays no part, the order of the items of an
    array does, and an array and an object never take the same path. *)
Fixpoint insert_prop (k : string) (v : value) (sorted : list (string * value))
  : list (string * value) :=
  match sorted with
  | [] => [(k, v)]
  | (k', v') :: rest =>
      match String.compare k k' with
      | Lt => (k, v) :: sorted
      | Eq => (k, v) :: rest
      | Gt => (k', v') :: insert_prop k v rest
      end
  end.

Fixpoint canonical (v : value) : value :=
  match v with
  | VArr items => VArr (map canonical items)
  | VObj props =>
      VObj (fold_right
              (fun kv sorted => insert_prop (fst kv) (canonical (snd kv)) sorted)
              [] props)
  | _ => v
  end.

(** The key equality of [EquivalentKeyMap]: two keys are equivalent when
    they take the same path. *)
Definition value_eqb (a b : value) : bool :=
  value_same (canonical a) (canonical b).

Fixpoint args_same (xs ys : list value) : bool :=
  match xs, ys with
  | [], [] => true
  | x :: xs', y :: ys' => value_same x y && args_same xs' ys'
  | _, _ => false
  end.

Fixpoint args_eqb (xs ys : list value) : bool :=
  match xs, ys with
  | [], [] => true
  | x :: xs', y :: ys' => value_eqb x y && args_eqb xs' ys'
  | _, _ => false
  end.

(** [String( v )], as string concatenation and template literals apply it. *)
Fixpoint to_string (v : value) : string :=
  match v with
  | VUndefined => "undefined"
  | VNull => "null"
  | VBool true => "true"
  | VBool false => "false"
  | VNum z => NilZero.string_of_int (Z.to_int z)
  | VStr s => s
  | VArr items =>
      String.concat ","
        (map (fun x => match x with
                       | VUndefined | VNull => EmptyString
                       | _ => to_string x
                       end) items)
  | VObj _ => "[object Object]"
  end.

(** ** Resolution keys and the [EquivalentKeyMap] *)

(** A resolution key: the selector's name and its argument tuple. *)
Definition Key : Type := string * list value.

Definition key_eqb (a b : Key) : bool :=
  String.eqb (fst a) (fst b) && args_eqb (snd a) (snd b).

(** The path of a resolution key: its name and the paths of its arguments. *)
Definition canonical_key (k : Key) : Key := (fst k, map canonical (snd k)).

Module EquivalentKeyMap.

Definition t (V : Type) : Type := list (list value * V).

Definition empty {V : Type} : t V := [].

Definition get {V : Type} (m : t V) (args : list value) : option V :=
  assoc_get args_eqb m args.

Definition set {V : Type} (m : t V) (args : list value) (v : V) : t V :=
  assoc_set args_eqb m args v.

Definition delete {V : Type} (m : t V) (args : list value) : t V :=
  assoc_delete args_eqb m args.

End EquivalentKeyMap.

(** ** String helpers used by the resolvers *)

(** [xs.join( sep )] on an array of strings. *)
Definition join (sep : string) (xs : list string) : string :=
  String.concat sep xs.

(** lodash [uniq]: the first occurrence of every element is kept. *)
Fixpoint uniq_from (seen xs : list string) : list string :=
  match xs with
  | [] => []
  | x :: xs' =>
      if existsb (String.eqb x) seen then uniq_from seen xs'
      else x :: uniq_from (x :: seen) xs'
  end.

Definition uniq (xs : list string) : list string := uniq_from [] xs.

(** [s.split( ',' )]. *)
Fixpoint split_comma_from (cur : string) (s : string) : list string :=
  match s with
  | EmptyString => [cur]
  | String c s' =>
      if Ascii.eqb c ","%char then cur :: split_comma_from EmptyString s'
      else split_comma_from (cur ++ String c EmptyString) s'
  end.

Definition split_comma (s : string) : list string :=
  split_comma_from EmptyString s.

(** [s.indexOf( m ) > -1]: [m] occurs in [s] as a contiguous substring. *)
Fixpoint string_includes (s m : string) : bool :=
  if String.prefix m s then true
  else match s with
       | EmptyString => false
       | String _ s' => string_includes s' m
       end.

(** lodash [includes( collection, m )] for a string [m]: a substring test on
    a string, a membership test on an array or on the property values of an
    object, and [false] on anything else ([null] and [undefined]
    included). *)
Definition includes (collection : value) (m : string) : bool :=
  match collection with
  | VStr s => string_includes s m
  | VArr items => existsb (is_string m) items
  | VObj props => existsb (is_string m) (map snd props)
  | _ => false
  end.

(** lodash [compact( xs ).join( '/' )] on optional strings: absent and empty
    entries are falsy and dropped. *)
Definition compact (xs : list (option string)) : list string :=
  flat_map (fun x => match x with
                     | Some s => if String.eqb s EmptyString then [] else [s]
                     | None => []
                     end) xs.

(** ** Names an object literal inherits

    [o[ name ]] on an object literal finds, when [o] has no property of its
    own under [name], what [Object.prototype] holds under it: a function, or
    [Object.prototype] itself under ['__proto__'].  Such a member is truthy,
    is no string, and has no method [get], [set] or [delete]. *)
Definition inherited (name : string) : bool :=
  existsb (String.eqb name)
    ["constructor"; "__defineGetter__"; "__defineSetter__"; "hasOwnProperty";
     "__lookupGetter__"; "__lookupSetter__"; "isPrototypeOf";
     "propertyIsEnumerable"; "toString"; "valueOf"; "__proto__";
     "toLocaleString"].

(** ** Action objects of the resolution metadata

    The wire contract between the binder and the store:
    [{ type: 'START_RESOLUTION', selectorName, args }] and
    [{ type: 'FINISH_RESOLUTION', selectorName, args }]. *)

Definition resolution_action (type selectorName : string) (args : list value)
  : object :=
  [("type", VStr type); ("selectorName", VStr selectorName);
   ("args", VArr args)].

Definition startResolution : string -> list value -> object :=
  resolution_action "START_RESOLUTION".

Definition finishResolution : string -> list value -> object :=
  resolution_action "FINISH_RESOLUTION".


(** ** Effects of a resolver

    A resolver of [resolvers.js] is an asynchronous thunk over
    [{ select, dispatch }].  Everything it asks of its environment is an
    [effect]; the environment answers through [handle], which may change the
    world and may raise.  [ApiFetch] is [apiFetch( { path } )], whose answer
    is the parsed JSON body; [ApiFetchUnparsed] is the call with
    [parse: false], whose answer is the response object itself. *)

Inductive outcome (T : Type) : Type :=
| Returned (v : T)
| Raised (error : value).

Arguments Returned {T} v.
Arguments Raised {T} error.

Record entity : Type := {
  entity_kind : string;
  entity_name : string;
  entity_key : option string;
  entity_baseURL : string
}.

(** The token [__unstableAcquireStoreLock] answers with. *)
Definition lock : Type := nat.

(** The [headers] of an unparsed response: a fetch-style [Headers] object,
    read with its [get] method, or the plain object the preloading
    middleware returns. *)
Inductive Headers : Type :=
| FetchHeaders (get : string -> value)
| PlainHeaders (props : object).

Record Response : Type := { response_headers : option Headers }.

(** [GetKindEntities], [AcquireStoreLock] and [ReleaseStoreLock] are the
    dispatches of [getKindEntities( kind )], [__unstableAcquireStoreLock(
    ... )] and [__unstableReleaseStoreLock( lock )]; [HasEntityRecords] is
    [select.hasEntityRecords]; [ReceiveEntityRecords] and
    [ReceiveUserPermission] are the bound action creators of [dispatch];
    [Dispatch] is [dispatch] applied to a plain action object. *)
Inductive effect : Type -> Type :=
| GetKindEntities (kind : string) : effect (list entity)
| AcquireStoreLock (store : string) (path : list value) (exclusive : bool)
    : effect lock
| ReleaseStoreLock (l : lock) : effect unit
| HasEntityRecords (kind name : string) (query : object) : effect bool
| ApiFetch (options : object) : effect value
| ApiFetchUnparsed (options : object) : effect Response
| ReceiveEntityRecords (kind name : string) (records : value)
    (query : option object) : effect unit
| Dispatch (action : object) : effect unit
| ReceiveUserPermission (key : string) (isAllowed : bool) : effect unit.

(** A log entry: an effect the resolver performed and how it ended. *)
Inductive event : Type :=
| Performed {T : Type} (e : effect T) (r : outcome T).

(** [member_text name] is [String( m )] for the member [m] that object
    literals inherit under [name]; the text of a native function is left to
    the implementation of the language, so the host supplies it. *)
Class Host (World : Type) : Type := {
  handle : forall {T : Type}, effect T -> World -> outcome T * World;
  member_text : string -> string
}.

(** What [resolvers.js] imports from modules that are not part of the
    model: [addQueryArgs] of the URL package, and [getNormalizedCommaSeparable]
    and [DEFAULT_ENTITY_KEY] of the entity utilities. *)
Class Imports : Type := {
  addQueryArgs : string -> object -> string;
  getNormalizedCommaSeparable : value -> option (list string);
  DEFAULT_ENTITY_KEY : string
}.

(** Classification of logged effects. *)
Definition is_fetch (ev : event) : bool :=
  match ev with
  | Performed (ApiFetch _) _ | Performed (ApiFetchUnparsed _) _ => true
  | _ => false
  end.

Definition is_receive (ev : event) : bool :=
  match ev with
  | Performed (ReceiveEntityRecords _ _ _ _) _ => true
  | _ => false
  end.

Definition is_acquire (ev : event) : bool :=
  match ev with
  | Performed (AcquireStoreLock _ _ _) _ => true
  | _ => false
  end.

Definition is_release (ev : event) : bool :=
  match ev with
  | Performed (ReleaseStoreLock _) _ => true
  | _ => false
  end.

Definition is_failed_fetch (ev : event) : bool :=
  match ev with
  | Performed (ApiFetch _) (Raised _) => true
  | _ => false
  end.

Definition is_dispatch (ev : event) : bool :=
  match ev with
  | Performed (Dispatch _) _ => true
  | _ => false
  end.

(** The plain action objects a log hands to [dispatch], in order. *)
Definition dispatched (log : list event) : list object :=
  flat_map (fun ev => match ev with
                      | Performed (Dispatch a) _ => [a]
                      | _ => []
                      end) log.

(** The log entry of a dispatch that returned. *)
Definition dispatch_returned (action : object) : event :=
  Performed (Dispatch action) (Returned tt).

(** ** The resolver monad *)

Definition M (World T : Type) : Type :=
  World -> outcome T * World * list event.

Definition ret {World T : Type} (v : T) : M World T :=
  fun w => (Returned v, w, []).

Definition throw {World T : Type} (error : value) : M World T :=
  fun w => (Raised error, w, []).

Definition bind {World T U : Type} (m : M World T) (k : T -> M World U)
  : M World U :=
  fun w =>
    match m w with
    | (Returned v, w1, l1) =>
        match k v w1 with
        | (r, w2, l2) => (r, w2, l1 ++ l2)
        end
    | (Raised error, w1, l1) => (Raised error, w1, l1)
    end.

Definition perform {World T : Type} {host : Host World} (e : effect T)
  : M World T :=
  fun w =>
    match handle e w with
    | (r, w1) => (r, w1, [Performed e r])
    end.

(** A pure step that may raise (a [TypeError] of the language itself). *)
Definition lift {World T : Type} (r : outcome T) : M World T :=
  fun w => (r, w, []).

(** [try { body } catch ( error ) { handler( error ) }]. *)
Definition try_catch {World T : Type} (body : M World T)
  (handler : value -> M World T) : M World T :=
  fun w =>
    match body w with
    | (Returned v, w1, l1) => (Returned v, w1, l1)
    | (Raised error, w1, l1) =>
        match handler error w1 with
        | (r, w2, l2) => (r, w2, l1 ++ l2)
        end
    end.

(** [try { body } finally { finalizer }]: the finalizer always runs; the
    body's completion stands unless the finalizer itself raises. *)
Definition try_finally {World T : Type} (body : M World T)
  (finalizer : M World unit) : M World T :=
  fun w =>
    match body w with
    | (r, w1, l1) =>
        match finalizer w1 with
        | (Returned _, w2, l2) => (r, w2, l1 ++ l2)
        | (Raised error, w2, l2) => (Raised error, w2, l1 ++ l2)
        end
    end.

Notation "x <- m ;; k" := (bind m (fun x => k))
  (at level 61, m at next level, right associativity).
Notation "m ;; k" := (bind m (fun _ => k))
  (at level 61, right associativity).

(** [for ( const x of xs ) body( x )]. *)
Fixpoint for_of {World T : Type} (xs : list T) (body : T -> M World unit)
  : M World unit :=
  match xs with
  | [] => ret tt
  | x :: xs' => body x ;; for_of xs' body
  end.

(** [xs.map( f )] for an [f] that may raise. *)
Fixpoint map_outcome {T U : Type} (f : T -> outcome U) (xs : list T)
  : outcome (list U) :=
  match xs with
  | [] => Returned []
  | x :: xs' =>
      match f x with
      | Raised error => Raised error
      | Returned y =>
          match map_outcome f xs' with
          | Raised error => Raised error
          | Returned ys => Returned (y :: ys)
          end
      end
  end.

Definition TypeError (message : string) : value :=
  VObj [("name", VStr "TypeError"); ("message", VStr message)].

Definition Error (message : string) : value :=
  VObj [("name", VStr "Error"); ("message", VStr message)].

(** ** The entity resolvers ([packages/core-data/src/resolvers.js]) *)

(** [find( entities, { kind, name } )]. *)
Definition find_entity (entities : list entity) (kind name : string)
  : option entity :=
  find (fun e => String.eqb (entity_kind e) kind
                 && String.eqb (entity_name e) name) entities.

(** [value[ k ]] on a fetched JSON value, for a field name [k]: plain
    objects carry the data properties; reading a property of [null] or
    [undefined] raises; the other values have no field of their own (the
    indices and [length] of arrays and strings are no field names). *)
Definition read_prop (v : value) (k : string) : outcome value :=
  match v with
  | VObj props => Returned (prop props k)
  | VUndefined | VNull =>
      Raised (TypeError "Cannot read properties of null or undefined")
  | _ => Returned VUndefined
  end.

(** [Object.values( body )]. *)
Definition object_values (body : value) : outcome (list value) :=
  match body with
  | VArr items => Returned items
  | VObj props => Returned (map snd props)
  | VStr s =>
      Returned (map (fun c => VStr (String c EmptyString)) (list_ascii_of_string s))
  | VUndefined | VNull =>
      Raised (TypeError "Cannot convert undefined or null to object")
  | _ => Returned []
  end.

(** The callback of [records.map] in [getEntityRecords]: every requested
    field the record lacks is set to [undefined].  The module is strict code,
    so the assignment raises on a primitive. *)
Definition fill_fields (fields : list string) (record : value)
  : outcome value :=
  match record with
  | VObj props =>
      Returned
        (VObj (fold_left
                 (fun ps field =>
                    if has_prop ps field then ps
                    else ps ++ [(field, VUndefined)])
                 fields props))
  | VArr items => Returned (VArr items)
  | _ => Raised (TypeError "Cannot create property on a primitive value")
  end.

(** The default of [getEntityRecord]'s parameter [key = '']. *)
Definition key_or_empty (key : value) : value :=
  match key with
  | VUndefined => VStr EmptyString
  | _ => key
  end.

(** The default of [getEntityRecords]'s parameter [query = {}]. *)
Definition query_or_empty (query : option object) : object :=
  match query with
  | Some q => q
  | None => []
  end.

Section Resolvers.
Context {World : Type} {host : Host World} {imports : Imports}.

(** [entity.key || DEFAULT_ENTITY_KEY]. *)
Definition primary_key (e : entity) : string :=
  match entity_key e with
  | Some k => if String.eqb k EmptyString then DEFAULT_ENTITY_KEY else k
  | None => DEFAULT_ENTITY_KEY
  end.

(** The query with [_fields] rewritten to include the primary key:
    [{ ...query, _fields: uniq( [ ...( getNormalizedCommaSeparable(
    query._fields ) || [] ), entity.key || DEFAULT_ENTITY_KEY ] ).join() }]. *)
Definition with_key_field (e : entity) (query : object) : object :=
  set_prop query "_fields"
    (VStr (join ","
             (uniq (match getNormalizedCommaSeparable (prop query "_fields") with
                    | Some fields => fields
                    | None => []
                    end ++ [primary_key e])))).

(** [{ ...query, context: 'edit' }], where spreading [undefined] adds
    nothing. *)
Definition edit_context (query : option object) : object :=
  set_prop (match query with Some q => q | None => [] end)
    "context" (VStr "edit").

(** The end of [getEntityRecord]'s [try] block:
    [const record = await apiFetch( { path } );
     await dispatch.receiveEntityRecords( kind, name, record, query );] *)
Definition fetch_and_receive (kind name path : string) (query : option object)
  : M World unit :=
  record <- perform (ApiFetch [("path", VStr path)]) ;;
  perform (ReceiveEntityRecords kind name record query).

(** The [try] block of [getEntityRecord]. *)
Definition getEntityRecord_try (kind name : string) (key : value) (e : entity)
  (query : option object) : M World unit :=
  let query :=
    match query with
    | Some q =>
        if truthy (prop q "_fields") then Some (with_key_field e q)
        else Some q
    | None => None
    end in
  let path :=
    addQueryArgs (entity_baseURL e ++ "/" ++ to_string key)
      (edit_context query) in
  match query with
  | Some q =>
      let query := set_prop q "include" (VArr [key]) in
      hasRecords <- perform (HasEntityRecords kind name query) ;;
      if hasRecords then ret tt
      else fetch_and_receive kind name path (Some query)
  | None => fetch_and_receive kind name path None
  end.

Definition getEntityRecord (kind name : string) (key : value)
  (query : option object) : M World unit :=
  let key := key_or_empty key in
  entities <- perform (GetKindEntities kind) ;;
  match find_entity entities kind name with
  | None => ret tt
  | Some e =>
      lock <- perform
                (AcquireStoreLock "core"
                   [VStr "entities"; VStr "data"; VStr kind; VStr name; key]
                   false) ;;
      try_finally
        (try_catch (getEntityRecord_try kind name key e query)
           (fun _ => ret tt))
        (perform (ReleaseStoreLock lock))
  end.

(** The loop that closes [getEntityRecords]: for every record whose primary
    key is truthy, a START_RESOLUTION / FINISH_RESOLUTION pair for
    [getEntityRecord( kind, name, record[ key ] )]. *)
Definition seed_resolution (kind name key : string) (record : value)
  : M World unit :=
  id <- lift (read_prop record key) ;;
  if truthy id then
    perform (Dispatch
               (startResolution "getEntityRecord" [VStr kind; VStr name; id])) ;;
    perform (Dispatch
               (finishResolution "getEntityRecord" [VStr kind; VStr name; id]))
  else ret tt.

(** The actions [seed_resolution] hands to [dispatch] for one record that
    can be read. *)
Definition seeded_actions (kind name key : string) (record : value)
  : list object :=
  match read_prop record key with
  | Returned id =>
      if truthy id then
        [startResolution "getEntityRecord" [VStr kind; VStr name; id];
         finishResolution "getEntityRecord" [VStr kind; VStr name; id]]
      else []
  | Raised _ => []
  end.

(** The [try] block of [getEntityRecords]. *)
Definition getEntityRecords_try (kind name : string) (e : entity)
  (query : object) : M World unit :=
  let query :=
    if truthy (prop query "_fields") then with_key_field e query
    else query in
  let path := addQueryArgs (entity_baseURL e) (edit_context (Some query)) in
  body <- perform (ApiFetch [("path", VStr path)]) ;;
  records <- lift (object_values body) ;;
  records <-
    (if truthy (prop query "_fields") then
       lift (map_outcome
               (fill_fields (split_comma (to_string (prop query "_fields"))))
               records)
     else ret records) ;;
  perform (ReceiveEntityRecords kind name (VArr records) (Some query)) ;;
  if negb (truthy (prop query "_fields")) then
    for_of records (seed_resolution kind name (primary_key e))
  else ret tt.

Definition getEntityRecords (kind name : string) (query : option object)
  : M World unit :=
  let query := query_or_empty query in
  entities <- perform (GetKindEntities kind) ;;
  match find_entity entities kind name with
  | None => ret tt
  | Some e =>
      lock <- perform
                (AcquireStoreLock "core"
                   [VStr "entities"; VStr "data"; VStr kind; VStr name]
                   false) ;;
      try_finally (getEntityRecords_try kind name e query)
        (perform (ReleaseStoreLock lock))
  end.

(** [const methods = { create: 'POST', read: 'GET', update: 'PUT',
    delete: 'DELETE' }]: the four properties of the literal. *)
Definition methods (action : string) : option string :=
  if String.eqb action "create" then Some "POST"
  else if String.eqb action "read" then Some "GET"
  else if String.eqb action "update" then Some "PUT"
  else if String.eqb action "delete" then Some "DELETE"
  else None.

(** What [const method = methods[ action ]] can hold besides [undefined]:
    the verb of one of the four properties, or, under an [inherited] name,
    the member the literal inherits from [Object.prototype], named here by
    the property it is found under. *)
Inductive looked_up : Type :=
| Verb (verb : string)
| Member (name : string).

(** [methods[ action ]]: [None] stands for [undefined], the one falsy value
    the lookup can yield. *)
Definition method_of (action : string) : option looked_up :=
  match methods action with
  | Some verb => Some (Verb verb)
  | None => if inherited action then Some (Member action) else None
  end.

(** The [Allow] header of a response: through [headers.get( 'allow' )] when
    [hasIn( response, [ 'headers', 'get' ] )], and otherwise
    [get( response, [ 'headers', 'Allow' ], '' )].  A plain headers object
    with a [get] data property passes the [hasIn] test and then fails the
    call. *)
Definition allow_header (response : Response) : outcome value :=
  match response_headers response with
  | Some (FetchHeaders get) => Returned (get "allow")
  | Some (PlainHeaders props) =>
      if has_prop props "get" then
        Raised (TypeError "response.headers.get is not a function")
      else
        Returned (match prop props "Allow" with
                  | VUndefined => VStr EmptyString
                  | v => v
                  end)
  | None => Returned (VStr EmptyString)
  end.

Definition is_nonempty (id : option string) : bool :=
  match id with
  | Some s => negb (String.eqb s EmptyString)
  | None => false
  end.

(** The request of [canUser]: [{ path, method: id ? 'GET' : 'OPTIONS',
    parse: false }] with
    [path = id ? `/wp/v2/${ resource }/${ id }` : `/wp/v2/${ resource }`]. *)
Definition canUser_request (resource : string) (id : option string) : object :=
  [("path",
    VStr (if is_nonempty id then
            "/wp/v2/" ++ resource ++ "/"
            ++ match id with Some s => s | None => EmptyString end
          else "/wp/v2/" ++ resource));
   ("method", VStr (if is_nonempty id then "GET" else "OPTIONS"));
   ("parse", VBool false)].

(** [compact( [ action, resource, id ] ).join( '/' )]. *)
Definition permission_key (action resource : string) (id : option string)
  : string :=
  join "/" (compact [Some action; Some resource; id]).

(** [includes( allowHeader, method )]: for a verb the test of [includes];
    for an inherited member, a string header is searched for the text of
    the member ([String.prototype.indexOf] converts what it is given), and
    no array or object of fetched data holds the member itself. *)
Definition includes_method (allowHeader : value) (method : looked_up) : bool :=
  match method with
  | Verb verb => includes allowHeader verb
  | Member name =>
      match allowHeader with
      | VStr s => string_includes s (member_text name)
      | _ => false
      end
  end.

Definition canUser (action resource : string) (id : option string)
  : M World unit :=
  match method_of action with
  | None => throw (Error ("'" ++ action ++ "' is not a valid action.")%string)
  | Some method =>
      response <-
        try_catch
          (r <- perform (ApiFetchUnparsed (canUser_request resource id)) ;;
           ret (Some r))
          (fun _ => ret None) ;;
      match response with
      | None => ret tt
      | Some response =>
          allowHeader <- lift (allow_header response) ;;
          let key := permission_key action resource id in
          let isAllowed := includes_method allowHeader method in
          perform (ReceiveUserPermission key isAllowed)
      end
  end.

End Resolvers.

(** [getEntityRecords.shouldInvalidate]: the value of
    [( action.type === 'RECEIVE_ITEMS' || action.type === 'REMOVE_ITEMS' ) &&
     action.invalidateCache && kind === action.kind && name === action.name]. *)
Definition shouldInvalidate (action : object) (kind name : string) : value :=
  js_and
    (js_and
       (js_and
          (VBool (is_string "RECEIVE_ITEMS" (prop action "type")
                  || is_string "REMOVE_ITEMS" (prop action "type")))
          (prop action "invalidateCache"))
       (VBool (is_string kind (prop action "kind"))))
    (VBool (is_string name (prop action "name"))).

(** ** Resolution metadata *)

Module Metadata.

(** Modelled from the spec: the metadata reducer and selectors
    ([./metadata/reducer], [./metadata/selectors]), which
    [redux-store/index.js] imports from modules outside the two files
    embedded here.  The specification gives a resolution entry the statuses
    Unstarted -> Started -> Finished, keyed by selector name and structurally
    equal arguments, with monotonic transitions (no regression from Finished
    to Started); an invalidation action clears the entry and so forces
    re-resolution. *)
Inductive status : Type := Unstarted | Started | Finished.

Definition state : Type := list (Key * status).

Definition getStatus (m : state) (selectorName : string) (args : list value)
  : status :=
  match assoc_get key_eqb m (selectorName, args) with
  | Some s => s
  | None => Unstarted
  end.

(** Modelled from the spec: resolution has started once the entry left
    Unstarted; a Finished entry has started too (this is what lets a
    pre-seeded Finished entry shortcut a later resolver run). *)
Definition hasStartedResolution (m : state) (selectorName : string)
  (args : list value) : bool :=
  match getStatus m selectorName args with
  | Unstarted => false
  | _ => true
  end.

(** Modelled from the spec: [hasFinishedResolution] is true exactly for a
    Finished entry. *)
Definition hasFinishedResolution (m : state) (selectorName : string)
  (args : list value) : bool :=
  match getStatus m selectorName args with
  | Finished => true
  | _ => false
  end.

(** The resolution key an action object carries, if it has the shape
    [{ selectorName, args }]. *)
Definition key_of (action : object) : option Key :=
  match prop action "selectorName", prop action "args" with
  | VStr selectorName, VArr args => Some (selectorName, args)
  | _, _ => None
  end.

(** Modelled from the spec: the metadata reducer.  [None] stands for
    "returned the state object it was given"; an action that touches an entry
    yields a new state object. *)
Definition reducer (m : state) (action : object) : option state :=
  match key_of action with
  | Some k =>
      if is_string "START_RESOLUTION" (prop action "type") then
        Some (assoc_set key_eqb m k
                (match getStatus m (fst k) (snd k) with
                 | Finished => Finished
                 | _ => Started
                 end))
      else if is_string "FINISH_RESOLUTION" (prop action "type") then
        Some (assoc_set key_eqb m k Finished)
      else if is_string "INVALIDATE_RESOLUTION" (prop action "type") then
        Some (assoc_delete key_eqb m k)
      else None
  | None => None
  end.

(** The metadata after an action went through the reducer. *)
Definition reduce (m : state) (action : object) : state :=
  match reducer m action with
  | Some m' => m'
  | None => m
  end.

(** The action is an invalidation that reaches the resolution entry of
    [k]: [invalidateResolution] for an equivalent key, or one of the two
    wider invalidations among the action creators of [./metadata/actions],
    [invalidateResolutionForStoreSelector] for the selector of [k] and
    [invalidateResolutionForStore].  The specification describes the first
    only, and so does the reducer above; nothing below is claimed of a run
    in which one of the other two is dispatched. *)
Definition invalidates (k : Key) (action : object) : bool :=
  is_string "INVALIDATE_RESOLUTION_FOR_STORE" (prop action "type")
  || is_string "INVALIDATE_RESOLUTION_FOR_STORE_SELECTOR" (prop action "type")
     && is_string (fst k) (prop action "selectorName")
  || is_string "INVALIDATE_RESOLUTION" (prop action "type")
     && match key_of action with
        | Some k' => key_eqb k' k
        | None => false
        end.

End Metadata.

(** ** The resolver run-cache ([createResolversCache]) *)

Module ResolversCache.

(** [const cache = {}]: an [EquivalentKeyMap] per selector name.  Under an
    [inherited] selector name [cache[ selectorName ]] is the inherited
    member, and each of the three methods raises a [TypeError] at its call
    of [get], [delete] or [set]; the functions below are the methods on
    every other name, and [fulfillSelector] accounts for the raise. *)
Definition t : Type := list (string * EquivalentKeyMap.t bool).

Definition empty : t := [].

(** [cache[ selectorName ] && cache[ selectorName ].get( args )], as the
    condition of an [if] reads it. *)
Definition isRunning (cache : t) (selectorName : string) (args : list value)
  : bool :=
  match assoc_get String.eqb cache selectorName with
  | Some m =>
      match EquivalentKeyMap.get m args with
      | Some b => b
      | None => false
      end
  | None => false
  end.

Definition clear (cache : t) (selectorName : string) (args : list value) : t :=
  match assoc_get String.eqb cache selectorName with
  | Some m =>
      assoc_set String.eqb cache selectorName (EquivalentKeyMap.delete m args)
  | None => cache
  end.

Definition markAsRunning (cache : t) (selectorName : string)
  (args : list value) : t :=
  let m := match assoc_get String.eqb cache selectorName with
           | Some m => m
           | None => EquivalentKeyMap.empty
           end in
  assoc_set String.eqb cache selectorName (EquivalentKeyMap.set m args true).

End ResolversCache.

(** ** The store instance *)

(** A resolver as [mapResolvers] uses it: [fulfill] is opaque (its effects
    reach the store as dispatches), [isFulfilled] is optional. *)
Record Resolver (Root : Type) : Type := {
  isFulfilled : option (Root -> list value -> bool)
}.

Arguments isFulfilled {Root} r.

(** The options a store is created from.  A reducer answers [None] when it
    returns the very state it was given and [Some r] when it returns another
    one; this is all that [!==] on the two states observes.  [resolvers] is
    the lookup [resolvers[ selectorName ]] of [mapSelector], whatever it
    finds. *)
Class StoreOptions : Type := {
  Root : Type;
  Result : Type;
  initialState : Root;
  reducer : Root -> object -> option Root;
  selectors : string -> Root -> list value -> Result;
  resolvers : string -> option (Resolver Root)
}.

(** A listener registered through the facade's [subscribe], with the
    [lastState] variable of its closure and the number of times it was
    called.  State objects are named by identities: two references are equal
    exactly when the identities are.  A listener is observed through the
    number of its calls only; it does not dispatch or subscribe in turn. *)
Record Subscription : Type := {
  lastState : nat;
  calls : nat;
  active : bool
}.

Section Instance.
Context {options : StoreOptions}.

(** The redux store: the two slices of the combined state, the identity of
    the current [{ metadata, root }] object, the next identity not yet given
    to any state object, and the listeners. *)
Record Store : Type := {
  metadata : Metadata.state;
  root : Root;
  stateId : nat;
  nextId : nat;
  subscriptions : list Subscription
}.

(** [combineReducers( { metadata: metadataReducer, root: reducer } )]: the
    given state is returned unless one of the two slices changed. *)
Definition combineReducers (m : Metadata.state) (r : Root) (action : object)
  : option (Metadata.state * Root) :=
  match Metadata.reducer m action, reducer r action with
  | None, None => None
  | m', r' =>
      Some (match m' with Some x => x | None => m end,
            match r' with Some x => x | None => r end)
  end.

(** The wrapper [subscribe] hands to the store:
    [const state = store.__unstableOriginalGetState();
     const hasChanged = state !== lastState; lastState = state;
     if ( hasChanged ) listener();] *)
Definition notify (state : nat) (s : Subscription) : Subscription :=
  if active s then
    let hasChanged := negb (Nat.eqb state (lastState s)) in
    {| lastState := state;
       calls := if hasChanged then S (calls s) else calls s;
       active := true |}
  else s.

(** [store.dispatch( action )] for an action object: the reducer runs, a
    changed state is a new object, then every subscribed callback runs. *)
Definition dispatch (action : object) (s : Store) : Store :=
  match combineReducers (metadata s) (root s) action with
  | None =>
      {| metadata := metadata s; root := root s;
         stateId := stateId s; nextId := nextId s;
         subscriptions := map (notify (stateId s)) (subscriptions s) |}
  | Some (m, r) =>
      {| metadata := m; root := r;
         stateId := nextId s; nextId := S (nextId s);
         subscriptions := map (notify (nextId s)) (subscriptions s) |}
  end.

(** The facade's [subscribe( listener )]:
    [let lastState = store.__unstableOriginalGetState();] and the wrapper is
    registered. *)
Definition subscribe (s : Store) : Store :=
  {| metadata := metadata s; root := root s;
     stateId := stateId s; nextId := nextId s;
     subscriptions :=
       subscriptions s
       ++ [{| lastState := stateId s; calls := 0; active := true |}] |}.

Fixpoint deactivate (n : nat) (subs : list Subscription) : list Subscription :=
  match subs, n with
  | [], _ => []
  | s :: rest, O =>
      {| lastState := lastState s; calls := calls s; active := false |} :: rest
  | s :: rest, S n' => s :: deactivate n' rest
  end.

(** The function [subscribe] returned, for the [n]-th listener. *)
Definition unsubscribe (n : nat) (s : Store) : Store :=
  {| metadata := metadata s; root := root s;
     stateId := stateId s; nextId := nextId s;
     subscriptions := deactivate n (subscriptions s) |}.

Record Instance : Type := {
  store : Store;
  resolversCache : ResolversCache.t;
  (** callbacks handed to [setTimeout] that have not run yet, oldest first *)
  timeouts : list Key;
  (** resolver runs suspended at [await fulfillResolver( ... )] *)
  awaiting : list Key;
  (** every invocation of a resolver's [fulfill], oldest first *)
  fulfills : list Key
}.

(** The instance as [instantiate] returns it, the store holding the state
    its creation left. *)
Definition initial : Instance :=
  {| store := {| metadata := []; root := initialState;
                 stateId := 0; nextId := 1; subscriptions := [] |};
     resolversCache := ResolversCache.empty;
     timeouts := []; awaiting := []; fulfills := [] |}.

Definition with_store (i : Instance) (s : Store) : Instance :=
  {| store := s; resolversCache := resolversCache i;
     timeouts := timeouts i; awaiting := awaiting i; fulfills := fulfills i |}.

(** [fulfillSelector] of [mapResolvers]: it has no [await] before
    [setTimeout], so it runs to its end within the selector call.  Under an
    [inherited] selector name its first step, [resolversCache.isRunning],
    raises: the function ends there, its promise rejected and left alone by
    the wrapped selector, and nothing is scheduled. *)
Definition fulfillSelector (selectorName : string) (args : list value)
  (i : Instance) : Instance :=
  match resolvers selectorName with
  | None => i
  | Some resolver =>
      if inherited selectorName then i
      else
        let state := root (store i) in
        if ResolversCache.isRunning (resolversCache i) selectorName args
           || match isFulfilled resolver with
              | Some f => f state args
              | None => false
              end
        then i
        else if Metadata.hasStartedResolution (metadata (store i))
                  selectorName args
        then i
        else
          {| store := store i;
             resolversCache :=
               ResolversCache.markAsRunning (resolversCache i) selectorName
                 args;
             timeouts := timeouts i ++ [(selectorName, args)];
             awaiting := awaiting i;
             fulfills := fulfills i |}
  end.

(** The wrapped selector: [fulfillSelector( ...args ); return selector(
    ...args );].  A selector without resolver is the plain selector. *)
Definition callSelector (selectorName : string) (args : list value)
  (i : Instance) : Instance * Result :=
  (fulfillSelector selectorName args i,
   selectors selectorName (root (store i)) args).

(** The callback handed to [setTimeout], up to its [await]: the run-cache
    entry is cleared, START_RESOLUTION is dispatched and [fulfillResolver]
    invokes the resolver's [fulfill]. *)
Definition runTimeout (i : Instance) : Instance :=
  match timeouts i with
  | [] => i
  | (selectorName, args) :: rest =>
      {| store := dispatch (startResolution selectorName args) (store i);
         resolversCache :=
           ResolversCache.clear (resolversCache i) selectorName args;
         timeouts := rest;
         awaiting := awaiting i ++ [(selectorName, args)];
         fulfills := fulfills i ++ [(selectorName, args)] |}
  end.

Fixpoint remove_first (k : Key) (ks : list Key) : list Key :=
  match ks with
  | [] => []
  | k' :: rest => if key_eqb k k' then rest else k' :: remove_first k rest
  end.

(** The rest of the callback, after [await fulfillResolver( ... )]: when the
    awaited promise is fulfilled, FINISH_RESOLUTION is dispatched; when it is
    rejected the callback ends there, its own promise rejected. *)
Definition settle (selectorName : string) (args : list value)
  (fulfilled : bool) (i : Instance) : Instance :=
  if existsb (key_eqb (selectorName, args)) (awaiting i) then
    {| store :=
         if fulfilled then
           dispatch (finishResolution selectorName args) (store i)
         else store i;
       resolversCache := resolversCache i;
       timeouts := timeouts i;
       awaiting := remove_first (selectorName, args) (awaiting i);
       fulfills := fulfills i |}
  else i.

(** What can happen to a store instance. *)
Inductive occurrence : Type :=
| Calls (selectorName : string) (args : list value)
| TimerFires
| Dispatches (action : object)
| Settles (selectorName : string) (args : list value) (fulfilled : bool)
| Subscribes
| Unsubscribes (n : nat).

Definition step (i : Instance) (o : occurrence) : Instance :=
  match o with
  | Calls selectorName args => fst (callSelector selectorName args i)
  | TimerFires => runTimeout i
  | Dispatches action => with_store i (dispatch action (store i))
  | Settles selectorName args fulfilled => settle selectorName args fulfilled i
  | Subscribes => with_store i (subscribe (store i))
  | Unsubscribes n => with_store i (unsubscribe n (store i))
  end.

Definition run (i : Instance) (os : list occurrence) : Instance :=
  fold_left step os i.


(** How many times [k] occurs in a list of keys. *)
Definition times (k : Key) (ks : list Key) : nat :=
  length (filter (key_eqb k) ks).

(** ** [resolveSelect] *)

(** A promise that [resolveSelect.X( ...args )] returned: the selector name
    and the arguments its closures hold, the subscription of its listener
    when the executor subscribed, the values [resolve] was called with,
    oldest first, and the number of calls of [unsubscribe]. *)
Record Promise : Type := {
  promise_selector : string;
  promise_args : list value;
  listener : option nat;
  resolved : list Result;
  unsubscribeCalls : nat
}.

(** A store instance together with the promises made of it. *)
Record Session : Type := {
  instance : Instance;
  promises : list Promise
}.

Definition opened : Session := {| instance := initial; promises := [] |}.

(** The executor of the promise:
    [const result = getResult();
     if ( hasFinished() ) { return resolve( result ); }
     const unsubscribe = subscribe( listener );]
    where [getResult] calls the wrapped selector. *)
Definition resolveSelect (selectorName : string) (args : list value)
  (s : Session) : Session :=
  let (i1, result) := callSelector selectorName args (instance s) in
  if Metadata.hasFinishedResolution (metadata (store i1)) selectorName args
  then
    {| instance := i1;
       promises :=
         promises s
         ++ [{| promise_selector := selectorName; promise_args := args;
                listener := None; resolved := [result];
                unsubscribeCalls := 0 |}] |}
  else
    {| instance := with_store i1 (subscribe (store i1));
       promises :=
         promises s
         ++ [{| promise_selector := selectorName; promise_args := args;
                listener := Some (length (subscriptions (store i1)));
                resolved := []; unsubscribeCalls := 0 |}] |}.

(** The listener of the promise [p], as the store calls it:
    [if ( hasFinished() ) { unsubscribe(); resolve( getResult() ); }],
    [unsubscribe] being the function that [subscribe] returned for the
    subscription [n]. *)
Definition resolveSelect_listener (n : nat) (p : Promise) (i : Instance)
  : Instance * Promise :=
  if Metadata.hasFinishedResolution (metadata (store i))
       (promise_selector p) (promise_args p)
  then
    let i1 := with_store i (unsubscribe n (store i)) in
    let (i2, result) :=
      callSelector (promise_selector p) (promise_args p) i1 in
    (i2,
     {| promise_selector := promise_selector p;
        promise_args := promise_args p;
        listener := listener p;
        resolved := resolved p ++ [result];
        unsubscribeCalls := S (unsubscribeCalls p) |})
  else (i, p).

(** The store called the listener [n] between two of its states: the
    wrapper of [subscribe] counted one more call. *)
Definition called (before after : Store) (n : nat) : bool :=
  match nth_error (subscriptions before) n,
        nth_error (subscriptions after) n with
  | Some sub, Some sub' => Nat.ltb (calls sub) (calls sub')
  | _, _ => false
  end.

(** The listeners of the promises that the store called between [before]
    and [after] run, in the order in which the promises subscribed. *)
Fixpoint run_listeners (before after : Store) (ps : list Promise)
  (i : Instance) : Instance * list Promise :=
  match ps with
  | [] => (i, [])
  | p :: rest =>
      let (i1, p1) :=
        match listener p with
        | Some n =>
            if called before after n then resolveSelect_listener n p i
            else (i, p)
        | None => (i, p)
        end in
      let (i2, rest') := run_listeners before after rest i1 in
      (i2, p1 :: rest')
  end.

(** What can happen to a session: something happens to the store instance,
    or [resolveSelect.X( ...args )] is called.

    An occurrence dispatches at most one action, and the store calls its
    listeners within that dispatch, once the reducer has run.  The listener
    of a promise reads the state that the dispatch left; what it does when
    the entry is Finished (its own [unsubscribe], a selector call that is
    skipped because resolution has started, [resolve]) changes nothing that
    the rest of the occurrence or another listener reads.  The listeners
    that were called therefore run here on the instance as the occurrence
    left it. *)
Inductive happening : Type :=
| Occurs (o : occurrence)
| ResolveSelects (selectorName : string) (args : list value).

Definition session_step (s : Session) (h : happening) : Session :=
  match h with
  | Occurs o =>
      let i' := step (instance s) o in
      let (i'', ps) :=
        run_listeners (store (instance s)) (store i') (promises s) i' in
      {| instance := i''; promises := ps |}
  | ResolveSelects selectorName args => resolveSelect selectorName args s
  end.

Definition session_run (s : Session) (hs : list happening) : Session :=
  fold_left session_step hs s.

(** The happening is a call of the function that [subscribe] returned for
    the subscription [n] by a caller of [subscribe]. *)
Definition unsubscribes (n : nat) (h : happening) : bool :=
  match h with
  | Occurs (Unsubscribes m) => Nat.eqb m n
  | _ => false
  end.

(** The session right after the first of the happenings [hs] that gave the
    store a new state object in which the resolution entry of the key is
    Finished, if there is one. *)
Fixpoint first_finished (selectorName : string) (args : list value)
  (s : Session) (hs : list happening) : option Session :=
  match hs with
  | [] => None
  | h :: rest =>
      let s' := session_step s h in
      if negb (Nat.eqb (stateId (store (instance s')))
                 (stateId (store (instance s))))
         && Metadata.hasFinishedResolution (metadata (store (instance s')))
              selectorName args
      then Some s'
      else first_finished selectorName args s' rest
  end.

(** ** Invariants of a store instance *)

(** Between two dispatches the [lastState] of every subscribed listener is
    the current state object, and the next identity is fresh. *)
Definition synced (s : Store) : Prop :=
  stateId s < nextId s
  /\ Forall (fun sub => active sub = true -> lastState sub = stateId s)
       (subscriptions s).


(** A resolution entry the binder has left Started: no run for the key is
    scheduled and none is awaited. *)
Definition left_started (selectorName : string) (args : list value)
  (i : Instance) : Prop :=
  Metadata.getStatus (metadata (store i)) selectorName args = Metadata.Started
  /\ times (selectorName, args) (timeouts i) = 0
  /\ times (selectorName, args) (awaiting i) = 0.

(** The occurrences the binder and its callers produce by themselves, as
    opposed to an action object dispatched from elsewhere. *)
Definition is_internal (o : occurrence) : bool :=
  match o with
  | Dispatches _ => false
  | _ => true
  end.

End Instance.

(** ** Scripted environments

    Concrete hosts on which the model runs: the world counts the effects
    performed so far, a lock token is the count at its acquisition, and the
    answers to the entity lookup, to [hasEntityRecords] and to the two kinds
    of [apiFetch] are fixed by a script.  [sample_imports] stands in for the
    imported helpers. *)

Record Script : Type := {
  script_entities : outcome (list entity);
  script_hasRecords : outcome bool;
  script_body : outcome value;
  script_response : outcome Response
}.

Definition scripted_handle (s : Script) (T : Type) (e : effect T) (w : nat)
  : outcome T * nat :=
  match e in effect T return outcome T * nat with
  | GetKindEntities _ => (script_entities s, S w)
  | AcquireStoreLock _ _ _ => (Returned w, S w)
  | ReleaseStoreLock _ => (Returned tt, S w)
  | HasEntityRecords _ _ _ => (script_hasRecords s, S w)
  | ApiFetch _ => (script_body s, S w)
  | ApiFetchUnparsed _ => (script_response s, S w)
  | ReceiveEntityRecords _ _ _ _ => (Returned tt, S w)
  | Dispatch _ => (Returned tt, S w)
  | ReceiveUserPermission _ _ => (Returned tt, S w)
  end.

(** The text of the members of [Object.prototype] as V8 prints them. *)
Definition v8_member_text (name : string) : string :=
  if String.eqb name "__proto__" then "[object Object]"
  else ("function "
        ++ (if String.eqb name "constructor" then "Object" else name)
        ++ "() { [native code] }")%string.

Definition scripted (s : Script) : Host nat :=
  {| handle := scripted_handle s; member_text := v8_member_text |}.

Definition sample_imports : Imports :=
  {| addQueryArgs := fun path args =>
       (path ++ "?"
        ++ join "&" (map (fun kv => fst kv ++ "=" ++ to_string (snd kv)) args))%string;
     getNormalizedCommaSeparable := fun v =>
       match v with
       | VStr s => Some (split_comma s)
       | VArr items => Some (map to_string items)
       | _ => None
       end;
     DEFAULT_ENTITY_KEY := "id" |}.

Definition post_entity : entity :=
  {| entity_kind := "postType"; entity_name := "post";
     entity_key := None; entity_baseURL := "/wp/v2/posts" |}.

Definition network_down : value := Error "Failed to fetch".

(** The site knows posts, holds no matching records and answers a fetch for
    one post. *)
Definition online : Script :=
  {| script_entities := Returned [post_entity];
     script_hasRecords := Returned false;
     script_body := Returned (VObj [("id", VNum 7); ("title", VStr "Hello")]);
     script_response := Raised network_down |}.

(** The same site with every fetch failing. *)
Definition offline : Script :=
  {| script_entities := Returned [post_entity];
     script_hasRecords := Returned false;
     script_body := Raised network_down;
     script_response := Raised network_down |}.

(** The same site when the store already holds records for the query. *)
Definition cached : Script :=
  {| script_entities := Returned [post_entity];
     script_hasRecords := Returned true;
     script_body := Raised network_down;
     script_response := Raised network_down |}.

(** A collection fetch answering three records, one of them with key [0]. *)
Definition listing : Script :=
  {| script_entities := Returned [post_entity];
     script_hasRecords := Returned false;
     script_body :=
       Returned (VArr [VObj [("id", VNum 7)]; VObj [("id", VNum 0)];
                       VObj [("id", VNum 9)]]);
     script_response := Raised network_down |}.

(** A preflight answered with the given [Allow] header, fetch style. *)
Definition preflight (allow : string) : Script :=
  {| script_entities := Returned [];
     script_hasRecords := Returned false;
     script_body := Raised network_down;
     script_response :=
       Returned {| response_headers :=
                     Some (FetchHeaders
                             (fun name =>
                                if String.eqb name "allow" then VStr allow
                                else VNull)) |} |}.

(** The same preflight as the preloading middleware returns it. *)
Definition preloaded (allow : string) : Script :=
  {| script_entities := Returned [];
     script_hasRecords := Returned false;
     script_body := Raised network_down;
     script_response :=
       Returned {| response_headers :=
                     Some (PlainHeaders [("Allow", VStr allow)]) |} |}.

(** The collection fetch of posts on the [listing] site. *)
Definition listing_run : outcome unit * nat * list event :=
  getEntityRecords (host := scripted listing) (imports := sample_imports)
    "postType" "post" None 0.

(** A small store: widgets by identifier, received through
    [{ type: 'RECEIVE_WIDGET', id, widget }], read by the selector
    [getWidget( id )], which has a resolver without [isFulfilled]. *)
Definition widget_store : StoreOptions :=
  {| Root := object;
     Result := value;
     initialState := [];
     reducer := fun state action =>
       if is_string "RECEIVE_WIDGET" (prop action "type") then
         Some (set_prop state (to_string (prop action "id"))
                 (prop action "widget"))
       else None;
     selectors := fun selectorName state args =>
       match args with
       | [id] => prop state (to_string id)
       | _ => VUndefined
       end;
     resolvers := fun selectorName =>
       if String.eqb selectorName "getWidget" then
         Some {| isFulfilled := None |}
       else None |}.

(** A store whose selectors [getEntityRecord] and [getEntityRecords] have
    resolvers, as the entity store has; its state plays no part. *)
Definition entity_store : StoreOptions :=
  {| Root := unit;
     Result := value;
     initialState := tt;
     reducer := fun _ _ => None;
     selectors := fun _ _ _ => VUndefined;
     resolvers := fun selectorName =>
       if String.eqb selectorName "getEntityRecord"
          || String.eqb selectorName "getEntityRecords"
       then Some {| isFulfilled := None |}
       else None |}.

Definition receive_widget (id : Z) (widget : string) : object :=
  [("type", VStr "RECEIVE_WIDGET"); ("id", VNum id); ("widget", VStr widget)].

(** Four calls of [getWidget( 1 )] around one resolver run that succeeds. *)
Definition widget_calls : list occurrence :=
  [Calls "getWidget" [VNum 1];
   Calls "getWidget" [VNum 1];
   TimerFires;
   Calls "getWidget" [VNum 1];
   Dispatches (receive_widget 1 "gear");
   Settles "getWidget" [VNum 1] true;
   Calls "getWidget" [VNum 1]].

(** A resolver run for [getWidget( 1 )] whose [fulfill] raises. *)
Definition widget_failure : list occurrence :=
  [Calls "getWidget" [VNum 1];
   TimerFires;
   Settles "getWidget" [VNum 1] false].


(** What follows [resolveSelect.getWidget( 1 )] on a new store: the resolver
    run starts, receives the widget and settles; later the widget is
    replaced and read again. *)
Definition widget_resolution : list happening :=
  [Occurs TimerFires;
   Occurs (Dispatches (receive_widget 1 "gear"));
   Occurs (Settles "getWidget" [VNum 1] true);
   Occurs (Dispatches (receive_widget 1 "cog"));
   Occurs (Calls "getWidget" [VNum 1])].

(** One query, its properties listed in two orders. *)
Definition second_page : value :=
  VObj [("per_page", VNum 10); ("page", VNum 2)].

Definition second_page_reordered : value :=
  VObj [("page", VNum 2); ("per_page", VNum 10)].

(** ** The other resolvers of [resolvers.js]

    The remaining resolvers ask four things of their environment:
    [apiFetch( options )], [window.fetch( url )] read as JSON,
    [resolveSelect.X( ...args )], and the bound action creators
    [dispatch.X( ...args )]; [hasUploadPermissions] also calls
    [deprecated].  A request is answered as its call site observes it: an
    awaited call returns or raises; a call that is not awaited raises only
    by throwing at the call.  The world of these resolvers pairs the
    environment with the journal of the requests made so far, so that they
    run in the same monad as the entity resolvers. *)

Inductive request : Type -> Type :=
| Fetch (options : object) : request value
| WindowFetch (url : string) : request value
| ResolveSelect (selectorName : string) (args : list value) : request value
| Call (actionCreator : string) (args : list value) : request value
| Deprecated (feature : string) (options : object) : request unit.

Inductive asked : Type :=
| Asked {T : Type} (q : request T) (r : outcome T).

Class Registry (World : Type) : Type := {
  reply : forall {T : Type}, request T -> World -> outcome T * World
}.

Definition ask {World T : Type} {registry : Registry World} (q : request T)
  : M (World * list asked) T :=
  fun s =>
    match reply q (fst s) with
    | (r, w1) => (r, (w1, snd s ++ [Asked q r]), [])
    end.

(** The journal entry is a call of the bound action creator [name]. *)
Definition is_call (name : string) (entry : asked) : bool :=
  match entry with
  | Asked (Call actionCreator _) _ => String.eqb actionCreator name
  | _ => false
  end.

(** The journal entry is a call of any bound action creator. *)
Definition is_any_call (entry : asked) : bool :=
  match entry with
  | Asked (Call _ _) _ => true
  | _ => false
  end.

(** [value[ 0 ]]. *)
Definition first_item (v : value) : outcome value :=
  match v with
  | VArr items => Returned (hd VUndefined items)
  | VObj props => Returned (prop props "0")
  | VStr (String c _) => Returned (VStr (String c EmptyString))
  | VUndefined | VNull =>
      Raised (TypeError "Cannot read properties of null or undefined")
  | _ => Returned VUndefined
  end.

(** [value.length] on a value that is neither [null] nor [undefined]. *)
Definition length_of (v : value) : value :=
  match v with
  | VArr items => VNum (Z.of_nat (length items))
  | VStr s => VNum (Z.of_nat (String.length s))
  | VObj props => prop props "length"
  | _ => VUndefined
  end.

Section Thunks.
Context {World : Type} {registry : Registry World} {imports : Imports}.

(** [getAuthors]; [addQueryArgs] is given the empty object for an absent
    query. *)
Definition getAuthors (query : option object)
  : M (World * list asked) value :=
  let path :=
    addQueryArgs "/wp/v2/users/?who=authors&per_page=100"
      (query_or_empty query) in
  users <- ask (Fetch [("path", VStr path)]) ;;
  ask (Call "receiveUserQuery" [VStr path; users]) ;;
  ret VUndefined.

Definition __unstableGetAuthor (id : value) : M (World * list asked) value :=
  let path := ("/wp/v2/users?who=authors&include=" ++ to_string id)%string in
  users <- ask (Fetch [("path", VStr path)]) ;;
  ask (Call "receiveUserQuery" [VStr "author"; users]) ;;
  ret VUndefined.

Definition getCurrentUser : M (World * list asked) value :=
  currentUser <- ask (Fetch [("path", VStr "/wp/v2/users/me")]) ;;
  ask (Call "receiveCurrentUser" [currentUser]) ;;
  ret VUndefined.

Definition getCurrentTheme : M (World * list asked) value :=
  activeThemes <- ask (Fetch [("path", VStr "/wp/v2/themes?status=active")]) ;;
  theme <- lift (first_item activeThemes) ;;
  ask (Call "receiveCurrentTheme" [theme]).

Definition getThemeSupports : M (World * list asked) value :=
  activeThemes <- ask (Fetch [("path", VStr "/wp/v2/themes?status=active")]) ;;
  theme <- lift (first_item activeThemes) ;;
  supports <- lift (read_prop theme "theme_supports") ;;
  ask (Call "receiveThemeSupports" [supports]).

Definition getEmbedPreview (url : string) : M (World * list asked) value :=
  try_catch
    (embedProxyResponse <-
       ask (Fetch [("path",
                    VStr (addQueryArgs "/oembed/1.0/proxy"
                            [("url", VStr url)]))]) ;;
     ask (Call "receiveEmbedPreview" [VStr url; embedProxyResponse]))
    (fun _ => ask (Call "receiveEmbedPreview" [VStr url; VBool false])).

Definition hasUploadPermissions : M (World * list asked) value :=
  ask (Deprecated "select( 'core' ).hasUploadPermissions()"
         [("alternative", VStr "select( 'core' ).canUser( 'create', 'media' )")]) ;;
  ask (Call "canUser" [VStr "create"; VStr "media"]).

Definition getAutosaves (postType postId : value)
  : M (World * list asked) value :=
  type <- ask (ResolveSelect "getPostType" [postType]) ;;
  restBase <- lift (read_prop type "rest_base") ;;
  autosaves <-
    ask (Fetch [("path",
                 VStr ("/wp/v2/" ++ to_string restBase ++ "/"
                       ++ to_string postId ++ "/autosaves?context=edit"))]) ;;
  if truthy (js_and autosaves (length_of autosaves)) then
    ask (Call "receiveAutosaves" [postId; autosaves]) ;;
    ret VUndefined
  else ret VUndefined.

Definition getAutosave (postType postId : value)
  : M (World * list asked) value :=
  ask (ResolveSelect "getAutosaves" [postType; postId]) ;;
  ret VUndefined.

Definition __experimentalGetTemplateForLink (link : string)
  : M (World * list asked) value :=
  res <- ask (WindowFetch
                (addQueryArgs link [("_wp-find-template", VBool true)])) ;;
  template <- lift (read_prop res "data") ;;
  match template with
  | VNull => ret VUndefined
  | _ =>
      id <- lift (read_prop template "id") ;;
      record <-
        ask (ResolveSelect "getEntityRecord"
               [VStr "postType"; VStr "wp_template"; id]) ;;
      if truthy record then
        ask (Call "receiveEntityRecords"
               [VStr "postType"; VStr "wp_template"; VArr [record];
                VObj [("find-template", VStr link)]]) ;;
        ret VUndefined
      else ret VUndefined
  end.

End Thunks.

(** ** [mapSelectors]: the argument array of [runSelector] *)

Section RunSelector.
Context {A : Type} (hole : A).

(** [new Array( n )]: [n] slots, none assigned. *)
Definition new_array (n : nat) : list A := repeat hole n.

(** [xs[ i ] = x]; an assignment past the end extends the array. *)
Fixpoint assign (xs : list A) (i : nat) (x : A) : list A :=
  match xs, i with
  | [], O => [x]
  | [], S i' => hole :: assign [] i' x
  | _ :: rest, O => x :: rest
  | y :: rest, S i' => y :: assign rest i' x
  end.

(** [for ( let i = 0; i < argsLength; i++ ) args[ i + 1 ] = arguments[ i ];]
    from the index [i] on, with [todo] iterations to go. *)
Fixpoint copy_arguments (arguments : list A) (i todo : nat) (args : list A)
  : list A :=
  match todo with
  | O => args
  | S todo' =>
      copy_arguments arguments (S i) todo'
        (assign args (i + 1) (nth i arguments hole))
  end.

(** The array [runSelector] applies the registry selector to. *)
Definition runSelector_args (state : A) (arguments : list A) : list A :=
  let argsLength := length arguments in
  let args := new_array (argsLength + 1) in
  let args := assign args 0 state in
  copy_arguments arguments 0 argsLength args.

End RunSelector.

(** ** The tables a store instance is assembled from *)

(** [{ ...a, ...b }]. *)
Definition spread {V : Type} (a b : list (string * V)) : list (string * V) :=
  fold_left (fun acc kv => assoc_set String.eqb acc (fst kv) (snd kv)) b a.

(** lodash [mapValues( o, f )], [f] receiving the value and its key. *)
Definition mapValues {V W : Type} (f : V -> string -> W)
  (o : list (string * V)) : list (string * W) :=
  map (fun kv => (fst kv, f (snd kv) (fst kv))) o.

(** lodash [omit( o, names )]. *)
Definition omit {V : Type} (o : list (string * V)) (names : list string)
  : list (string * V) :=
  filter (fun kv => negb (existsb (String.eqb (fst kv)) names)) o.

(** A control, which is either the handler itself or, when it carries
    [isRegistryControl], a function from the registry to the handler. *)
Inductive control (R C : Type) : Type :=
| PlainControl (handler : C)
| RegistryControl (make : R -> C).

Arguments PlainControl {R C} handler.
Arguments RegistryControl {R C} make.

(** [instantiateReduxStore]:
    [const controls = { ...options.controls, ...builtinControls };
     const normalizedControls = mapValues( controls, ( control ) =>
       control.isRegistryControl ? control( registry ) : control );] *)
Definition normalizedControls {R C : Type} (registry : R)
  (options_controls builtinControls : list (string * control R C))
  : list (string * C) :=
  mapValues
    (fun control _ =>
       match control with
       | RegistryControl make => make registry
       | PlainControl handler => handler
       end)
    (spread options_controls builtinControls).

(** [instantiate]: the action creators
    [mapValues( { ...metadataActions, ...options.actions }, ... )], each
    wrapped by [wrap]. *)
Definition bound_actions {Act Bound : Type} (wrap : Act -> Bound)
  (metadataActions options_actions : list (string * Act))
  : list (string * Bound) :=
  mapValues (fun action _ => wrap action)
    (spread metadataActions options_actions).

(** [instantiate]: the selectors handed to [mapSelectors],
    [{ ...mapValues( metadataSelectors, onMetadata ),
       ...mapValues( options.selectors, onRoot ) }]. *)
Definition state_selectors {Sel Bound : Type} (onMetadata onRoot : Sel -> Bound)
  (metadataSelectors options_selectors : list (string * Sel))
  : list (string * Bound) :=
  spread (mapValues (fun selector _ => onMetadata selector) metadataSelectors)
    (mapValues (fun selector _ => onRoot selector) options_selectors).

(** [getResolveSelectors]: one promise-returning selector per selector of
    the store, the five selectors of the resolution metadata left out. *)
Definition resolveSelectors {Sel Promised : Type}
  (promised : Sel -> string -> Promised) (selectors : list (string * Sel))
  : list (string * Promised) :=
  mapValues promised
    (omit selectors
       ["getIsResolving"; "hasStartedResolution"; "hasFinishedResolution";
        "isResolving"; "getCachedResolvers"]).

(** How many times the wrapped selector is called for [k] in a sequence of
    occurrences. *)
Definition calls_of (k : Key) (os : list occurrence) : nat :=
  length
    (filter (fun o => match o with
                      | Calls selectorName args => key_eqb k (selectorName, args)
                      | _ => false
                      end) os).

(** The occurrence unsubscribes the listener [n]. *)
Definition unsubscribing (n : nat) (o : occurrence) : bool :=
  match o with
  | Unsubscribes n' => Nat.eqb n' n
  | _ => false
  end.

(** ** The posts menu of the navigation sidebar ([content-posts.js])

    What [ContentPostsMenu] renders, as a function of what its hooks hand
    it: the search text and the debouncing flag of [useDebouncedSearch], and
    the posts and the [show_on_front] setting read through [useSelect]. *)

Record PostsMenu : Type := {
  (** [<SearchResults items={ posts } search={ search } />] *)
  searchResults : option (value * string);
  (** the "All Posts" item *)
  allPostsItem : bool;
  (** the keys of the [<ContentNavigationItem />]s, in order *)
  postItems : list string;
  (** the loading item *)
  loadingItem : bool
}.

(** [`${ post.type }-${ post.id }`]. *)
Definition post_key (post : value) : outcome string :=
  match read_prop post "type" with
  | Raised error => Raised error
  | Returned type =>
      match read_prop post "id" with
      | Raised error => Raised error
      | Returned id => Returned (to_string type ++ "-" ++ to_string id)%string
      end
  end.

(** [posts?.map( ( post ) => ... )]: nothing for [null] and [undefined], one
    item per element of an array, a [TypeError] for any other value, which
    has no [map]. *)
Definition post_items (posts : value) : outcome (list string) :=
  match posts with
  | VNull | VUndefined => Returned []
  | VArr items => map_outcome post_key items
  | _ => Raised (TypeError "posts.map is not a function")
  end.

Definition ContentPostsMenu (search : string) (isDebouncing : bool)
  (posts showOnFront : value) : outcome PostsMenu :=
  let searching := truthy (VStr search) in
  let isLoading :=
    negb searching && match posts with VNull => true | _ => false end in
  let shouldShowLoadingForDebouncing := searching && isDebouncing in
  let showLoading := isLoading || shouldShowLoadingForDebouncing in
  match (if searching then Returned [] else post_items posts) with
  | Raised error => Raised error
  | Returned items =>
      Returned
        {| searchResults :=
             if searching && negb isDebouncing then Some (posts, search)
             else None;
           allPostsItem := negb searching && is_string "posts" showOnFront;
           postItems := items;
           loadingItem := showLoading |}
  end.

(** ** Scripted registries

    Concrete registries for the resolvers above: the world counts the
    requests made so far, and the answers to the two kinds of fetch, to
    [resolveSelect] and to the bound action creators are fixed by a
    script. *)

Record Answers : Type := {
  answer_fetch : outcome value;
  answer_select : outcome value;
  answer_call : outcome value
}.

Definition answering_reply (s : Answers) (T : Type) (q : request T) (w : nat)
  : outcome T * nat :=
  match q in request T return outcome T * nat with
  | Fetch _ => (answer_fetch s, S w)
  | WindowFetch _ => (answer_fetch s, S w)
  | ResolveSelect _ _ => (answer_select s, S w)
  | Call _ _ => (answer_call s, S w)
  | Deprecated _ _ => (Returned tt, S w)
  end.

Definition answering (s : Answers) : Registry nat :=
  {| reply := answering_reply s |}.

(** A site without an active theme. *)
Definition no_themes : Answers :=
  {| answer_fetch := Returned (VArr []);
     answer_select := Returned VUndefined;
     answer_call := Returned VUndefined |}.

Definition autosave : value :=
  VObj [("id", VNum 12); ("parent", VNum 7)].

(** A site that knows the post type and holds one autosave of the post. *)
Definition with_autosave : Answers :=
  {| answer_fetch := Returned (VArr [autosave]);
     answer_select := Returned (VObj [("rest_base", VStr "posts")]);
     answer_call := Returned VUndefined |}.

(** A site that does not know the post type. *)
Definition unknown_type : Answers :=
  {| answer_fetch := Returned (VArr [autosave]);
     answer_select := Returned VUndefined;
     answer_call := Returned VUndefined |}.

(** A link for which no template is found. *)
Definition without_template : Answers :=
  {| answer_fetch := Returned (VObj [("data", VNull)]);
     answer_select := Returned VUndefined;
     answer_call := Returned VUndefined |}.

Definition template_record : value :=
  VObj [("id", VStr "theme//single"); ("slug", VStr "single")].

(** A link whose template is found and whose record the store holds. *)
Definition with_template : Answers :=
  {| answer_fetch := Returned (VObj [("data", VObj [("id", VStr "theme//single")])]);
     answer_select := Returned template_record;
     answer_call := Returned VUndefined |}.

(** A site that cannot be reached. *)
Definition unreachable : Answers :=
  {| answer_fetch := Raised network_down;
     answer_select := Returned VUndefined;
     answer_call := Returned VUndefined |}.

(** The listener subscribed after the first call of [getWidget( 1 )], and
    what happens on the store afterwards. *)
Definition after_subscription : list occurrence :=
  [TimerFires;
   Dispatches [("type", VStr "NOOP")];
   Dispatches (receive_widget 1 "gear");
   Subscribes;
   Settles "getWidget" [VNum 1] true;
   Unsubscribes 1].

(** What the posts menu shows while a search is debouncing. *)
Definition loading_menu : PostsMenu :=
  {| searchResults := None; allPostsItem := false; postItems := [];
     loadingItem := true |}.

Definition two_posts : value :=
  VArr [VObj [("type", VStr "post"); ("id", VNum 1)];
        VObj [("type", VStr "post"); ("id", VNum 2)]].

(* ================================================================== *)
(** * Part II.  Properties                                             *)
(* ================================================================== *)

(** ** Sameness of values decides equality *)

Section ValueInduction.
Variable P : value -> Prop.
Hypothesis P_undefined : P VUndefined.
Hypothesis P_null : P VNull.
Hypothesis P_bool : forall b, P (VBool b).
Hypothesis P_num : forall z, P (VNum z).
Hypothesis P_str : forall s, P (VStr s).
Hypothesis P_arr : forall items, Forall P items -> P (VArr items).
Hypothesis P_obj :
  forall props, Forall (fun kv => P (snd kv)) props -> P (VObj props).

Fixpoint value_nested_ind (v : value) : P v :=
  match v with
  | VUndefined => P_undefined
  | VNull => P_null
  | VBool b => P_bool b
  | VNum z => P_num z
  | VStr s => P_str s
  | VArr items =>
      P_arr items
        ((fix all (l : list value) : Forall P l :=
            match l with
            | [] => Forall_nil P
            | x :: l' => Forall_cons x (value_nested_ind x) (all l')
            end) items)
  | VObj props =>
      P_obj props
        ((fix all (l : list (string * value))
            : Forall (fun kv => P (snd kv)) l :=
            match l with
            | [] => Forall_nil _
            | kv :: l' => Forall_cons kv (value_nested_ind (snd kv)) (all l')
            end) props)
  end.

End ValueInduction.

Lemma value_same_arr (xs ys : list value) :
  value_same (VArr xs) (VArr ys) = args_same xs ys.
Proof. reflexivity. Qed.

Lemma args_same_spec_from (xs : list value) :
  Forall (fun x => forall y, value_same x y = true <-> x = y) xs ->
  forall ys, args_same xs ys = true <-> xs = ys.
Proof.
  induction 1 as [|x xs Hx _ IH]; intros [|y ys]; simpl; try (split; congruence).
  rewrite andb_true_iff, Hx, IH. split.
  - intros [-> ->]. reflexivity.
  - intros E. injection E. auto.
Qed.

Lemma value_same_eq (a b : value) : value_same a b = true <-> a = b.
Proof.
  revert b. induction a as [| |x|x|x|xs IH|ps IH] using value_nested_ind;
    intros [| |y|y|y|ys|qs]; simpl; try (split; congruence).
  - rewrite Bool.eqb_true_iff. split; congruence.
  - rewrite Z.eqb_eq. split; congruence.
  - rewrite String.eqb_eq. split; congruence.
  - change (args_same xs ys = true <-> VArr xs = VArr ys).
    rewrite (args_same_spec_from xs IH ys). split; congruence.
  - revert qs. induction IH as [|[k v] ps Hv _ IHps]; intros [|[k' v'] qs];
      simpl; try (split; congruence).
    simpl in Hv. rewrite !andb_true_iff, String.eqb_eq, Hv, IHps. split.
    + intros [[-> ->] E]. injection E as ->. reflexivity.
    + intros E. injection E as -> -> ->. auto.
Qed.

(** ** Equivalent keys are the keys with the same path *)

Lemma value_eqb_canonical (a b : value) :
  value_eqb a b = true <-> canonical a = canonical b.
Proof. unfold value_eqb. apply value_same_eq. Qed.

Lemma args_eqb_canonical (xs ys : list value) :
  args_eqb xs ys = true <-> map canonical xs = map canonical ys.
Proof.
  revert ys. induction xs as [|x xs IH]; intros [|y ys]; cbn [args_eqb map];
    try (split; congruence).
  rewrite andb_true_iff, value_eqb_canonical, IH. split.
  - intros [-> ->]. reflexivity.
  - intros E. injection E. auto.
Qed.

Lemma key_eqb_canonical (a b : Key) :
  key_eqb a b = true <-> canonical_key a = canonical_key b.
Proof.
  destruct a as [n xs], b as [m ys]. unfold key_eqb, canonical_key.
  cbn [fst snd]. rewrite andb_true_iff, String.eqb_eq, args_eqb_canonical.
  split.
  - intros [-> ->]. reflexivity.
  - intros E. injection E. auto.
Qed.

Lemma args_eqb_refl (xs : list value) : args_eqb xs xs = true.
Proof. apply args_eqb_canonical. reflexivity. Qed.

Lemma args_eqb_sym (xs ys : list value) : args_eqb xs ys = args_eqb ys xs.
Proof.
  apply eq_true_iff_eq. rewrite !args_eqb_canonical. split; congruence.
Qed.

Lemma args_eqb_trans (xs ys zs : list value) :
  args_eqb xs ys = true -> args_eqb ys zs = true -> args_eqb xs zs = true.
Proof. rewrite !args_eqb_canonical. congruence. Qed.

Lemma key_eqb_refl (k : Key) : key_eqb k k = true.
Proof. apply key_eqb_canonical. reflexivity. Qed.

Lemma key_eqb_sym (a b : Key) : key_eqb a b = key_eqb b a.
Proof.
  apply eq_true_iff_eq. rewrite !key_eqb_canonical. split; congruence.
Qed.

Lemma key_eqb_trans (a b c : Key) :
  key_eqb a b = true -> key_eqb b c = true -> key_eqb a c = true.
Proof. rewrite !key_eqb_canonical. congruence. Qed.

(** Equivalent keys are equivalent to the same keys. *)
Lemma key_eqb_left (a b c : Key) :
  key_eqb a b = true -> key_eqb a c = key_eqb b c.
Proof.
  intros H. apply eq_true_iff_eq. revert H. rewrite !key_eqb_canonical.
  split; congruence.
Qed.

Lemma key_eqb_right (a b c : Key) :
  key_eqb a b = true -> key_eqb c a = key_eqb c b.
Proof.
  intros H. rewrite (key_eqb_sym c a), (key_eqb_sym c b).
  apply key_eqb_left, H.
Qed.

Lemma key_eqb_name (a b : Key) : key_eqb a b = true -> fst a = fst b.
Proof.
  unfold key_eqb. intros H. apply andb_true_iff in H.
  apply String.eqb_eq, H.
Qed.

(** ** Association lists behave as finite maps *)

Section AssocFacts.
Context {K V : Type} (eqb : K -> K -> bool).
Hypothesis eqb_eq : forall a b, eqb a b = true <-> a = b.

Lemma eqb_same (k : K) : eqb k k = true.
Proof. apply eqb_eq. reflexivity. Qed.

Lemma eqb_other (k k' : K) : k <> k' -> eqb k k' = false.
Proof.
  intros N. destruct (eqb k k') eqn:E; [|reflexivity].
  apply eqb_eq in E. contradiction.
Qed.

Lemma assoc_get_set_same (m : list (K * V)) k v :
  assoc_get eqb (assoc_set eqb m k v) k = Some v.
Proof.
  induction m as [|[k' v'] m IH]; simpl.
  - rewrite eqb_same. reflexivity.
  - destruct (eqb k k') eqn:E; simpl; rewrite E; auto.
Qed.

Lemma assoc_get_set_other (m : list (K * V)) k k' v :
  k <> k' ->
  assoc_get eqb (assoc_set eqb m k v) k' = assoc_get eqb m k'.
Proof.
  intros N. induction m as [|[k0 v0] m IH]; simpl.
  - rewrite (eqb_other k' k); auto.
  - destruct (eqb k k0) eqn:E; simpl.
    + apply eqb_eq in E. subst k0. rewrite (eqb_other k' k); auto.
    + rewrite IH. reflexivity.
Qed.

Lemma assoc_get_delete_same (m : list (K * V)) k :
  assoc_get eqb (assoc_delete eqb m k) k = None.
Proof.
  induction m as [|[k' v'] m IH]; simpl; auto.
  destruct (eqb k k') eqn:E; simpl; [|rewrite E]; auto.
Qed.

Lemma assoc_get_delete_other (m : list (K * V)) k k' :
  k <> k' ->
  assoc_get eqb (assoc_delete eqb m k) k' = assoc_get eqb m k'.
Proof.
  intros N. induction m as [|[k0 v0] m IH]; simpl; auto.
  destruct (eqb k k0) eqn:E; simpl.
  - apply eqb_eq in E. subst k0. rewrite (eqb_other k' k); auto.
  - rewrite IH. reflexivity.
Qed.

End AssocFacts.

(** The same for keys compared by an equivalence, as those of an
    [EquivalentKeyMap] are: a lookup finds what was set under any equivalent
    key. *)
Section AssocEquiv.
Context {K V : Type} (eqb : K -> K -> bool).
Hypothesis eqb_refl : forall a, eqb a a = true.
Hypothesis eqb_sym : forall a b, eqb a b = eqb b a.
Hypothesis eqb_trans :
  forall a b c, eqb a b = true -> eqb b c = true -> eqb a c = true.

Lemma eqb_left (a b c : K) : eqb a b = true -> eqb a c = eqb b c.
Proof.
  intros H. destruct (eqb b c) eqn:E.
  - apply (eqb_trans a b c); assumption.
  - destruct (eqb a c) eqn:E'; [|reflexivity].
    rewrite <- E. symmetry. apply (eqb_trans b a c); [|exact E'].
    rewrite eqb_sym. exact H.
Qed.

Lemma assoc_get_equiv (m : list (K * V)) (k k' : K) :
  eqb k k' = true -> assoc_get eqb m k = assoc_get eqb m k'.
Proof.
  intros H. induction m as [|[k0 v0] m IH]; cbn [assoc_get]; [reflexivity|].
  rewrite (eqb_left k k' k0 H), IH. reflexivity.
Qed.

Lemma assoc_get_set (m : list (K * V)) (k k' : K) (v : V) :
  assoc_get eqb (assoc_set eqb m k v) k'
  = if eqb k' k then Some v else assoc_get eqb m k'.
Proof.
  induction m as [|[k0 v0] m IH]; cbn [assoc_set assoc_get]; [reflexivity|].
  destruct (eqb k k0) eqn:E; cbn [assoc_get].
  - rewrite (eqb_sym k' k), (eqb_left k k0 k' E), (eqb_sym k0 k').
    destruct (eqb k' k0); reflexivity.
  - rewrite IH. destruct (eqb k' k0) eqn:E0; [|reflexivity].
    destruct (eqb k' k) eqn:E1; [|reflexivity].
    assert (Hk : eqb k k0 = true)
      by (apply (eqb_trans k k' k0); [rewrite eqb_sym; exact E1|exact E0]).
    congruence.
Qed.

Lemma assoc_get_delete (m : list (K * V)) (k k' : K) :
  assoc_get eqb (assoc_delete eqb m k) k'
  = if eqb k' k then None else assoc_get eqb m k'.
Proof.
  induction m as [|[k0 v0] m IH]; cbn [assoc_delete assoc_get].
  - destruct (eqb k' k); reflexivity.
  - destruct (eqb k k0) eqn:E; cbn [assoc_get].
    + rewrite IH. destruct (eqb k' k) eqn:E1; [reflexivity|].
      rewrite (eqb_sym k' k0), <- (eqb_left k k0 k' E), (eqb_sym k k'), E1.
      reflexivity.
    + rewrite IH. destruct (eqb k' k0) eqn:E0; [|reflexivity].
      destruct (eqb k' k) eqn:E1; [|reflexivity].
      assert (Hk : eqb k k0 = true)
        by (apply (eqb_trans k k' k0); [rewrite eqb_sym; exact E1|exact E0]).
      congruence.
Qed.

End AssocEquiv.

(** ** Cache invalidation predicate of [getEntityRecords] *)

Lemma is_string_eq (s : string) (v : value) :
  is_string s v = true <-> v = VStr s.
Proof.
  destruct v; simpl; try (split; congruence).
  rewrite String.eqb_eq. split; congruence.
Qed.

(** C7.  [getEntityRecords.shouldInvalidate( action, kind, name )] returns
    [true] if and only if the action's type is ['RECEIVE_ITEMS'] or
    ['REMOVE_ITEMS'], its [invalidateCache] flag is set (truthy), its [kind]
    is [kind] and its [name] is [name].  In every other case the returned
    value is falsy, so the same condition characterises the test the
    invalidation middleware makes of the result. *)
Theorem shouldInvalidate_true_iff (action : object) (kind name : string) :
  let flagged :=
    (prop action "type" = VStr "RECEIVE_ITEMS"
     \/ prop action "type" = VStr "REMOVE_ITEMS")
    /\ truthy (prop action "invalidateCache") = true
    /\ prop action "kind" = VStr kind
    /\ prop action "name" = VStr name in
  (shouldInvalidate action kind name = VBool true <-> flagged)
  /\ (truthy (shouldInvalidate action kind name) = true <-> flagged).
Proof.
  cbv zeta. unfold shouldInvalidate, js_and.
  rewrite <- !is_string_eq, <- orb_true_iff.
  destruct (is_string "RECEIVE_ITEMS" (prop action "type")
            || is_string "REMOVE_ITEMS" (prop action "type")); simpl.
  - destruct (truthy (prop action "invalidateCache")) eqn:F; simpl.
    + destruct (is_string kind (prop action "kind")); simpl.
      * destruct (is_string name (prop action "name")); simpl;
          split; split; intuition congruence.
      * split; split; intuition congruence.
    + rewrite F. split; split; try intuition congruence.
      intros E. rewrite E in F. discriminate.
  - split; split; intuition congruence.
Qed.

(** ** The entity resolvers *)

Section ResolverFacts.
Context {World : Type} {host : Host World} {imports : Imports}.

Lemma perform_eq {T : Type} (e : effect T) (w w1 : World) (r : outcome T) :
  handle e w = (r, w1) -> perform e w = (r, w1, [Performed e r]).
Proof. unfold perform. intros ->. reflexivity. Qed.

(** C10.  When entity-kind resolution yields no configuration for
    [(kind, name)], both [getEntityRecord] and [getEntityRecords] return at
    once: the only effect either performs is the kind resolution itself, so
    no lock is acquired, nothing is fetched, no receive-action is dispatched,
    and the world (the store's root state with it) is left as the kind
    resolution left it. *)
Theorem unknown_entity_returns_early (kind name : string) (key : value)
  (query queries : option object) (w w1 : World) (entities : list entity) :
  handle (GetKindEntities kind) w = (Returned entities, w1) ->
  find_entity entities kind name = None ->
  getEntityRecord kind name key query w
  = (Returned tt, w1, [Performed (GetKindEntities kind) (Returned entities)])
  /\ getEntityRecords kind name queries w
     = (Returned tt, w1, [Performed (GetKindEntities kind) (Returned entities)]).
Proof.
  intros Hkind Hfind.
  unfold getEntityRecord, getEntityRecords, bind.
  rewrite (perform_eq _ _ _ _ Hkind), Hfind. split; reflexivity.
Qed.

(** *** [getEntityRecord] *)

Lemma try_catch_swallows (body : M World unit) (w : World) :
  try_catch body (fun _ => ret tt) w
  = (Returned tt, snd (fst (body w)), snd (body w)).
Proof.
  unfold try_catch, ret. destruct (body w) as [[[[]|error] w1] l1]; simpl.
  - reflexivity.
  - rewrite app_nil_r. reflexivity.
Qed.

Lemma try_finally_release {T : Type} (body : M World T) (l : lock)
  (w : World) :
  try_finally body (perform (ReleaseStoreLock l)) w
  = (match fst (handle (ReleaseStoreLock l) (snd (fst (body w)))) with
     | Returned _ => fst (fst (body w))
     | Raised error => Raised error
     end,
     snd (handle (ReleaseStoreLock l) (snd (fst (body w)))),
     snd (body w)
     ++ [Performed (ReleaseStoreLock l)
           (fst (handle (ReleaseStoreLock l) (snd (fst (body w)))))]).
Proof.
  unfold try_finally, perform. destruct (body w) as [[r w1] l1]; simpl.
  destruct (handle (ReleaseStoreLock l) w1) as [[[]|error] w2]; reflexivity.
Qed.

(** Once the lock is held, [getEntityRecord] is its [try] block with every
    error swallowed, followed by the release of that lock. *)
Lemma getEntityRecord_acquired (kind name : string) (key : value)
  (query : option object) (w w1 w2 : World) (entities : list entity)
  (e : entity) (l : lock) :
  handle (GetKindEntities kind) w = (Returned entities, w1) ->
  find_entity entities kind name = Some e ->
  handle (AcquireStoreLock "core"
            [VStr "entities"; VStr "data"; VStr kind; VStr name;
             key_or_empty key] false) w1 = (Returned l, w2) ->
  let body := getEntityRecord_try kind name (key_or_empty key) e query w2 in
  let released := handle (ReleaseStoreLock l) (snd (fst body)) in
  getEntityRecord kind name key query w
  = (match fst released with
     | Returned _ => Returned tt
     | Raised error => Raised error
     end,
     snd released,
     Performed (GetKindEntities kind) (Returned entities)
     :: Performed (AcquireStoreLock "core"
                     [VStr "entities"; VStr "data"; VStr kind; VStr name;
                      key_or_empty key] false) (Returned l)
     :: snd body ++ [Performed (ReleaseStoreLock l) (fst released)]).
Proof.
  intros Hkind Hfind Hlock. cbv zeta.
  unfold getEntityRecord. cbv zeta. unfold bind at 1.
  rewrite (perform_eq _ _ _ _ Hkind), Hfind. unfold bind at 1.
  rewrite (perform_eq _ _ _ _ Hlock).
  rewrite try_finally_release, try_catch_swallows. reflexivity.
Qed.

Ltac answer :=
  match goal with
  | |- context [@handle ?W ?h ?T ?e ?w] =>
      destruct (@handle W h T e w) as [[?|?] ?]; simpl
  end.

Lemma fetch_and_receive_log (kind name path : string)
  (query : option object) (w : World) :
  let log := snd (fetch_and_receive kind name path query w) in
  existsb is_release log = false
  /\ existsb is_acquire log = false
  /\ existsb is_failed_fetch log && existsb is_receive log = false.
Proof.
  unfold fetch_and_receive, bind, perform. cbv zeta.
  answer; [answer|]; auto.
Qed.

Lemma check_then_fetch_log (kind name path : string) (narrowed : object)
  (w : World) :
  let log :=
    snd ((hasRecords <- perform (HasEntityRecords kind name narrowed) ;;
          if hasRecords then ret tt
          else fetch_and_receive kind name path (Some narrowed)) w) in
  existsb is_release log = false
  /\ existsb is_acquire log = false
  /\ existsb is_failed_fetch log && existsb is_receive log = false.
Proof.
  unfold bind, perform. cbv zeta. answer; [|auto].
  destruct v; simpl; [auto|].
  pose proof (fetch_and_receive_log kind name path (Some narrowed) w0) as H.
  destruct (fetch_and_receive kind name path (Some narrowed) w0)
    as [[r w1] log].
  exact H.
Qed.

(** What the [try] block of [getEntityRecord] can perform: no lock
    operation, and no receive-action once a fetch has failed. *)
Lemma getEntityRecord_try_log (kind name : string) (key : value) (e : entity)
  (query : option object) (w : World) :
  let log := snd (getEntityRecord_try kind name key e query w) in
  existsb is_release log = false
  /\ existsb is_acquire log = false
  /\ existsb is_failed_fetch log && existsb is_receive log = false.
Proof.
  unfold getEntityRecord_try. cbv zeta.
  destruct query as [q|]; [|apply fetch_and_receive_log].
  destruct (truthy (prop q "_fields")); apply check_then_fetch_log.
Qed.

(** C5.  Every invocation of [getEntityRecord] that acquires the advisory
    lock releases that very lock as its last effect, whatever the [try] block
    did; it performs no other lock operation; an error raised by the fetch or
    by the receive dispatch is swallowed, so that the invocation returns
    normally (it can raise only if the release itself raises); and after a
    failed fetch no receive-action is dispatched, which leaves the stored
    state as it was. *)
Theorem getEntityRecord_releases_lock (kind name : string) (key : value)
  (query : option object) (w w1 w2 : World) (entities : list entity)
  (e : entity) (l : lock) :
  handle (GetKindEntities kind) w = (Returned entities, w1) ->
  find_entity entities kind name = Some e ->
  handle (AcquireStoreLock "core"
            [VStr "entities"; VStr "data"; VStr kind; VStr name;
             key_or_empty key] false) w1 = (Returned l, w2) ->
  exists (middle : list event) (released : outcome unit) (w' : World),
    getEntityRecord kind name key query w
    = (match released with
       | Returned _ => Returned tt
       | Raised error => Raised error
       end,
       w',
       Performed (GetKindEntities kind) (Returned entities)
       :: Performed (AcquireStoreLock "core"
                       [VStr "entities"; VStr "data"; VStr kind; VStr name;
                        key_or_empty key] false) (Returned l)
       :: middle ++ [Performed (ReleaseStoreLock l) released])
    /\ existsb is_release middle = false
    /\ existsb is_acquire middle = false
    /\ existsb is_failed_fetch middle && existsb is_receive middle = false.
Proof.
  intros Hkind Hfind Hlock.
  eexists _, _, _. split.
  - apply (getEntityRecord_acquired _ _ _ _ _ _ _ _ _ _ Hkind Hfind Hlock).
  - apply getEntityRecord_try_log.
Qed.

(** C9.  When a query was supplied and [hasEntityRecords] reports that the
    store already holds records for the narrowed query (the query, its
    [_fields] widened by the primary key if fields were requested, plus
    [include: [ key ]]), [getEntityRecord] asks nothing else of the store
    between acquiring and releasing the lock: it issues no fetch and
    dispatches no receive-action. *)
Theorem getEntityRecord_reuses_stored_records (kind name : string)
  (key : value) (q : object) (w w1 w2 w3 : World) (entities : list entity)
  (e : entity) (l : lock) :
  let narrowed :=
    set_prop (if truthy (prop q "_fields") then with_key_field e q else q)
      "include" (VArr [key_or_empty key]) in
  handle (GetKindEntities kind) w = (Returned entities, w1) ->
  find_entity entities kind name = Some e ->
  handle (AcquireStoreLock "core"
            [VStr "entities"; VStr "data"; VStr kind; VStr name;
             key_or_empty key] false) w1 = (Returned l, w2) ->
  handle (HasEntityRecords kind name narrowed) w2 = (Returned true, w3) ->
  exists (released : outcome unit) (w' : World) (log : list event),
    getEntityRecord kind name key (Some q) w
    = (match released with
       | Returned _ => Returned tt
       | Raised error => Raised error
       end, w', log)
    /\ log
       = [Performed (GetKindEntities kind) (Returned entities);
          Performed (AcquireStoreLock "core"
                       [VStr "entities"; VStr "data"; VStr kind; VStr name;
                        key_or_empty key] false) (Returned l);
          Performed (HasEntityRecords kind name narrowed) (Returned true);
          Performed (ReleaseStoreLock l) released]
    /\ existsb is_fetch log = false
    /\ existsb is_receive log = false.
Proof.
  cbv zeta. intros Hkind Hfind Hlock Hhas.
  rewrite (getEntityRecord_acquired _ _ _ _ _ _ _ _ _ _ Hkind Hfind Hlock).
  assert (Hbody :
    getEntityRecord_try kind name (key_or_empty key) e (Some q) w2
    = (Returned tt, w3,
       [Performed
          (HasEntityRecords kind name
             (set_prop
                (if truthy (prop q "_fields") then with_key_field e q else q)
                "include" (VArr [key_or_empty key])))
          (Returned true)])).
  { unfold getEntityRecord_try, bind. cbv zeta.
    destruct (truthy (prop q "_fields"));
      rewrite (perform_eq _ _ _ _ Hhas); reflexivity. }
  rewrite Hbody. simpl.
  eexists _, _, _. split; [reflexivity|]. split; [reflexivity|].
  split; reflexivity.
Qed.

(** *** [canUser] *)






(** *** [getEntityRecords] *)

(** A seeding loop that returns normally has dispatched, for every record in
    turn, the actions of [seeded_actions], each dispatch returning. *)
Lemma seeding_loop_returned (kind name key : string) (records : list value) :
  forall (w w' : World) (log : list event),
    for_of records (seed_resolution kind name key) w = (Returned tt, w', log) ->
    log = map dispatch_returned (flat_map (seeded_actions kind name key) records).
Proof.
  induction records as [|record records IH]; intros w w' log H.
  - unfold for_of, ret in H. injection H as _ <-. reflexivity.
  - cbn [for_of flat_map] in H |- *. rewrite map_app.
    unfold bind at 1 in H.
    destruct (seed_resolution kind name key record w) as [[[[]|error] w1] l1]
      eqn:Hseed; [|discriminate].
    destruct (for_of records (seed_resolution kind name key) w1)
      as [[r w2] l2] eqn:Hrest.
    injection H as -> _ <-.
    rewrite (IH _ _ _ Hrest). f_equal.
    unfold seed_resolution, seeded_actions, bind, lift in *.
    destruct (read_prop record key) as [id|error]; [|discriminate].
    destruct (truthy id).
    + unfold perform in Hseed.
      destruct (handle (Dispatch (startResolution "getEntityRecord"
                                    [VStr kind; VStr name; id])) w)
        as [[[]|error] w3]; [|discriminate].
      destruct (handle (Dispatch (finishResolution "getEntityRecord"
                                    [VStr kind; VStr name; id])) w3)
        as [[[]|error] w4]; [|discriminate].
      injection Hseed as _ <-. reflexivity.
    + unfold ret in Hseed. injection Hseed as _ <-. reflexivity.
Qed.

(** The [try] block of a collection fetch without field restriction, when it
    returns normally: one fetch, one receive-action carrying the fetched
    records, then the seeding dispatches. *)
Lemma getEntityRecords_try_returned (kind name : string) (e : entity)
  (q : object) (w w' : World) (log : list event) :
  truthy (prop q "_fields") = false ->
  getEntityRecords_try kind name e q w = (Returned tt, w', log) ->
  exists (body : value) (records : list value),
    object_values body = Returned records
    /\ log
       = Performed
           (ApiFetch
              [("path",
                VStr (addQueryArgs (entity_baseURL e) (edit_context (Some q))))])
           (Returned body)
         :: Performed (ReceiveEntityRecords kind name (VArr records) (Some q))
              (Returned tt)
         :: map dispatch_returned
              (flat_map (seeded_actions kind name (primary_key e)) records).
Proof.
  intros Hfields H. unfold getEntityRecords_try in H. cbv zeta in H.
  rewrite Hfields in H. cbv iota in H. rewrite Hfields in H.
  cbn [negb] in H. cbv iota in H.
  unfold bind at 1 in H. unfold perform at 1 in H.
  destruct (handle (ApiFetch _) w) as [[body|error] w1]; [|discriminate].
  unfold bind at 1 in H. unfold lift at 1 in H.
  destruct (object_values body) as [records|error] eqn:Hvalues; [|discriminate].
  unfold bind at 1 in H. unfold ret at 1 in H.
  unfold bind at 1 in H. unfold perform at 1 in H.
  destruct (handle (ReceiveEntityRecords _ _ _ _) w1) as [[[]|error] w2];
    [|discriminate].
  destruct (for_of records (seed_resolution kind name (primary_key e)) w2)
    as [[r w3] l3] eqn:Hloop.
  injection H as -> _ <-.
  exists body, records. split; [exact Hvalues|].
  rewrite (seeding_loop_returned _ _ _ _ _ _ _ Hloop). reflexivity.
Qed.

(** A run of [getEntityRecords] for a known entity, without field
    restriction, that returns normally. *)
Lemma getEntityRecords_returned (kind name : string) (query : option object)
  (w w1 w' : World) (entities : list entity) (e : entity) (log : list event) :
  handle (GetKindEntities kind) w = (Returned entities, w1) ->
  find_entity entities kind name = Some e ->
  truthy (prop (query_or_empty query) "_fields") = false ->
  getEntityRecords kind name query w = (Returned tt, w', log) ->
  exists (l : lock) (body : value) (records : list value),
    object_values body = Returned records
    /\ log
       = Performed (GetKindEntities kind) (Returned entities)
         :: Performed (AcquireStoreLock "core"
                         [VStr "entities"; VStr "data"; VStr kind; VStr name]
                         false) (Returned l)
         :: Performed
              (ApiFetch
                 [("path",
                   VStr (addQueryArgs (entity_baseURL e)
                           (edit_context (Some (query_or_empty query)))))])
              (Returned body)
         :: Performed (ReceiveEntityRecords kind name (VArr records)
                         (Some (query_or_empty query))) (Returned tt)
         :: map dispatch_returned
              (flat_map (seeded_actions kind name (primary_key e)) records)
         ++ [Performed (ReleaseStoreLock l) (Returned tt)].
Proof.
  intros Hkind Hfind Hfields H.
  unfold getEntityRecords in H. cbv zeta in H. unfold bind at 1 in H.
  rewrite (perform_eq _ _ _ _ Hkind), Hfind in H. unfold bind at 1 in H.
  unfold perform at 1 in H.
  destruct (handle (AcquireStoreLock _ _ _) w1) as [[l|error] w2];
    [|discriminate].
  rewrite try_finally_release in H.
  destruct (getEntityRecords_try kind name e (query_or_empty query) w2)
    as [[r w3] l3] eqn:Htry.
  cbn [fst snd] in H.
  destruct (handle (ReleaseStoreLock l) w3) as [[[]|error] w4];
    cbn [fst snd] in H; [|discriminate].
  injection H as -> _ <-.
  destruct (getEntityRecords_try_returned _ _ _ _ _ _ _ Hfields Htry)
    as [body [records [Hvalues ->]]].
  exists l, body, records. split; [exact Hvalues|reflexivity].
Qed.

(** *** Further properties of the resolvers *)

(** X1.  [canUser] rejects an action at once, raising "is not a valid
    action" before any request is made, exactly when [methods[ action ]] is
    [undefined]: when the action is none of create, read, update and delete
    and is no name the literal inherits from [Object.prototype] either.
    Under an inherited name, such as ['constructor'], the lookup finds the
    inherited member, nothing is raised, and the preflight request is the
    first effect of the run. *)
Theorem canUser_rejects_unknown_action (action resource : string)
  (id : option string) (w : World) :
  (canUser action resource id w
   = (Raised (Error ("'" ++ action ++ "' is not a valid action.")%string),
      w, [])
   <-> methods action = None /\ inherited action = false)
  /\ (inherited action = true ->
      exists (r : outcome Response) (rest : list event),
        snd (canUser action resource id w)
        = Performed (ApiFetchUnparsed (canUser_request resource id)) r :: rest).
Proof.
  assert (Hrequest : forall method : looked_up,
    method_of action = Some method ->
    exists (r : outcome Response) (rest : list event),
      snd (canUser action resource id w)
      = Performed (ApiFetchUnparsed (canUser_request resource id)) r :: rest).
  { intros method Hmethod. unfold canUser. rewrite Hmethod.
    unfold bind at 1. unfold try_catch, bind at 1, perform at 1.
    destruct (handle (ApiFetchUnparsed (canUser_request resource id)) w)
      as [[response|error] w1].
    - exists (Returned response). unfold ret, bind, lift, perform.
      cbn [app snd].
      destruct (allow_header response) as [allow|error];
        [|eexists; reflexivity].
      destruct (handle _ w1) as [r w2]. eexists. reflexivity.
    - exists (Raised error). unfold ret. cbn. exists []. reflexivity. }
  split; [split|].
  - intros Hraised. unfold method_of in Hrequest.
    destruct (methods action) as [verb|].
    + destruct (Hrequest _ eq_refl) as [r [rest Hlog]].
      rewrite Hraised in Hlog. discriminate.
    + destruct (inherited action); [|split; reflexivity].
      destruct (Hrequest _ eq_refl) as [r [rest Hlog]].
      rewrite Hraised in Hlog. discriminate.
  - intros [Hnone Hown]. unfold canUser, method_of.
    rewrite Hnone, Hown. reflexivity.
  - intros Hinherited. unfold method_of in Hrequest.
    destruct (methods action) as [verb|]; [apply (Hrequest _ eq_refl)|].
    rewrite Hinherited in Hrequest. apply (Hrequest _ eq_refl).
Qed.

(** X2.  When the preflight request of [canUser] fails, the error is
    swallowed and no permission is recorded, so that a permission determined
    earlier remains in the store. *)
Theorem canUser_failed_preflight_records_nothing (action resource : string)
  (id : option string) (method : string) (error : value) (w w1 : World) :
  methods action = Some method ->
  handle (ApiFetchUnparsed (canUser_request resource id)) w
  = (Raised error, w1) ->
  canUser action resource id w
  = (Returned tt, w1,
     [Performed (ApiFetchUnparsed (canUser_request resource id))
        (Raised error)]).
Proof.
  intros Hmethod Hfetch. unfold canUser, method_of. rewrite Hmethod.
  unfold bind, try_catch, ret. rewrite (perform_eq _ _ _ _ Hfetch).
  reflexivity.
Qed.

Lemma existsb_eqb_In (x : string) (xs : list string) :
  existsb (String.eqb x) xs = true <-> In x xs.
Proof.
  rewrite existsb_exists. split.
  - intros [y [Hin E]]. apply String.eqb_eq in E. subst y. exact Hin.
  - intros Hin. exists x. split; [exact Hin|apply String.eqb_refl].
Qed.

Lemma existsb_eqb_not_In (x : string) (xs : list string) :
  existsb (String.eqb x) xs = false <-> ~ In x xs.
Proof.
  rewrite <- existsb_eqb_In. destruct (existsb (String.eqb x) xs);
    split; congruence.
Qed.

(** [uniq] keeps exactly the elements not seen before. *)
Lemma uniq_from_In (x : string) (xs seen : list string) :
  In x (uniq_from seen xs) <-> In x xs /\ ~ In x seen.
Proof.
  revert seen. induction xs as [|y xs IH]; intros seen; cbn [uniq_from].
  - split; [contradiction|intros [[] _]].
  - destruct (existsb (String.eqb y) seen) eqn:Hy.
    + apply existsb_eqb_In in Hy. rewrite IH. split.
      * intros [Hin Hseen]. split; [right; exact Hin|exact Hseen].
      * intros [[->|Hin] Hseen]; [contradiction|]. split; assumption.
    + apply existsb_eqb_not_In in Hy. cbn [In]. rewrite IH. cbn [In]. split.
      * intros [->|[Hin Hseen]]; [split; [left; reflexivity|exact Hy]|].
        split; [right; exact Hin|]. intros H. apply Hseen. right. exact H.
      * intros [[->|Hin] Hseen]; [left; reflexivity|].
        destruct (string_dec y x) as [->|N]; [left; reflexivity|].
        right. split; [exact Hin|]. intros [E|H]; [contradiction|auto].
Qed.

Lemma uniq_from_NoDup (xs seen : list string) : NoDup (uniq_from seen xs).
Proof.
  revert seen. induction xs as [|y xs IH]; intros seen; cbn [uniq_from].
  - constructor.
  - destruct (existsb (String.eqb y) seen); [apply IH|].
    constructor; [|apply IH]. rewrite uniq_from_In. intros [_ H].
    apply H. left. reflexivity.
Qed.

(** On a list without repetition [uniq] changes nothing, so that a last
    element known already is dropped and a new one is kept in its place. *)
Lemma uniq_from_snoc (k : string) (xs seen : list string) :
  NoDup xs ->
  (forall x, In x xs -> ~ In x seen) ->
  uniq_from seen (xs ++ [k])
  = if existsb (String.eqb k) xs || existsb (String.eqb k) seen then xs
    else xs ++ [k].
Proof.
  revert seen. induction xs as [|x xs IH]; intros seen Hxs Hseen;
    cbn [app uniq_from existsb orb].
  - destruct (existsb (String.eqb k) seen); reflexivity.
  - assert (Hx : existsb (String.eqb x) seen = false)
      by (apply existsb_eqb_not_In, Hseen; left; reflexivity).
    rewrite Hx. inversion Hxs as [|x' xs' Hfresh Hrest]. subst x' xs'.
    rewrite IH.
    + cbn [existsb]. destruct (String.eqb k x); cbn [orb].
      * rewrite orb_true_r. reflexivity.
      * destruct (existsb (String.eqb k) xs || existsb (String.eqb k) seen);
          reflexivity.
    + exact Hrest.
    + intros y Hy [E|H]; [subst y; contradiction|].
      apply (Hseen y); [right; exact Hy|exact H].
Qed.

(** X3.  When specific fields are requested, the [_fields] of the query the
    resolvers send are the requested fields and the entity's primary key:
    every requested field is kept, the primary key is among them, no field
    is named twice, and nothing else is named; a request that names no
    field twice is sent in its own order, with the primary key added at the
    end unless it was requested.  No other property of the query is
    touched. *)
Theorem requested_fields_include_primary_key (e : entity) (query : object) :
  let requested :=
    match getNormalizedCommaSeparable (prop query "_fields") with
    | Some fields => fields
    | None => []
    end in
  exists fields : list string,
    prop (with_key_field e query) "_fields" = VStr (join "," fields)
    /\ NoDup fields
    /\ (forall field : string,
          In field fields <-> In field requested \/ field = primary_key e)
    /\ (NoDup requested ->
        fields = if existsb (String.eqb (primary_key e)) requested
                 then requested else requested ++ [primary_key e])
    /\ forall k : string,
         k <> "_fields" -> prop (with_key_field e query) k = prop query k.
Proof.
  cbv zeta. unfold with_key_field. eexists. split.
  { unfold prop, set_prop.
    rewrite (assoc_get_set_same String.eqb String.eqb_eq). reflexivity. }
  split; [apply uniq_from_NoDup|]. split; [|split].
  - intros field. unfold uniq. rewrite uniq_from_In, in_app_iff. cbn [In].
    split.
    + intros [[H|[H|[]]] _]; [left; exact H|right; symmetry; exact H].
    + intros [H| ->]; (split; [|intros []]); [left; exact H|].
      right. left. reflexivity.
  - intros Hrequested. unfold uniq.
    rewrite uniq_from_snoc by (auto; intros x _ []).
    cbn [existsb]. rewrite orb_false_r. reflexivity.
  - intros k N. unfold prop, set_prop.
    rewrite (assoc_get_set_other String.eqb String.eqb_eq) by congruence.
    reflexivity.
Qed.

(** X8.  [getEntityRecords] has a [finally] but no [catch]: when its fetch
    fails, nothing is received, the lock is released, and the error
    propagates to the caller of the resolver. *)
Theorem getEntityRecords_propagates_failed_fetch (kind name : string)
  (query : option object) (w w1 w2 w3 w4 : World) (entities : list entity)
  (e : entity) (l : lock) (error : value) :
  let sent :=
    if truthy (prop (query_or_empty query) "_fields")
    then with_key_field e (query_or_empty query)
    else query_or_empty query in
  let request :=
    [("path",
      VStr (addQueryArgs (entity_baseURL e) (edit_context (Some sent))))] in
  handle (GetKindEntities kind) w = (Returned entities, w1) ->
  find_entity entities kind name = Some e ->
  handle (AcquireStoreLock "core"
            [VStr "entities"; VStr "data"; VStr kind; VStr name] false) w1
  = (Returned l, w2) ->
  handle (ApiFetch request) w2 = (Raised error, w3) ->
  handle (ReleaseStoreLock l) w3 = (Returned tt, w4) ->
  getEntityRecords kind name query w
  = (Raised error, w4,
     [Performed (GetKindEntities kind) (Returned entities);
      Performed (AcquireStoreLock "core"
                   [VStr "entities"; VStr "data"; VStr kind; VStr name] false)
        (Returned l);
      Performed (ApiFetch request) (Raised error);
      Performed (ReleaseStoreLock l) (Returned tt)]).
Proof.
  cbv zeta. intros Hkind Hfind Hlock Hfetch Hrelease.
  unfold getEntityRecords. cbv zeta. unfold bind at 1.
  rewrite (perform_eq _ _ _ _ Hkind), Hfind. unfold bind at 1.
  rewrite (perform_eq _ _ _ _ Hlock), try_finally_release.
  assert (Htry :
    getEntityRecords_try kind name e (query_or_empty query) w2
    = (Raised error, w3,
       [Performed
          (ApiFetch
             [("path",
               VStr (addQueryArgs (entity_baseURL e)
                       (edit_context
                          (Some
                             (if truthy (prop (query_or_empty query) "_fields")
                              then with_key_field e (query_or_empty query)
                              else query_or_empty query)))))])
          (Raised error)])).
  { unfold getEntityRecords_try. cbv zeta. unfold bind at 1.
    rewrite (perform_eq _ _ _ _ Hfetch). reflexivity. }
  rewrite Htry. cbn [fst snd]. rewrite Hrelease. reflexivity.
Qed.

End ResolverFacts.

(** ** Resolution metadata and run-cache *)

Lemma key_of_resolution_action (type selectorName : string)
  (args : list value) :
  Metadata.key_of (resolution_action type selectorName args)
  = Some (selectorName, args).
Proof. reflexivity. Qed.

Lemma type_of_resolution_action (type selectorName : string)
  (args : list value) :
  prop (resolution_action type selectorName args) "type" = VStr type.
Proof. reflexivity. Qed.

Lemma getStatus_equiv (m : Metadata.state) (k k' : Key) :
  key_eqb k k' = true ->
  Metadata.getStatus m (fst k) (snd k) = Metadata.getStatus m (fst k') (snd k').
Proof.
  intros H. unfold Metadata.getStatus. destruct k as [n a], k' as [n' a'].
  cbn [fst snd].
  rewrite (assoc_get_equiv key_eqb key_eqb_sym key_eqb_trans m _ _ H).
  reflexivity.
Qed.

Lemma getStatus_set (m : Metadata.state) (k : Key) (s : Metadata.status)
  (selectorName : string) (args : list value) :
  Metadata.getStatus (assoc_set key_eqb m k s) selectorName args
  = if key_eqb k (selectorName, args) then s
    else Metadata.getStatus m selectorName args.
Proof.
  unfold Metadata.getStatus.
  rewrite (assoc_get_set key_eqb key_eqb_sym key_eqb_trans).
  rewrite (key_eqb_sym (selectorName, args) k).
  destruct (key_eqb k (selectorName, args)); reflexivity.
Qed.

Lemma getStatus_delete (m : Metadata.state) (k : Key)
  (selectorName : string) (args : list value) :
  Metadata.getStatus (assoc_delete key_eqb m k) selectorName args
  = if key_eqb k (selectorName, args) then Metadata.Unstarted
    else Metadata.getStatus m selectorName args.
Proof.
  unfold Metadata.getStatus.
  rewrite (assoc_get_delete key_eqb key_eqb_sym key_eqb_trans).
  rewrite (key_eqb_sym (selectorName, args) k).
  destruct (key_eqb k (selectorName, args)); reflexivity.
Qed.

(** An invalidation of the key itself is among the actions that reach its
    entry. *)
Lemma invalidates_entry (k k' : Key) (action : object) :
  Metadata.invalidates k action = false ->
  Metadata.key_of action = Some k' ->
  is_string "INVALIDATE_RESOLUTION" (prop action "type") = true ->
  key_eqb k' k = false.
Proof.
  unfold Metadata.invalidates. intros H Hkey Htype.
  rewrite Hkey, Htype in H. apply orb_false_elim in H. apply H.
Qed.


(** So does a finished entry stay finished. *)
Lemma hasFinished_reduce (m : Metadata.state) (action : object)
  (selectorName : string) (args : list value) :
  Metadata.hasFinishedResolution m selectorName args = true ->
  Metadata.invalidates (selectorName, args) action = false ->
  Metadata.hasFinishedResolution (Metadata.reduce m action) selectorName args
  = true.
Proof.
  unfold Metadata.hasFinishedResolution, Metadata.reduce, Metadata.reducer.
  intros Hfinished Hkeeps.
  destruct (Metadata.key_of action) as [k|] eqn:Hkey; [|exact Hfinished].
  destruct (is_string "START_RESOLUTION" (prop action "type")).
  { rewrite getStatus_set.
    destruct (key_eqb k (selectorName, args)) eqn:E; [|exact Hfinished].
    rewrite (getStatus_equiv m _ _ E). cbn [fst snd].
    destruct (Metadata.getStatus m selectorName args);
      congruence. }
  destruct (is_string "FINISH_RESOLUTION" (prop action "type")).
  { rewrite getStatus_set.
    destruct (key_eqb k (selectorName, args)); [reflexivity|exact Hfinished]. }
  destruct (is_string "INVALIDATE_RESOLUTION" (prop action "type")) eqn:Htype;
    [|exact Hfinished].
  rewrite getStatus_delete, (invalidates_entry _ _ _ Hkeeps Hkey Htype).
  exact Hfinished.
Qed.

Lemma hasStarted_start (m : Metadata.state) (selectorName : string)
  (args : list value) :
  Metadata.hasStartedResolution
    (Metadata.reduce m (startResolution selectorName args)) selectorName args
  = true.
Proof.
  unfold Metadata.hasStartedResolution, Metadata.reduce, Metadata.reducer,
    startResolution.
  rewrite key_of_resolution_action, type_of_resolution_action.
  cbn [is_string]. rewrite String.eqb_refl, getStatus_set, key_eqb_refl.
  cbn [fst snd].
  destruct (Metadata.getStatus m selectorName args); reflexivity.
Qed.

Lemma hasFinished_finish (m : Metadata.state) (selectorName : string)
  (args : list value) :
  Metadata.hasFinishedResolution
    (Metadata.reduce m (finishResolution selectorName args)) selectorName args
  = true.
Proof.
  unfold Metadata.hasFinishedResolution, Metadata.reduce, Metadata.reducer,
    finishResolution.
  rewrite key_of_resolution_action, type_of_resolution_action.
  cbn [is_string]. change ("FINISH_RESOLUTION" =? "START_RESOLUTION") with false.
  rewrite String.eqb_refl, getStatus_set, key_eqb_refl. reflexivity.
Qed.

Lemma hasFinished_hasStarted (m : Metadata.state) (selectorName : string)
  (args : list value) :
  Metadata.hasFinishedResolution m selectorName args = true ->
  Metadata.hasStartedResolution m selectorName args = true.
Proof.
  unfold Metadata.hasFinishedResolution, Metadata.hasStartedResolution.
  destruct (Metadata.getStatus m selectorName args); congruence.
Qed.



(** The run-cache answers alike for equivalent keys. *)
Lemma isRunning_equiv (cache : ResolversCache.t) (k k' : Key) :
  key_eqb k k' = true ->
  ResolversCache.isRunning cache (fst k) (snd k)
  = ResolversCache.isRunning cache (fst k') (snd k').
Proof.
  destruct k as [n a], k' as [n' a']. unfold key_eqb. cbn [fst snd].
  intros H. apply andb_true_iff in H. destruct H as [Hn Ha].
  apply String.eqb_eq in Hn. subst n'.
  unfold ResolversCache.isRunning, EquivalentKeyMap.get.
  destruct (assoc_get String.eqb cache n) as [m|]; [|reflexivity].
  rewrite (assoc_get_equiv args_eqb args_eqb_sym args_eqb_trans m _ _ Ha).
  reflexivity.
Qed.

Lemma isRunning_mark (cache : ResolversCache.t) (selectorName name' : string)
  (args args' : list value) :
  ResolversCache.isRunning
    (ResolversCache.markAsRunning cache selectorName args) name' args'
  = key_eqb (name', args') (selectorName, args)
    || ResolversCache.isRunning cache name' args'.
Proof.
  unfold ResolversCache.isRunning, ResolversCache.markAsRunning, key_eqb.
  cbn [fst snd].
  destruct (String.eqb_spec name' selectorName) as [->|N].
  - rewrite (assoc_get_set_same String.eqb String.eqb_eq).
    unfold EquivalentKeyMap.get, EquivalentKeyMap.set.
    rewrite (assoc_get_set args_eqb args_eqb_sym args_eqb_trans).
    cbn [andb]. destruct (args_eqb args' args); [reflexivity|].
    destruct (assoc_get String.eqb cache selectorName); reflexivity.
  - rewrite (assoc_get_set_other String.eqb String.eqb_eq) by congruence.
    reflexivity.
Qed.

Lemma isRunning_clear (cache : ResolversCache.t) (selectorName name' : string)
  (args args' : list value) :
  ResolversCache.isRunning
    (ResolversCache.clear cache selectorName args) name' args'
  = negb (key_eqb (name', args') (selectorName, args))
    && ResolversCache.isRunning cache name' args'.
Proof.
  unfold ResolversCache.isRunning, ResolversCache.clear, key_eqb.
  cbn [fst snd].
  destruct (String.eqb_spec name' selectorName) as [->|N].
  - destruct (assoc_get String.eqb cache selectorName) as [m|] eqn:Hm.
    + rewrite (assoc_get_set_same String.eqb String.eqb_eq).
      unfold EquivalentKeyMap.get, EquivalentKeyMap.delete.
      rewrite (assoc_get_delete args_eqb args_eqb_sym args_eqb_trans).
      cbn [andb]. destruct (args_eqb args' args); reflexivity.
    + rewrite Hm. rewrite andb_false_r. reflexivity.
  - cbn [andb negb].
    destruct (assoc_get String.eqb cache selectorName) as [m|] eqn:Hm;
      [|reflexivity].
    rewrite (assoc_get_set_other String.eqb String.eqb_eq) by congruence.
    reflexivity.
Qed.

Lemma isRunning_mark_same (cache : ResolversCache.t) (selectorName : string)
  (args : list value) :
  ResolversCache.isRunning
    (ResolversCache.markAsRunning cache selectorName args) selectorName args
  = true.
Proof. rewrite isRunning_mark, key_eqb_refl. reflexivity. Qed.

Lemma isRunning_mark_other (cache : ResolversCache.t)
  (selectorName selectorName' : string) (args args' : list value) :
  key_eqb (selectorName, args) (selectorName', args') = false ->
  ResolversCache.isRunning
    (ResolversCache.markAsRunning cache selectorName' args') selectorName args
  = ResolversCache.isRunning cache selectorName args.
Proof. intros N. rewrite isRunning_mark, N. reflexivity. Qed.

Lemma isRunning_clear_same (cache : ResolversCache.t) (selectorName : string)
  (args : list value) :
  ResolversCache.isRunning (ResolversCache.clear cache selectorName args)
    selectorName args
  = false.
Proof. rewrite isRunning_clear, key_eqb_refl. reflexivity. Qed.

Lemma isRunning_clear_other (cache : ResolversCache.t)
  (selectorName selectorName' : string) (args args' : list value) :
  key_eqb (selectorName, args) (selectorName', args') = false ->
  ResolversCache.isRunning
    (ResolversCache.clear cache selectorName' args') selectorName args
  = ResolversCache.isRunning cache selectorName args.
Proof. intros N. rewrite isRunning_clear, N. reflexivity. Qed.

(** ** The store and the facade's [subscribe] *)

Section InstanceFacts.
Context {options : StoreOptions}.

Lemma metadata_dispatch (action : object) (s : Store) :
  metadata (dispatch action s) = Metadata.reduce (metadata s) action.
Proof.
  unfold dispatch, combineReducers, Metadata.reduce.
  destruct (Metadata.reducer (metadata s) action), (reducer (root s) action);
    reflexivity.
Qed.

Lemma notify_synced (state : nat) (sub : Subscription) :
  active (notify state sub) = true -> lastState (notify state sub) = state.
Proof.
  unfold notify. destruct (active sub) eqn:A; simpl; congruence.
Qed.

Lemma synced_dispatch (action : object) (s : Store) :
  synced s -> synced (dispatch action s).
Proof.
  intros [Hfresh _]. unfold synced, dispatch.
  destruct (combineReducers (metadata s) (root s) action) as [[m r]|];
    cbn [stateId nextId subscriptions]; (split; [lia|]);
    apply Forall_map, Forall_forall; intros sub _; apply notify_synced.
Qed.

Lemma synced_subscribe (s : Store) : synced s -> synced (subscribe s).
Proof.
  intros [Hfresh Hsubs]. split; cbn [stateId nextId subscriptions subscribe].
  - exact Hfresh.
  - apply Forall_app. split; [exact Hsubs|].
    constructor; [reflexivity|constructor].
Qed.

Lemma deactivate_synced (state n : nat) (subs : list Subscription) :
  Forall (fun sub => active sub = true -> lastState sub = state) subs ->
  Forall (fun sub => active sub = true -> lastState sub = state)
    (deactivate n subs).
Proof.
  intros H. revert n. induction H as [|sub subs Hsub Hsubs IH]; intros [|n];
    cbn [deactivate]; constructor; auto.
  cbn [active]. discriminate.
Qed.

Lemma synced_unsubscribe (n : nat) (s : Store) :
  synced s -> synced (unsubscribe n s).
Proof.
  intros [Hfresh Hsubs]. split; cbn [stateId nextId subscriptions unsubscribe].
  - exact Hfresh.
  - apply deactivate_synced, Hsubs.
Qed.

Lemma store_fulfillSelector (selectorName : string) (args : list value)
  (i : Instance) :
  store (fulfillSelector selectorName args i) = store i.
Proof.
  unfold fulfillSelector.
  destruct (resolvers selectorName) as [resolver|]; [|reflexivity].
  destruct (inherited selectorName); [reflexivity|].
  destruct (_ || _); [reflexivity|].
  destruct (Metadata.hasStartedResolution _ _ _); reflexivity.
Qed.

Lemma synced_step (i : Instance) (o : occurrence) :
  synced (store i) -> synced (store (step i o)).
Proof.
  intros H. destruct o as [n a| |action|n a ok| |k]; cbn [step].
  - unfold callSelector. cbn [fst]. rewrite store_fulfillSelector. exact H.
  - unfold runTimeout. destruct (timeouts i) as [|[n a] rest]; [exact H|].
    cbn [store]. apply synced_dispatch, H.
  - cbn [with_store store]. apply synced_dispatch, H.
  - unfold settle. destruct (existsb _ _); [|exact H].
    cbn [store]. destruct ok; [apply synced_dispatch|]; exact H.
  - cbn [with_store store]. apply synced_subscribe, H.
  - cbn [with_store store]. apply synced_unsubscribe, H.
Qed.

Lemma synced_run (os : list occurrence) (i : Instance) :
  synced (store i) -> synced (store (run i os)).
Proof.
  revert i. induction os as [|o os IH]; intros i H; cbn [run fold_left].
  - exact H.
  - apply IH, synced_step, H.
Qed.

Lemma synced_initial : synced (store initial).
Proof. split; cbn; [lia|constructor]. Qed.

(** C4.  At every state a store instance can reach, a dispatch calls each
    listener registered through the facade's [subscribe] (and still
    subscribed) exactly once if the combined state object after the dispatch
    is another object than the one before it, and not at all if it is the
    same object; only identities are compared. *)
Theorem subscribe_fires_on_change (os : list occurrence) (action : object) :
  let before := store (run initial os) in
  let after := dispatch action before in
  Forall2
    (fun sub sub' =>
       calls sub'
       = calls sub
         + (if active sub && negb (Nat.eqb (stateId after) (stateId before))
            then 1 else 0))
    (subscriptions before) (subscriptions after).
Proof.
  cbv zeta. destruct (synced_run os initial synced_initial) as [Hfresh Hsubs].
  set (s := store (run initial os)) in *.
  assert (Hnotify : forall state,
    Forall2
      (fun sub sub' =>
         calls sub'
         = calls sub + (if active sub && negb (Nat.eqb state (stateId s))
                        then 1 else 0))
      (subscriptions s) (map (notify state) (subscriptions s))).
  { intros state. induction Hsubs as [|sub subs Hsub _ IH]; cbn [map];
      constructor; [|exact IH].
    unfold notify. destruct (active sub) eqn:A; cbn [calls andb].
    - rewrite (Hsub eq_refl).
      destruct (Nat.eqb state (stateId s)); cbn [negb]; lia.
    - lia. }
  unfold dispatch.
  destruct (combineReducers (metadata s) (root s) action) as [[m r]|];
    cbn [stateId subscriptions]; apply Hnotify.
Qed.

(** ** The resolver binder *)

Lemma times_cons (k k' : Key) (ks : list Key) :
  times k (k' :: ks) = (if key_eqb k k' then 1 else 0) + times k ks.
Proof. unfold times. cbn [filter]. destruct (key_eqb k k'); reflexivity. Qed.

Lemma times_snoc (k k' : Key) (ks : list Key) :
  times k (ks ++ [k']) = times k ks + (if key_eqb k k' then 1 else 0).
Proof.
  unfold times. rewrite filter_app, length_app. cbn [filter].
  destruct (key_eqb k k'); reflexivity.
Qed.

(** Equivalent keys are counted alike. *)
Lemma times_equiv (k k' : Key) (ks : list Key) :
  key_eqb k k' = true -> times k ks = times k' ks.
Proof.
  intros H. induction ks as [|k0 ks IH]; [reflexivity|].
  rewrite !times_cons, IH, (key_eqb_left _ _ k0 H). reflexivity.
Qed.


(** A call is skipped when the run-cache marks the key, when the resolver
    reports the data fulfilled, or when resolution has started. *)
Lemma fulfillSelector_skips (selectorName : string) (args : list value)
  (i : Instance) :
  ResolversCache.isRunning (resolversCache i) selectorName args = true
  \/ (exists resolver f,
        resolvers selectorName = Some resolver
        /\ isFulfilled resolver = Some f
        /\ f (root (store i)) args = true)
  \/ Metadata.hasStartedResolution (metadata (store i)) selectorName args
     = true ->
  fulfillSelector selectorName args i = i.
Proof.
  unfold fulfillSelector. intros H.
  destruct (resolvers selectorName) as [resolver|]; [|reflexivity].
  destruct (inherited selectorName); [reflexivity|].
  destruct H as [->|[[resolver' [f [E [Hf Hdone]]]]| ->]].
  - reflexivity.
  - injection E as <-. rewrite Hf, Hdone, orb_true_r. reflexivity.
  - destruct (_ || _); reflexivity.
Qed.








(** C2 (as amended).  When the timer callback of a scheduled resolver run
    fires, START_RESOLUTION is dispatched for its key and the run waits for
    the resolver's [fulfill]; if that effect succeeds, FINISH_RESOLUTION is
    dispatched for the key and the entry is Finished; if it raises, the
    callback ends without any dispatch and the store stays as the raise
    found it. *)
Theorem finish_follows_fulfilled_effect (selectorName : string)
  (args : list value) (rest : list Key) (i : Instance) :
  timeouts i = (selectorName, args) :: rest ->
  let started := runTimeout i in
  store started = dispatch (startResolution selectorName args) (store i)
  /\ Metadata.hasStartedResolution (metadata (store started)) selectorName args
     = true
  /\ store (settle selectorName args true started)
     = dispatch (finishResolution selectorName args) (store started)
  /\ Metadata.hasFinishedResolution
       (metadata (store (settle selectorName args true started)))
       selectorName args = true
  /\ store (settle selectorName args false started) = store started.
Proof.
  intros Htimeouts. cbv zeta.
  assert (Hawaiting :
    existsb (key_eqb (selectorName, args)) (awaiting (runTimeout i)) = true).
  { unfold runTimeout. rewrite Htimeouts. cbn [awaiting].
    rewrite existsb_app. cbn [existsb]. rewrite key_eqb_refl.
    apply orb_true_iff. right. reflexivity. }
  assert (Hstore :
    store (runTimeout i) = dispatch (startResolution selectorName args) (store i)).
  { unfold runTimeout. rewrite Htimeouts. reflexivity. }
  unfold settle. rewrite Hawaiting. cbn [store].
  repeat split.
  - exact Hstore.
  - rewrite Hstore, metadata_dispatch. apply hasStarted_start.
  - rewrite metadata_dispatch. apply hasFinished_finish.
Qed.

(** *** An entry left Started stays Started

    Once the run of a key has ended without FINISH_RESOLUTION, nothing the
    binder does by itself changes the entry: further calls are skipped,
    and timer callbacks and settling runs concern other keys. *)

Lemma times_zero_existsb (k : Key) (ks : list Key) :
  times k ks = 0 -> existsb (key_eqb k) ks = false.
Proof.
  induction ks as [|k' ks IH]; [reflexivity|].
  rewrite times_cons. cbn [existsb].
  destruct (key_eqb k k'); [discriminate|]. exact IH.
Qed.

Lemma times_remove_first (k k' : Key) (ks : list Key) :
  times k ks = 0 -> times k (remove_first k' ks) = 0.
Proof.
  induction ks as [|k0 ks IH]; [reflexivity|].
  rewrite times_cons. cbn [remove_first]. intros H.
  destruct (key_eqb k' k0); [lia|].
  rewrite times_cons. destruct (key_eqb k k0); [discriminate|].
  apply IH. exact H.
Qed.

Lemma getStatus_reduce_other (m : Metadata.state) (type : string)
  (name' : string) (args' : list value) (selectorName : string)
  (args : list value) :
  key_eqb (name', args') (selectorName, args) = false ->
  Metadata.getStatus
    (Metadata.reduce m (resolution_action type name' args')) selectorName args
  = Metadata.getStatus m selectorName args.
Proof.
  intros N.
  unfold Metadata.reduce, Metadata.reducer.
  rewrite key_of_resolution_action.
  destruct (is_string "START_RESOLUTION" _);
    [rewrite getStatus_set, N; reflexivity|].
  destruct (is_string "FINISH_RESOLUTION" _);
    [rewrite getStatus_set, N; reflexivity|].
  destruct (is_string "INVALIDATE_RESOLUTION" _);
    [rewrite getStatus_delete, N; reflexivity|reflexivity].
Qed.

Lemma left_started_step (selectorName : string) (args : list value)
  (i : Instance) (o : occurrence) :
  is_internal o = true ->
  left_started selectorName args i ->
  left_started selectorName args (step i o).
Proof.
  intros Hinternal [Hstatus [Htimeouts Hawaiting]].
  destruct o as [n a| |action|n a ok| |k]; cbn [step]; try discriminate.
  - unfold callSelector, fulfillSelector. cbn [fst].
    destruct (resolvers n) as [resolver|]; [|repeat split; assumption].
    destruct (inherited n); [repeat split; assumption|].
    destruct (_ || _); [repeat split; assumption|].
    destruct (Metadata.hasStartedResolution _ n a) eqn:Hstarted;
      [repeat split; assumption|].
    unfold left_started. cbn [store timeouts awaiting].
    rewrite times_snoc, Htimeouts.
    destruct (key_eqb (selectorName, args) (n, a)) eqn:E.
    + unfold Metadata.hasStartedResolution in Hstarted.
      rewrite <- (getStatus_equiv _ (selectorName, args) (n, a) E) in Hstarted.
      cbn [fst snd] in Hstarted. rewrite Hstatus in Hstarted. discriminate.
    + repeat split; assumption.
  - unfold runTimeout.
    destruct (timeouts i) as [|[n a] rest] eqn:Hqueue;
      [unfold left_started; rewrite Hqueue; repeat split; assumption|].
    rewrite times_cons in Htimeouts.
    destruct (key_eqb (selectorName, args) (n, a)) eqn:E; [discriminate|].
    unfold left_started. cbn [store timeouts awaiting].
    rewrite metadata_dispatch, times_snoc.
    unfold startResolution.
    rewrite getStatus_reduce_other by (rewrite key_eqb_sym; exact E).
    rewrite E. repeat split; auto; lia.
  - unfold settle.
    destruct (existsb (key_eqb (n, a)) (awaiting i)) eqn:Hthere;
      [|repeat split; assumption].
    assert (N : key_eqb (n, a) (selectorName, args) = false).
    { destruct (key_eqb (n, a) (selectorName, args)) eqn:E; [|reflexivity].
      rewrite <- (times_equiv _ _ _ E) in Hawaiting.
      rewrite (times_zero_existsb _ _ Hawaiting) in Hthere. discriminate. }
    unfold left_started. cbn [store timeouts awaiting].
    repeat split.
    + destruct ok; [|exact Hstatus].
      rewrite metadata_dispatch. unfold finishResolution.
      rewrite getStatus_reduce_other by exact N. exact Hstatus.
    + exact Htimeouts.
    + apply times_remove_first, Hawaiting.
  - repeat split; assumption.
  - repeat split; assumption.
Qed.

Lemma left_started_run (selectorName : string) (args : list value)
  (os : list occurrence) (i : Instance) :
  forallb is_internal os = true ->
  left_started selectorName args i ->
  left_started selectorName args (run i os).
Proof.
  revert i. induction os as [|o os IH]; intros i Hos H;
    cbn [run fold_left]; [exact H|].
  cbn [forallb] in Hos. apply andb_true_iff in Hos. destruct Hos as [Ho Hos].
  apply IH; [exact Hos|]. apply left_started_step; assumption.
Qed.

(** ** [resolveSelect] *)

Lemma fulfillSelector_finished (selectorName : string) (args : list value)
  (i : Instance) :
  Metadata.hasFinishedResolution (metadata (store i)) selectorName args = true ->
  fulfillSelector selectorName args i = i.
Proof.
  intros H. apply fulfillSelector_skips. right. right.
  apply hasFinished_hasStarted, H.
Qed.

(** The listener of a promise does nothing until the entry is Finished;
    then it unsubscribes and resolves with the selector's value, the
    selector call being skipped. *)
Lemma resolveSelect_listener_eq (n : nat) (p : Promise) (i : Instance) :
  resolveSelect_listener n p i
  = if Metadata.hasFinishedResolution (metadata (store i))
         (promise_selector p) (promise_args p)
    then
      (with_store i (unsubscribe n (store i)),
       {| promise_selector := promise_selector p;
          promise_args := promise_args p;
          listener := listener p;
          resolved :=
            resolved p
            ++ [selectors (promise_selector p) (root (store i))
                  (promise_args p)];
          unsubscribeCalls := S (unsubscribeCalls p) |})
    else (i, p).
Proof.
  unfold resolveSelect_listener.
  destruct (Metadata.hasFinishedResolution _ _ _) eqn:H; [|reflexivity].
  unfold callSelector. rewrite fulfillSelector_finished by exact H.
  reflexivity.
Qed.

Lemma nth_error_deactivate_other (n m : nat) (subs : list Subscription) :
  n <> m -> nth_error (deactivate m subs) n = nth_error subs n.
Proof.
  revert n m. induction subs as [|sub subs IH]; intros [|n] [|m] N;
    cbn [deactivate nth_error]; try reflexivity; try lia.
  apply IH. lia.
Qed.

Lemma nth_error_deactivate_same (n : nat) (subs : list Subscription)
  (sub : Subscription) :
  nth_error subs n = Some sub ->
  nth_error (deactivate n subs) n
  = Some {| lastState := lastState sub; calls := calls sub; active := false |}.
Proof.
  revert n. induction subs as [|sub0 subs IH]; intros [|n] H;
    cbn [deactivate nth_error] in *; try discriminate.
  - injection H as ->. reflexivity.
  - apply IH, H.
Qed.

Lemma length_deactivate (n : nat) (subs : list Subscription) :
  length (deactivate n subs) = length subs.
Proof.
  revert n. induction subs as [|sub subs IH]; intros [|n];
    cbn [deactivate length]; auto.
Qed.

(** What the listeners of promises leave of an instance: all of it but the
    subscriptions they cancelled. *)
Definition cancelled_only (i i' : Instance) : Prop :=
  metadata (store i') = metadata (store i)
  /\ root (store i') = root (store i)
  /\ stateId (store i') = stateId (store i)
  /\ nextId (store i') = nextId (store i)
  /\ length (subscriptions (store i')) = length (subscriptions (store i))
  /\ (synced (store i) -> synced (store i')).

Lemma cancelled_only_refl (i : Instance) : cancelled_only i i.
Proof. unfold cancelled_only. repeat (split; [reflexivity|]). auto. Qed.

Lemma cancelled_only_trans (i i' i'' : Instance) :
  cancelled_only i i' -> cancelled_only i' i'' -> cancelled_only i i''.
Proof.
  intros [Hm [Hr [Hs [Hn [Hl Hy]]]]] [Hm' [Hr' [Hs' [Hn' [Hl' Hy']]]]].
  unfold cancelled_only. repeat (split; [congruence|]). auto.
Qed.

Lemma listener_cancelled_only (n : nat) (p : Promise) (i : Instance) :
  cancelled_only i (fst (resolveSelect_listener n p i)).
Proof.
  rewrite resolveSelect_listener_eq.
  destruct (Metadata.hasFinishedResolution _ _ _); cbn [fst];
    [|apply cancelled_only_refl].
  unfold cancelled_only.
  cbn [with_store store unsubscribe subscriptions metadata root stateId
       nextId].
  repeat (split; [reflexivity|]). split; [apply length_deactivate|].
  apply (synced_unsubscribe n (store i)).
Qed.

Lemma run_listeners_cancelled_only (before after : Store) (ps : list Promise) :
  forall i : Instance,
    cancelled_only i (fst (run_listeners before after ps i)).
Proof.
  induction ps as [|p ps IH]; intros i; cbn [run_listeners fst].
  - apply cancelled_only_refl.
  - set (head := match listener p with
                 | Some n =>
                     if called before after n
                     then resolveSelect_listener n p i else (i, p)
                 | None => (i, p)
                 end).
    assert (Hhead : cancelled_only i (fst head)).
    { unfold head. destruct (listener p) as [n|]; [|apply cancelled_only_refl].
      destruct (called before after n); [|apply cancelled_only_refl].
      apply listener_cancelled_only. }
    destruct head as [i1 p1]. cbn [fst] in Hhead.
    specialize (IH i1).
    destruct (run_listeners before after ps i1) as [i2 rest]. cbn [fst] in *.
    apply (cancelled_only_trans _ _ _ Hhead IH).
Qed.

(** A listener keeps what identifies its promise. *)
Definition same_promise (q q' : Promise) : Prop :=
  promise_selector q' = promise_selector q
  /\ promise_args q' = promise_args q
  /\ listener q' = listener q.

Lemma run_listeners_same_promises (before after : Store) (ps : list Promise) :
  forall i : Instance,
    Forall2 same_promise ps (snd (run_listeners before after ps i)).
Proof.
  induction ps as [|p ps IH]; intros i; cbn [run_listeners].
  - constructor.
  - set (head := match listener p with
                 | Some n =>
                     if called before after n
                     then resolveSelect_listener n p i else (i, p)
                 | None => (i, p)
                 end).
    assert (Hhead : same_promise p (snd head)).
    { unfold head. destruct (listener p) as [n|] eqn:Hn;
        [|repeat split].
      destruct (called before after n); [|repeat split].
      rewrite resolveSelect_listener_eq.
      destruct (Metadata.hasFinishedResolution _ _ _); cbn [snd];
        repeat split. }
    destruct head as [i1 p1]. cbn [snd] in Hhead.
    specialize (IH i1).
    destruct (run_listeners before after ps i1) as [i2 rest]. cbn [snd] in *.
    constructor; assumption.
Qed.

Lemma Forall2_nth_error_l {A B : Type} (R : A -> B -> Prop) (xs : list A)
  (ys : list B) (n : nat) (x : A) :
  Forall2 R xs ys -> nth_error xs n = Some x ->
  exists y, nth_error ys n = Some y /\ R x y.
Proof.
  intros H. revert n. induction H as [|x0 y0 xs ys Hxy _ IH]; intros [|n] Hn;
    cbn [nth_error] in *; try discriminate.
  - injection Hn as ->. exists y0. split; [reflexivity|exact Hxy].
  - apply IH, Hn.
Qed.

Lemma Forall2_nth_error_r {A B : Type} (R : A -> B -> Prop) (xs : list A)
  (ys : list B) (n : nat) (y : B) :
  Forall2 R xs ys -> nth_error ys n = Some y ->
  exists x, nth_error xs n = Some x /\ R x y.
Proof.
  intros H. revert n. induction H as [|x0 y0 xs ys Hxy _ IH]; intros [|n] Hn;
    cbn [nth_error] in *; try discriminate.
  - injection Hn as ->. exists x0. split; [reflexivity|exact Hxy].
  - apply IH, Hn.
Qed.

(** No promise but the [p]-th holds the subscription [n]. *)
Definition owned_by (n p : nat) (ps : list Promise) : Prop :=
  forall (j : nat) (q : Promise),
    nth_error ps j = Some q -> listener q = Some n -> j = p.

(** Every listener of a promise is a subscription of the store. *)
Definition subscribed (ps : list Promise) (subs : list Subscription) : Prop :=
  Forall (fun q => forall m, listener q = Some m -> m < length subs) ps.

(** The listeners of promises that do not hold the subscription [m] leave
    it alone. *)
Lemma run_listeners_untouched (before after : Store) (m : nat)
  (ps : list Promise) :
  forall i : Instance,
    Forall (fun q => listener q <> Some m) ps ->
    nth_error (subscriptions (store (fst (run_listeners before after ps i)))) m
    = nth_error (subscriptions (store i)) m.
Proof.
  induction ps as [|p ps IH]; intros i Hps; cbn [run_listeners fst];
    [reflexivity|].
  inversion Hps as [|p' ps' Hp Hrest]. subst p' ps'.
  set (head := match listener p with
               | Some n =>
                   if called before after n
                   then resolveSelect_listener n p i else (i, p)
               | None => (i, p)
               end).
  assert (Hhead :
    nth_error (subscriptions (store (fst head))) m
    = nth_error (subscriptions (store i)) m).
  { unfold head. destruct (listener p) as [n|] eqn:Hn; [|reflexivity].
    destruct (called before after n); [|reflexivity].
    rewrite resolveSelect_listener_eq.
    destruct (Metadata.hasFinishedResolution _ _ _); [|reflexivity].
    cbn [fst with_store store unsubscribe subscriptions].
    apply nth_error_deactivate_other. congruence. }
  destruct head as [i1 p1]. cbn [fst] in Hhead.
  specialize (IH i1 Hrest).
  destruct (run_listeners before after ps i1) as [i2 rest]. cbn [fst] in *.
  congruence.
Qed.

Lemma owned_by_others (n p : nat) (q : Promise) (ps : list Promise) :
  owned_by n (S p) (q :: ps) -> listener q <> Some n /\ owned_by n p ps.
Proof.
  intros H. split.
  - intros Hq. specialize (H 0 q eq_refl Hq). discriminate.
  - intros j q' Hj Hq'. specialize (H (S j) q' Hj Hq'). lia.
Qed.

Lemma owned_by_rest (n : nat) (q : Promise) (ps : list Promise) :
  owned_by n 0 (q :: ps) -> Forall (fun q' => listener q' <> Some n) ps.
Proof.
  intros H. apply Forall_forall. intros q' Hin Hq'.
  apply In_nth_error in Hin. destruct Hin as [j Hj].
  specialize (H (S j) q' Hj Hq'). discriminate.
Qed.

(** The listener of the [p]-th promise runs exactly when the store called
    it, on the state the occurrence left. *)
Lemma run_listeners_own (before after : Store) (n : nat) (ps : list Promise) :
  forall (p : nat) (i : Instance) (P : Promise) (sub : Subscription),
    nth_error ps p = Some P ->
    listener P = Some n ->
    owned_by n p ps ->
    nth_error (subscriptions (store i)) n = Some sub ->
    let r := run_listeners before after ps i in
    if called before after n
       && Metadata.hasFinishedResolution (metadata (store i))
            (promise_selector P) (promise_args P)
    then
      nth_error (snd r) p
      = Some {| promise_selector := promise_selector P;
                promise_args := promise_args P;
                listener := listener P;
                resolved :=
                  resolved P
                  ++ [selectors (promise_selector P) (root (store i))
                        (promise_args P)];
                unsubscribeCalls := S (unsubscribeCalls P) |}
      /\ nth_error (subscriptions (store (fst r))) n
         = Some {| lastState := lastState sub; calls := calls sub;
                   active := false |}
    else
      nth_error (snd r) p = Some P
      /\ nth_error (subscriptions (store (fst r))) n = Some sub.
Proof.
  induction ps as [|q ps IH]; intros p i P sub HP Hn Howned Hsub;
    [destruct p; discriminate|].
  cbv zeta. cbn [run_listeners].
  destruct p as [|p]; cbn [nth_error] in HP.
  - injection HP as ->. rewrite Hn.
    pose proof (run_listeners_untouched before after n ps) as Hrest.
    pose proof (owned_by_rest _ _ _ Howned) as Hothers.
    destruct (called before after n); cbn [andb].
    + rewrite resolveSelect_listener_eq.
      destruct (Metadata.hasFinishedResolution _ _ _).
      * specialize (Hrest (with_store i (unsubscribe n (store i))) Hothers).
        destruct (run_listeners before after ps
                    (with_store i (unsubscribe n (store i)))) as [i2 rest].
        cbn [fst snd nth_error] in *. split; [rewrite Hn; reflexivity|].
        rewrite Hrest. cbn [with_store store unsubscribe subscriptions].
        apply nth_error_deactivate_same, Hsub.
      * specialize (Hrest i Hothers).
        destruct (run_listeners before after ps i) as [i2 rest].
        cbn [fst snd nth_error] in *. split; [reflexivity|]. congruence.
    + specialize (Hrest i Hothers).
      destruct (run_listeners before after ps i) as [i2 rest].
      cbn [fst snd nth_error] in *. split; [reflexivity|]. congruence.
  - destruct (owned_by_others _ _ _ _ Howned) as [Hq Howned'].
    set (head := match listener q with
                 | Some m =>
                     if called before after m
                     then resolveSelect_listener m q i else (i, q)
                 | None => (i, q)
                 end).
    assert (Hhead :
      metadata (store (fst head)) = metadata (store i)
      /\ root (store (fst head)) = root (store i)
      /\ nth_error (subscriptions (store (fst head))) n = Some sub).
    { unfold head. destruct (listener q) as [m|] eqn:Hm;
        [|repeat split; assumption].
      destruct (called before after m); [|repeat split; assumption].
      rewrite resolveSelect_listener_eq.
      destruct (Metadata.hasFinishedResolution _ _ _);
        [|repeat split; assumption].
      cbn [fst with_store store unsubscribe subscriptions metadata root].
      repeat split. rewrite nth_error_deactivate_other by congruence.
      exact Hsub. }
    destruct head as [i1 q1]. cbn [fst] in Hhead.
    destruct Hhead as [Hmeta [Hroot Hsub1]].
    specialize (IH p i1 P sub HP Hn Howned' Hsub1). cbv zeta in IH.
    rewrite Hmeta, Hroot in IH.
    destruct (run_listeners before after ps i1) as [i2 rest].
    cbn [fst snd nth_error] in *. exact IH.
Qed.

(** A promise without listener is left as it is. *)
Lemma run_listeners_no_listener (before after : Store) (ps : list Promise) :
  forall (p : nat) (i : Instance) (P : Promise),
    nth_error ps p = Some P ->
    listener P = None ->
    nth_error (snd (run_listeners before after ps i)) p = Some P.
Proof.
  induction ps as [|q ps IH]; intros p i P HP Hn; [destruct p; discriminate|].
  cbn [run_listeners]. destruct p as [|p]; cbn [nth_error] in HP.
  - injection HP as ->. rewrite Hn.
    destruct (run_listeners before after ps i) as [i2 rest]. reflexivity.
  - set (head := match listener q with
                 | Some m =>
                     if called before after m
                     then resolveSelect_listener m q i else (i, q)
                 | None => (i, q)
                 end).
    destruct head as [i1 q1]. specialize (IH p i1 P HP Hn).
    destruct (run_listeners before after ps i1) as [i2 rest].
    cbn [snd nth_error] in *. exact IH.
Qed.

(** ** What an occurrence does to one listener *)

Lemma called_same (st : Store) (n : nat) : called st st n = false.
Proof.
  unfold called. destruct (nth_error (subscriptions st) n); [|reflexivity].
  apply Nat.ltb_irrefl.
Qed.

(** A dispatch calls a subscribed listener exactly when it made a new state
    object, and only a new state object carries other metadata. *)
Lemma dispatch_calls_listener (action : object) (st : Store) (n : nat)
  (sub : Subscription) :
  synced st ->
  nth_error (subscriptions st) n = Some sub ->
  active sub = true ->
  called st (dispatch action st) n
  = negb (Nat.eqb (stateId (dispatch action st)) (stateId st))
  /\ (exists sub',
        nth_error (subscriptions (dispatch action st)) n = Some sub'
        /\ active sub' = true)
  /\ (stateId (dispatch action st) = stateId st ->
      metadata (dispatch action st) = metadata st).
Proof.
  intros [Hfresh Hsubs] Hn Hactive.
  assert (Hlast : lastState sub = stateId st).
  { rewrite Forall_forall in Hsubs. apply Hsubs; [|exact Hactive].
    apply (nth_error_In _ _ Hn). }
  unfold called, dispatch. rewrite Hn.
  destruct (combineReducers (metadata st) (root st) action) as [[m r]|];
    cbn [subscriptions stateId metadata]; rewrite nth_error_map, Hn;
    cbn [option_map]; unfold notify; rewrite Hactive, Hlast;
    cbn [calls active].
  - destruct (Nat.eqb_spec (nextId st) (stateId st)) as [E|N]; [lia|].
    cbn [negb]. split; [apply Nat.ltb_lt; lia|].
    split; [eexists; split; reflexivity|]. lia.
  - rewrite Nat.eqb_refl. cbn [negb]. split; [apply Nat.ltb_irrefl|].
    split; [eexists; split; reflexivity|]. reflexivity.
Qed.

(** A store that was handed no action calls no listener. *)
Lemma quiet_listener (st st' : Store) (n : nat) (sub : Subscription) :
  stateId st' = stateId st ->
  metadata st' = metadata st ->
  nth_error (subscriptions st) n = Some sub ->
  nth_error (subscriptions st') n = Some sub ->
  active sub = true ->
  called st st' n = negb (Nat.eqb (stateId st') (stateId st))
  /\ (exists sub',
        nth_error (subscriptions st') n = Some sub' /\ active sub' = true)
  /\ (stateId st' = stateId st -> metadata st' = metadata st).
Proof.
  intros Hid Hmeta Hn Hn' Hactive. unfold called. rewrite Hn, Hn', Hid.
  rewrite Nat.ltb_irrefl, Nat.eqb_refl. split; [reflexivity|].
  split; [exists sub; split; [reflexivity|exact Hactive]|].
  intros _. exact Hmeta.
Qed.

Lemma step_calls_listener (i : Instance) (o : occurrence) (n : nat)
  (sub : Subscription) :
  synced (store i) ->
  nth_error (subscriptions (store i)) n = Some sub ->
  active sub = true ->
  unsubscribing n o = false ->
  called (store i) (store (step i o)) n
  = negb (Nat.eqb (stateId (store (step i o))) (stateId (store i)))
  /\ (exists sub',
        nth_error (subscriptions (store (step i o))) n = Some sub'
        /\ active sub' = true)
  /\ (stateId (store (step i o)) = stateId (store i) ->
      metadata (store (step i o)) = metadata (store i)).
Proof.
  intros Hsynced Hn Hactive Hstays.
  destruct o as [name a| |action|name a ok| |m]; cbn [step].
  - unfold callSelector. cbn [fst]. rewrite store_fulfillSelector.
    apply (quiet_listener _ _ n sub); auto.
  - unfold runTimeout. destruct (timeouts i) as [|[name a] rest].
    + apply (quiet_listener _ _ n sub); auto.
    + cbn [store]. apply (dispatch_calls_listener _ _ _ sub); assumption.
  - cbn [with_store store].
    apply (dispatch_calls_listener _ _ _ sub); assumption.
  - unfold settle. destruct (existsb _ _).
    + cbn [store]. destruct ok.
      * apply (dispatch_calls_listener _ _ _ sub); assumption.
      * apply (quiet_listener _ _ n sub); auto.
    + apply (quiet_listener _ _ n sub); auto.
  - cbn [with_store store].
    apply (quiet_listener _ _ n sub); auto.
    cbn [subscribe subscriptions]. rewrite nth_error_app1; [exact Hn|].
    apply nth_error_Some. congruence.
  - cbn [with_store store].
    apply (quiet_listener _ _ n sub); auto.
    cbn [unsubscribe subscriptions]. cbn [unsubscribing] in Hstays.
    apply Nat.eqb_neq in Hstays.
    rewrite nth_error_deactivate_other by congruence. exact Hn.
Qed.

(** A listener that has unsubscribed is never called again. *)
Lemma step_leaves_unsubscribed (i : Instance) (o : occurrence) (n : nat)
  (sub : Subscription) :
  nth_error (subscriptions (store i)) n = Some sub ->
  active sub = false ->
  nth_error (subscriptions (store (step i o))) n = Some sub.
Proof.
  intros Hn Hactive.
  assert (Hdispatch : forall action,
    nth_error (subscriptions (dispatch action (store i))) n = Some sub).
  { intros action. unfold dispatch.
    destruct (combineReducers _ _ action) as [[m r]|];
      cbn [subscriptions]; rewrite nth_error_map, Hn; cbn [option_map];
      unfold notify; rewrite Hactive; reflexivity. }
  destruct o as [name a| |action|name a ok| |m]; cbn [step].
  - unfold callSelector. cbn [fst]. rewrite store_fulfillSelector. exact Hn.
  - unfold runTimeout. destruct (timeouts i) as [|[name a] rest];
      [exact Hn|]. cbn [store]. apply Hdispatch.
  - cbn [with_store store]. apply Hdispatch.
  - unfold settle. destruct (existsb _ _); [|exact Hn].
    cbn [store]. destruct ok; [apply Hdispatch|exact Hn].
  - cbn [with_store store subscribe subscriptions].
    rewrite nth_error_app1; [exact Hn|]. apply nth_error_Some. congruence.
  - cbn [with_store store unsubscribe subscriptions].
    destruct (Nat.eq_dec n m) as [<-|N].
    + rewrite (nth_error_deactivate_same _ _ _ Hn).
      destruct sub as [l c a]. cbn in *. subst a. reflexivity.
    + rewrite nth_error_deactivate_other by exact N. exact Hn.
Qed.

Lemma step_keeps_subscriptions (i : Instance) (o : occurrence) :
  length (subscriptions (store i)) <= length (subscriptions (store (step i o))).
Proof.
  assert (Hdispatch : forall action,
    length (subscriptions (dispatch action (store i)))
    = length (subscriptions (store i))).
  { intros action. unfold dispatch.
    destruct (combineReducers _ _ action) as [[m r]|];
      cbn [subscriptions]; apply length_map. }
  destruct o as [name a| |action|name a ok| |m]; cbn [step].
  - unfold callSelector. cbn [fst]. rewrite store_fulfillSelector. lia.
  - unfold runTimeout. destruct (timeouts i) as [|[name a] rest]; [lia|].
    cbn [store]. rewrite Hdispatch. lia.
  - cbn [with_store store]. rewrite Hdispatch. lia.
  - unfold settle. destruct (existsb _ _); [|lia].
    cbn [store]. destruct ok; [rewrite Hdispatch|]; lia.
  - cbn [with_store store subscribe subscriptions]. rewrite length_app. lia.
  - cbn [with_store store unsubscribe subscriptions].
    rewrite length_deactivate. lia.
Qed.

(** A settling run that succeeded gives the store a new state object, in
    which the entry of its key is Finished. *)
Lemma finish_makes_new_state (selectorName : string) (args : list value)
  (st : Store) :
  synced st ->
  stateId (dispatch (finishResolution selectorName args) st) <> stateId st
  /\ Metadata.hasFinishedResolution
       (metadata (dispatch (finishResolution selectorName args) st))
       selectorName args = true.
Proof.
  intros [Hfresh _]. split.
  - unfold dispatch, combineReducers, Metadata.reducer, finishResolution.
    rewrite key_of_resolution_action, type_of_resolution_action.
    cbn [is_string]. change ("FINISH_RESOLUTION" =? "START_RESOLUTION") with false.
    rewrite String.eqb_refl. cbn [stateId]. lia.
  - rewrite metadata_dispatch. apply hasFinished_finish.
Qed.

(** ** Sessions *)

Definition well_formed (s : Session) : Prop :=
  synced (store (instance s))
  /\ subscribed (promises s) (subscriptions (store (instance s))).

Lemma subscribed_same (ps ps' : list Promise) (subs subs' : list Subscription) :
  Forall2 same_promise ps ps' ->
  length subs <= length subs' ->
  subscribed ps subs -> subscribed ps' subs'.
Proof.
  intros Hsame Hlen Hps. unfold subscribed in *.
  induction Hsame as [|q q' ps ps' [_ [_ Hq]] _ IH]; [constructor|].
  inversion Hps as [|q0 ps0 Hbound Hrest]. subst q0 ps0.
  constructor; [|apply IH, Hrest].
  intros m Hm. rewrite Hq in Hm. specialize (Hbound m Hm). lia.
Qed.

Lemma same_promises_refl (ps : list Promise) : Forall2 same_promise ps ps.
Proof. induction ps; constructor; [repeat split|assumption]. Qed.

Lemma well_formed_step (s : Session) (h : happening) :
  well_formed s -> well_formed (session_step s h).
Proof.
  intros [Hsynced Hps]. destruct h as [o|name a]; cbn [session_step].
  - pose proof (run_listeners_cancelled_only (store (instance s))
                  (store (step (instance s) o)) (promises s)
                  (step (instance s) o)) as [_ [_ [_ [_ [Hlen Hkeeps]]]]].
    pose proof (run_listeners_same_promises (store (instance s))
                  (store (step (instance s) o)) (promises s)
                  (step (instance s) o)) as Hsame.
    destruct (run_listeners _ _ _ _) as [i2 ps]. cbn [fst snd] in *.
    split; cbn [instance promises].
    + apply Hkeeps, synced_step, Hsynced.
    + apply (subscribed_same _ _ (subscriptions (store (instance s))) _
               Hsame); [|exact Hps].
      rewrite Hlen. apply step_keeps_subscriptions.
  - unfold resolveSelect, callSelector.
    destruct (Metadata.hasFinishedResolution _ _ _);
      unfold well_formed; cbn [instance promises with_store store];
      rewrite ?store_fulfillSelector.
    + split; [exact Hsynced|]. apply Forall_app. split; [exact Hps|].
      constructor; [|constructor]. cbn [listener]. discriminate.
    + split; [apply synced_subscribe, Hsynced|].
      cbn [subscribe subscriptions]. apply Forall_app. split.
      * apply (subscribed_same _ _ (subscriptions (store (instance s))) _
                 (same_promises_refl _)); [|exact Hps].
        rewrite length_app. lia.
      * constructor; [|constructor]. cbn [listener]. intros m E.
        injection E as <-. rewrite length_app. cbn [length]. lia.
Qed.

Lemma well_formed_run (hs : list happening) (s : Session) :
  well_formed s -> well_formed (session_run s hs).
Proof.
  revert s. induction hs as [|h hs IH]; intros s H;
    cbn [session_run fold_left]; [exact H|].
  apply IH, well_formed_step, H.
Qed.

Lemma well_formed_opened : well_formed opened.
Proof. split; [apply synced_initial|constructor]. Qed.

Lemma owned_by_same (n p : nat) (ps ps' : list Promise) :
  Forall2 same_promise ps ps' -> owned_by n p ps -> owned_by n p ps'.
Proof.
  intros Hsame Howned j q' Hj Hq'.
  destruct (Forall2_nth_error_r _ _ _ _ _ Hsame Hj) as [q [Hq [_ [_ E]]]].
  apply (Howned j q Hq). congruence.
Qed.

Lemma owned_by_app (n p : nat) (ps : list Promise) (q : Promise) :
  owned_by n p ps -> listener q <> Some n -> owned_by n p (ps ++ [q]).
Proof.
  intros Howned Hq j q' Hj Hq'.
  destruct (Nat.lt_ge_cases j (length ps)) as [Hlt|Hge].
  - rewrite nth_error_app1 in Hj by exact Hlt. apply (Howned j q' Hj Hq').
  - rewrite nth_error_app2 in Hj by exact Hge.
    destruct (j - length ps) as [|k]; cbn [nth_error] in Hj.
    + injection Hj as <-. contradiction.
    + destruct k; discriminate.
Qed.

Section Resolution.
Variables (n p : nat) (selectorName : string) (args : list value).

(** The [p]-th promise waits: it holds the subscription [n], which is
    active, and the entry of its key is not Finished. *)
Definition unresolved (s : Session) : Prop :=
  synced (store (instance s))
  /\ nth_error (promises s) p
     = Some {| promise_selector := selectorName; promise_args := args;
               listener := Some n; resolved := []; unsubscribeCalls := 0 |}
  /\ (exists sub,
        nth_error (subscriptions (store (instance s))) n = Some sub
        /\ active sub = true)
  /\ Metadata.hasFinishedResolution (metadata (store (instance s)))
       selectorName args = false
  /\ owned_by n p (promises s).

(** The [p]-th promise was resolved with [v] and has unsubscribed, its
    listener having been called [c] times. *)
Definition settled (v : Result) (c : nat) (s : Session) : Prop :=
  nth_error (promises s) p
  = Some {| promise_selector := selectorName; promise_args := args;
            listener := Some n; resolved := [v]; unsubscribeCalls := 1 |}
  /\ (exists sub,
        nth_error (subscriptions (store (instance s))) n = Some sub
        /\ active sub = false /\ calls sub = c)
  /\ owned_by n p (promises s).

Lemma settled_step (v : Result) (c : nat) (s : Session) (h : happening) :
  settled v c s -> settled v c (session_step s h).
Proof.
  intros [HP [[sub [Hsub [Hactive Hcalls]]] Howned]].
  destruct h as [o|name a]; cbn [session_step].
  - pose proof (step_leaves_unsubscribed (instance s) o n sub Hsub Hactive)
      as Hsub'.
    pose proof (run_listeners_own (store (instance s))
                  (store (step (instance s) o)) n (promises s) p
                  (step (instance s) o) _ sub HP eq_refl Howned Hsub') as Hown.
    pose proof (run_listeners_same_promises (store (instance s))
                  (store (step (instance s) o)) (promises s)
                  (step (instance s) o)) as Hsame.
    cbv zeta in Hown.
    assert (Hquiet :
      called (store (instance s)) (store (step (instance s) o)) n = false).
    { unfold called. rewrite Hsub, Hsub'. apply Nat.ltb_irrefl. }
    rewrite Hquiet in Hown. cbn [andb] in Hown.
    destruct (run_listeners _ _ _ _) as [i2 ps]. cbn [fst snd] in *.
    destruct Hown as [HP' Hsub2].
    split; [exact HP'|]. split; [exists sub; auto|].
    apply (owned_by_same _ _ _ _ Hsame Howned).
  - assert (Hp : p < length (promises s))
      by (apply nth_error_Some; congruence).
    assert (Hn : n < length (subscriptions (store (instance s))))
      by (apply nth_error_Some; congruence).
    unfold resolveSelect, callSelector.
    destruct (Metadata.hasFinishedResolution _ _ _);
      unfold settled; cbn [instance promises with_store store];
      rewrite ?store_fulfillSelector;
      (split; [rewrite nth_error_app1 by exact Hp; exact HP|]).
    + split; [exists sub; auto|].
      apply owned_by_app; [exact Howned|]. cbn [listener]. discriminate.
    + split.
      * exists sub. cbn [subscribe subscriptions].
        rewrite nth_error_app1 by exact Hn. auto.
      * apply owned_by_app; [exact Howned|]. cbn [listener].
        intros E. injection E as E. lia.
Qed.

Lemma settled_run (v : Result) (c : nat) (hs : list happening) (s : Session) :
  settled v c s -> settled v c (session_run s hs).
Proof.
  revert s. induction hs as [|h hs IH]; intros s H;
    cbn [session_run fold_left]; [exact H|].
  apply IH, settled_step, H.
Qed.

(** One happening: the promise is resolved exactly when the happening gave
    the store a new state object in which the entry is Finished, and it is
    then resolved with the selector's value on that state. *)
Lemma unresolved_step (s : Session) (h : happening) :
  unresolved s ->
  unsubscribes n h = false ->
  let s' := session_step s h in
  if negb (Nat.eqb (stateId (store (instance s')))
             (stateId (store (instance s))))
     && Metadata.hasFinishedResolution (metadata (store (instance s')))
          selectorName args
  then
    exists c : nat,
      option_map calls (nth_error (subscriptions (store (instance s'))) n)
      = Some c
      /\ settled (selectors selectorName (root (store (instance s'))) args) c
           s'
  else unresolved s'.
Proof.
  intros [Hsynced [HP [[sub [Hsub Hactive]] [Hwaiting Howned]]]] Hstays.
  cbv zeta. destruct h as [o|name a]; cbn [session_step].
  - cbn [unsubscribes] in Hstays.
    assert (Hstays' : unsubscribing n o = false)
      by (destruct o; try reflexivity; exact Hstays).
    destruct (step_calls_listener (instance s) o n sub Hsynced Hsub Hactive
                Hstays') as [Hcalled [[sub' [Hsub' Hactive']] Hmeta]].
    pose proof (run_listeners_own (store (instance s))
                  (store (step (instance s) o)) n (promises s) p
                  (step (instance s) o) _ sub' HP eq_refl Howned Hsub') as Hown.
    pose proof (run_listeners_same_promises (store (instance s))
                  (store (step (instance s) o)) (promises s)
                  (step (instance s) o)) as Hsame.
    pose proof (run_listeners_cancelled_only (store (instance s))
                  (store (step (instance s) o)) (promises s)
                  (step (instance s) o))
      as [Hm [Hr [Hid [_ [_ Hkeeps]]]]].
    cbv zeta in Hown. cbn [promise_selector promise_args listener resolved
                           unsubscribeCalls app] in Hown.
    destruct (run_listeners _ _ _ _) as [i2 ps]. cbn [fst snd] in *.
    cbn [instance promises]. rewrite Hm, Hr, Hid, <- Hcalled.
    destruct (called (store (instance s)) (store (step (instance s) o)) n
              && Metadata.hasFinishedResolution
                   (metadata (store (step (instance s) o))) selectorName args)
      eqn:Hfires.
    + destruct Hown as [HP' Hsub2]. exists (calls sub').
      rewrite Hsub2. split; [reflexivity|].
      split; [exact HP'|]. split.
      * eexists. split; [exact Hsub2|]. split; reflexivity.
      * apply (owned_by_same _ _ _ _ Hsame Howned).
    + destruct Hown as [HP' Hsub2].
      split; [apply Hkeeps, synced_step, Hsynced|].
      split; [exact HP'|]. split; [exists sub'; auto|].
      split; [|apply (owned_by_same _ _ _ _ Hsame Howned)].
      cbn [instance]. rewrite Hm. apply andb_false_iff in Hfires.
      destruct Hfires as [Hquiet|Hnot]; [|exact Hnot].
      rewrite Hcalled in Hquiet. apply negb_false_iff, Nat.eqb_eq in Hquiet.
      rewrite (Hmeta Hquiet). exact Hwaiting.
  - assert (Hp : p < length (promises s))
      by (apply nth_error_Some; congruence).
    assert (Hn : n < length (subscriptions (store (instance s))))
      by (apply nth_error_Some; congruence).
    unfold resolveSelect, callSelector.
    destruct (Metadata.hasFinishedResolution _ name a).
    + cbn [instance promises]. rewrite store_fulfillSelector, Nat.eqb_refl.
      cbn [negb andb]. unfold unresolved. cbn [instance promises].
      rewrite ?store_fulfillSelector.
      split; [exact Hsynced|].
      split; [rewrite nth_error_app1 by exact Hp; exact HP|].
      split; [exists sub; auto|]. split; [exact Hwaiting|].
      apply owned_by_app; [exact Howned|]. cbn [listener]. discriminate.
    + cbn [instance promises with_store store subscribe stateId].
      rewrite store_fulfillSelector, Nat.eqb_refl.
      cbn [negb andb]. unfold unresolved.
      cbn [instance promises with_store store].
      rewrite ?store_fulfillSelector.
      split; [apply synced_subscribe, Hsynced|].
      split; [rewrite nth_error_app1 by exact Hp; exact HP|].
      cbn [subscribe subscriptions metadata].
      split; [exists sub; rewrite nth_error_app1 by exact Hn; auto|].
      split; [exact Hwaiting|].
      apply owned_by_app; [exact Howned|]. cbn [listener].
      intros E. injection E as E. lia.
Qed.

(** Over any happenings: the promise is resolved at the first one that gave
    the store a new state object with the entry Finished, and stays as that
    left it. *)
Lemma resolution_follows (hs : list happening) :
  forall s : Session,
    unresolved s ->
    forallb (fun h => negb (unsubscribes n h)) hs = true ->
    match first_finished selectorName args s hs with
    | Some s' =>
        exists c : nat,
          option_map calls (nth_error (subscriptions (store (instance s'))) n)
          = Some c
          /\ settled
               (selectors selectorName (root (store (instance s'))) args) c
               (session_run s hs)
    | None => unresolved (session_run s hs)
    end.
Proof.
  induction hs as [|h hs IH]; intros s Hs Hhs;
    cbn [first_finished session_run fold_left]; [exact Hs|].
  cbn [forallb] in Hhs. apply andb_true_iff in Hhs. destruct Hhs as [Hh Hhs].
  apply negb_true_iff in Hh.
  pose proof (unresolved_step s h Hs Hh) as Hstep. cbv zeta in Hstep.
  destruct (negb _ && _).
  - destruct Hstep as [c [Hc Hsettled]]. exists c. split; [exact Hc|].
    apply (settled_run _ _ hs _ Hsettled).
  - apply IH; assumption.
Qed.

End Resolution.

(** A promise that was resolved by its executor stays as it is. *)
Lemma resolved_at_once_run (p : nat) (P : Promise) (hs : list happening) :
  forall s : Session,
    nth_error (promises s) p = Some P ->
    listener P = None ->
    nth_error (promises (session_run s hs)) p = Some P.
Proof.
  induction hs as [|h hs IH]; intros s HP Hnone;
    cbn [session_run fold_left]; [exact HP|].
  apply IH; [|exact Hnone]. destruct h as [o|name a]; cbn [session_step].
  - pose proof (run_listeners_no_listener (store (instance s))
                  (store (step (instance s) o)) (promises s) p
                  (step (instance s) o) P HP Hnone) as H.
    destruct (run_listeners _ _ _ _) as [i2 ps]. exact H.
  - assert (Hp : p < length (promises s))
      by (apply nth_error_Some; congruence).
    unfold resolveSelect, callSelector.
    destruct (Metadata.hasFinishedResolution _ _ _); cbn [promises];
      rewrite nth_error_app1 by exact Hp; exact HP.
Qed.

(** A call that is not skipped schedules the run of its key. *)
Lemma fulfillSelector_schedules (selectorName : string) (args : list value)
  (resolver : Resolver Root) (i : Instance) :
  resolvers selectorName = Some resolver ->
  inherited selectorName = false ->
  ResolversCache.isRunning (resolversCache i) selectorName args = false ->
  match isFulfilled resolver with
  | Some f => f (root (store i)) args
  | None => false
  end = false ->
  Metadata.hasStartedResolution (metadata (store i)) selectorName args = false ->
  timeouts (fulfillSelector selectorName args i)
  = timeouts i ++ [(selectorName, args)].
Proof.
  intros Hresolver Hown Hrunning Hfulfilled Hstarted. unfold fulfillSelector.
  rewrite Hresolver, Hown, Hrunning, Hfulfilled, Hstarted. reflexivity.
Qed.

(** When the awaited run of the key of a waiting promise settles, its
    FINISH_RESOLUTION gives the store a new state object with the entry
    Finished. *)
Lemma settling_finishes (selectorName : string) (args : list value)
  (s : Session) :
  synced (store (instance s)) ->
  existsb (key_eqb (selectorName, args)) (awaiting (instance s)) = true ->
  let s' := session_step s (Occurs (Settles selectorName args true)) in
  negb (Nat.eqb (stateId (store (instance s')))
          (stateId (store (instance s))))
  && Metadata.hasFinishedResolution (metadata (store (instance s')))
       selectorName args
  = true.
Proof.
  intros Hsynced Hawaited. cbv zeta. cbn [session_step step].
  pose proof (run_listeners_cancelled_only (store (instance s))
                (store (settle selectorName args true (instance s)))
                (promises s) (settle selectorName args true (instance s)))
    as [Hm [_ [Hid _]]].
  destruct (run_listeners _ _ _ _) as [i2 ps]. cbn [fst instance] in *.
  rewrite Hm, Hid. unfold settle. rewrite Hawaited. cbn [store].
  destruct (finish_makes_new_state selectorName args _ Hsynced)
    as [Hnew Hfinished].
  rewrite Hfinished. apply Nat.eqb_neq in Hnew. rewrite Hnew. reflexivity.
Qed.

(** C3.  [resolveSelect.X( ...args )], called at any state a session can
    reach, first calls the wrapped selector, which schedules the resolver
    run of the key unless the call is skipped.  If the resolution entry is
    Finished at that moment, the promise is resolved at once with the value
    the selector returned and never subscribes.  Otherwise it subscribes,
    and whatever happens afterwards (calls, timer callbacks, dispatches,
    settling runs, other subscriptions and other promises; only the
    promise itself holds the function that cancels its subscription), the
    promise stays unresolved and subscribed as long as no happening has
    given the store a new state object in which the entry is Finished; at
    the first happening that does, its listener unsubscribes and [resolve]
    is called, with the selector's value on that state; from then on
    [resolve] and [unsubscribe] have been called exactly once and the
    listener is not called again.  In particular the promise is resolved
    when the awaited run of its key settles. *)
Theorem resolveSelect_resolves_once (selectorName : string)
  (args : list value) (before after : list happening) :
  let s0 := session_run opened before in
  let i0 := instance s0 in
  let n := length (subscriptions (store i0)) in
  let s1 := resolveSelect selectorName args s0 in
  let final := session_run s1 after in
  let promise := nth_error (promises final) (length (promises s0)) in
  let subscription := nth_error (subscriptions (store (instance final))) n in
  forallb (fun h => negb (unsubscribes n h)) after = true ->
  instance s1
  = (let triggered := fst (callSelector selectorName args i0) in
     if Metadata.hasFinishedResolution (metadata (store i0)) selectorName args
     then triggered
     else with_store triggered (subscribe (store triggered)))
  /\ (forall resolver : Resolver Root,
        resolvers selectorName = Some resolver ->
        inherited selectorName = false ->
        ResolversCache.isRunning (resolversCache i0) selectorName args
        = false ->
        match isFulfilled resolver with
        | Some f => f (root (store i0)) args
        | None => false
        end = false ->
        Metadata.hasStartedResolution (metadata (store i0)) selectorName args
        = false ->
        timeouts (instance s1) = timeouts i0 ++ [(selectorName, args)])
  /\ if Metadata.hasFinishedResolution (metadata (store i0)) selectorName args
     then
       promise
       = Some {| promise_selector := selectorName; promise_args := args;
                 listener := None;
                 resolved := [selectors selectorName (root (store i0)) args];
                 unsubscribeCalls := 0 |}
       /\ subscriptions (store (instance s1)) = subscriptions (store i0)
     else
       match first_finished selectorName args s1 after with
       | Some s' =>
           option_map resolved promise
           = Some [selectors selectorName (root (store (instance s'))) args]
           /\ option_map unsubscribeCalls promise = Some 1
           /\ option_map active subscription = Some false
           /\ option_map calls subscription
              = option_map calls
                  (nth_error (subscriptions (store (instance s'))) n)
       | None =>
           option_map resolved promise = Some []
           /\ option_map unsubscribeCalls promise = Some 0
           /\ option_map active subscription = Some true
           /\ Metadata.hasFinishedResolution
                (metadata (store (instance final))) selectorName args = false
           /\ (existsb (key_eqb (selectorName, args))
                 (awaiting (instance final)) = true ->
               let settled :=
                 session_step final
                   (Occurs (Settles selectorName args true)) in
               option_map resolved
                 (nth_error (promises settled) (length (promises s0)))
               = Some [selectors selectorName
                         (root (store (instance settled))) args]
               /\ option_map active
                    (nth_error (subscriptions (store (instance settled))) n)
                  = Some false)
       end.
Proof.
  cbv zeta. intros Hstays.
  destruct (well_formed_run before opened well_formed_opened)
    as [Hsynced Hbound].
  set (s0 := session_run opened before) in *.
  set (n := length (subscriptions (store (instance s0)))) in *.
  set (p := length (promises s0)).
  assert (Hexecutor :
    resolveSelect selectorName args s0
    = if Metadata.hasFinishedResolution (metadata (store (instance s0)))
           selectorName args
      then
        {| instance := fulfillSelector selectorName args (instance s0);
           promises :=
             promises s0
             ++ [{| promise_selector := selectorName; promise_args := args;
                    listener := None;
                    resolved :=
                      [selectors selectorName (root (store (instance s0)))
                         args];
                    unsubscribeCalls := 0 |}] |}
      else
        {| instance :=
             with_store (fulfillSelector selectorName args (instance s0))
               (subscribe (store (instance s0)));
           promises :=
             promises s0
             ++ [{| promise_selector := selectorName; promise_args := args;
                    listener := Some n; resolved := [];
                    unsubscribeCalls := 0 |}] |}).
  { unfold resolveSelect, callSelector. rewrite store_fulfillSelector.
    reflexivity. }
  rewrite Hexecutor. unfold callSelector. cbn [fst].
  rewrite store_fulfillSelector.
  split; [|split].
  - destruct (Metadata.hasFinishedResolution _ _ _); reflexivity.
  - intros resolver Hresolver Hown Hrunning Hfulfilled Hstarted.
    rewrite <- (fulfillSelector_schedules _ _ _ _ Hresolver Hown Hrunning
                  Hfulfilled Hstarted).
    destruct (Metadata.hasFinishedResolution _ _ _); reflexivity.
  - destruct (Metadata.hasFinishedResolution (metadata (store (instance s0)))
                selectorName args) eqn:Hnow.
    + cbn [instance]. rewrite store_fulfillSelector.
      split; [|reflexivity].
      apply resolved_at_once_run; [|reflexivity]. cbn [promises].
      rewrite nth_error_app2, Nat.sub_diag by (unfold p; lia). reflexivity.
    + set (s1 := {| instance :=
                      with_store
                        (fulfillSelector selectorName args (instance s0))
                        (subscribe (store (instance s0)));
                    promises :=
                      promises s0
                      ++ [{| promise_selector := selectorName;
                             promise_args := args; listener := Some n;
                             resolved := []; unsubscribeCalls := 0 |}] |})
        in *.
      assert (Hwaits : unresolved n p selectorName args s1).
      { unfold unresolved, s1. cbn [instance promises with_store store].
        split; [apply synced_subscribe, Hsynced|].
        split; [rewrite nth_error_app2, Nat.sub_diag by (unfold p; lia);
                reflexivity|].
        cbn [subscribe subscriptions metadata].
        split.
        { eexists. rewrite nth_error_app2, Nat.sub_diag by (unfold n; lia).
          split; reflexivity. }
        split; [exact Hnow|].
        intros j q Hj Hq.
        destruct (Nat.lt_ge_cases j (length (promises s0))) as [Hlt|Hge].
        - rewrite nth_error_app1 in Hj by exact Hlt.
          unfold subscribed in Hbound. rewrite Forall_forall in Hbound.
          specialize (Hbound q (nth_error_In _ _ Hj) n Hq). unfold n in Hbound.
          lia.
        - rewrite nth_error_app2 in Hj by exact Hge.
          destruct (j - length (promises s0)) as [|k] eqn:Hk;
            [unfold p; lia|].
          destruct k; discriminate. }
      pose proof (resolution_follows n p selectorName args after s1 Hwaits
                    Hstays) as Hfollows.
      destruct (first_finished selectorName args s1 after) as [s'|].
      * destruct Hfollows as [c [Hc [HP [[sub [Hsub [Hactive Hcalls]]] _]]]].
        rewrite HP, Hsub, Hc. cbn [option_map resolved unsubscribeCalls].
        rewrite Hactive, Hcalls. repeat split.
      * destruct Hfollows
          as [Hsynced' [HP [[sub [Hsub Hactive]] [Hwaiting Howned]]]].
        rewrite HP, Hsub. cbn [option_map resolved unsubscribeCalls].
        rewrite Hactive. split; [reflexivity|]. split; [reflexivity|].
        split; [reflexivity|]. split; [exact Hwaiting|].
        intros Hawaited.
        assert (Hwaits' : unresolved n p selectorName args
                            (session_run s1 after)).
        { unfold unresolved. split; [exact Hsynced'|]. split; [exact HP|].
          split; [exists sub; split; assumption|]. split; assumption. }
        pose proof (unresolved_step n p selectorName args _
                      (Occurs (Settles selectorName args true)) Hwaits'
                      eq_refl) as Hstep.
        cbv zeta in Hstep.
        rewrite (settling_finishes _ _ _ Hsynced' Hawaited) in Hstep.
        destruct Hstep as [c [Hc [HP' [[sub' [Hsub' [Hactive' _]]] _]]]].
        rewrite HP', Hsub'. cbn [option_map resolved]. rewrite Hactive'.
        split; reflexivity.
Qed.

(** *** Further properties of the binder *)

(** X4.  A call of a wrapped selector is skipped, leaving the instance as
    it is and returning the selector's current value, when the run-cache
    marks the key as running, when the resolver's [isFulfilled] answers
    true, or when the resolution entry has started. *)
Theorem skipped_call_changes_nothing (selectorName : string)
  (args : list value) (i : Instance) :
  ResolversCache.isRunning (resolversCache i) selectorName args = true
  \/ (exists resolver f,
        resolvers selectorName = Some resolver
        /\ isFulfilled resolver = Some f
        /\ f (root (store i)) args = true)
  \/ Metadata.hasStartedResolution (metadata (store i)) selectorName args
     = true ->
  callSelector selectorName args i
  = (i, selectors selectorName (root (store i)) args).
Proof.
  intros H. unfold callSelector. rewrite (fulfillSelector_skips _ _ _ H).
  reflexivity.
Qed.

(** X5.  A selector without resolver is the plain selector: a call never
    schedules anything. *)
Theorem selector_without_resolver (selectorName : string) (args : list value)
  (i : Instance) :
  resolvers selectorName = None ->
  callSelector selectorName args i
  = (i, selectors selectorName (root (store i)) args).
Proof.
  intros H. unfold callSelector, fulfillSelector. rewrite H. reflexivity.
Qed.

(** X6.  A call that is not skipped (its selector has a resolver and a
    name that the cache object does not inherit, the run-cache does not mark
    the key, the resolver does not report the data fulfilled and resolution
    has not started) marks the key in the run-cache and schedules exactly
    one timer callback; the store does not change, and the selector's
    current value is returned without waiting.  From then on the run-cache
    marks every equivalent key, whatever the order in which an argument
    object lists its properties, so that the next call with such arguments
    is skipped. *)
Theorem first_call_schedules_one_run (selectorName : string)
  (args : list value) (resolver : Resolver Root) (i : Instance) :
  resolvers selectorName = Some resolver ->
  inherited selectorName = false ->
  ResolversCache.isRunning (resolversCache i) selectorName args = false ->
  match isFulfilled resolver with
  | Some f => f (root (store i)) args
  | None => false
  end = false ->
  Metadata.hasStartedResolution (metadata (store i)) selectorName args = false ->
  let called := fst (callSelector selectorName args i) in
  timeouts called = timeouts i ++ [(selectorName, args)]
  /\ ResolversCache.isRunning (resolversCache called) selectorName args = true
  /\ store called = store i
  /\ fulfills called = fulfills i
  /\ snd (callSelector selectorName args i)
     = selectors selectorName (root (store i)) args
  /\ forall args' : list value,
       map canonical args' = map canonical args ->
       ResolversCache.isRunning (resolversCache called) selectorName args'
       = true
       /\ callSelector selectorName args' called
          = (called, selectors selectorName (root (store called)) args').
Proof.
  intros Hresolver Hown Hrunning Hfulfilled Hstarted. cbv zeta.
  assert (Hcalled :
    fst (callSelector selectorName args i)
    = {| store := store i;
         resolversCache :=
           ResolversCache.markAsRunning (resolversCache i) selectorName args;
         timeouts := timeouts i ++ [(selectorName, args)];
         awaiting := awaiting i;
         fulfills := fulfills i |}).
  { unfold callSelector, fulfillSelector. cbn [fst].
    rewrite Hresolver, Hown, Hrunning, Hfulfilled, Hstarted. reflexivity. }
  rewrite Hcalled. cbn [timeouts resolversCache store fulfills].
  assert (Hmarks : forall args' : list value,
    map canonical args' = map canonical args ->
    ResolversCache.isRunning
      (ResolversCache.markAsRunning (resolversCache i) selectorName args)
      selectorName args' = true).
  { intros args' Hsame. rewrite isRunning_mark. unfold key_eqb. cbn [fst snd].
    rewrite String.eqb_refl. cbn [andb].
    replace (args_eqb args' args) with true; [reflexivity|].
    symmetry. apply args_eqb_canonical. exact Hsame. }
  split; [reflexivity|]. split; [apply isRunning_mark_same|].
  split; [reflexivity|]. split; [reflexivity|]. split; [reflexivity|].
  intros args' Hsame. split; [apply Hmarks, Hsame|].
  unfold callSelector. f_equal. apply fulfillSelector_skips. left.
  apply Hmarks, Hsame.
Qed.

(** X7.  An entry left Started, with no run of its key scheduled or
    awaited, stays Started through every sequence of calls, timer callbacks
    and settling runs: only an action dispatched from elsewhere can move
    it. *)
Theorem started_entry_stays_started (selectorName : string)
  (args : list value) (os : list occurrence) (i : Instance) :
  forallb is_internal os = true ->
  left_started selectorName args i ->
  Metadata.getStatus (metadata (store (run i os))) selectorName args
  = Metadata.Started.
Proof.
  intros Hos H.
  destruct (left_started_run selectorName args os i Hos H) as [Hstatus _].
  exact Hstatus.
Qed.

End InstanceFacts.

(** ** Seeding the resolution of single records *)

Section Seeding.
Context {World : Type} {host : Host World} {imports : Imports}.
Context {options : StoreOptions}.

Lemma dispatched_returned (actions : list object) :
  dispatched (map dispatch_returned actions) = actions.
Proof.
  induction actions as [|a actions IH]; cbn; [reflexivity|].
  f_equal. exact IH.
Qed.

Lemma dispatched_app (log log' : list event) :
  dispatched (log ++ log') = dispatched log ++ dispatched log'.
Proof. unfold dispatched. apply flat_map_app. Qed.

Lemma metadata_run_dispatches (actions : list object) (i : Instance) :
  metadata (store (run i (map Dispatches actions)))
  = fold_left Metadata.reduce actions (metadata (store i)).
Proof.
  revert i. induction actions as [|a actions IH]; intros i;
    cbn [map run fold_left]; [reflexivity|].
  change (fold_left step (map Dispatches actions) (step i (Dispatches a)))
    with (run (step i (Dispatches a)) (map Dispatches actions)).
  rewrite IH. cbn [step with_store store]. rewrite metadata_dispatch.
  reflexivity.
Qed.

Lemma finished_through (selectorName : string) (args : list value)
  (actions : list object) (m : Metadata.state) :
  Forall (fun a => Metadata.invalidates (selectorName, args) a = false) actions ->
  Metadata.hasFinishedResolution m selectorName args = true ->
  Metadata.hasFinishedResolution (fold_left Metadata.reduce actions m)
    selectorName args = true.
Proof.
  intros H. revert m. induction H as [|a actions Ha _ IH]; intros m Hm;
    cbn [fold_left]; [exact Hm|].
  apply IH, hasFinished_reduce; assumption.
Qed.

Lemma seeded_actions_keep (k : Key) (kind name key : string)
  (records : list value) :
  Forall (fun a => Metadata.invalidates k a = false)
    (flat_map (seeded_actions kind name key) records).
Proof.
  apply Forall_flat_map, Forall_forall. intros record _.
  unfold seeded_actions. destruct (read_prop record key) as [id|];
    [|constructor].
  destruct (truthy id); repeat constructor.
Qed.

(** After the seeding dispatches, the entry of every record with a truthy
    key is Finished. *)
Lemma seeded_finished (kind name key : string) (records : list value)
  (record id : value) :
  In record records ->
  read_prop record key = Returned id ->
  truthy id = true ->
  forall m : Metadata.state,
    Metadata.hasFinishedResolution
      (fold_left Metadata.reduce
         (flat_map (seeded_actions kind name key) records) m)
      "getEntityRecord" [VStr kind; VStr name; id] = true.
Proof.
  intros Hin Hread Htruthy.
  induction records as [|r records IH]; [contradiction|]. intros m.
  cbn [flat_map]. rewrite fold_left_app. destruct Hin as [->|Hin].
  - apply finished_through; [apply seeded_actions_keep|].
    unfold seeded_actions. rewrite Hread, Htruthy. cbn [fold_left].
    apply hasFinished_finish.
  - apply IH, Hin.
Qed.

(** C6 (as amended).  A run of [getEntityRecords( kind, name, query )] for
    a known entity, without [_fields] restriction, that returns normally
    has fetched once, dispatched one receive-action with the fetched
    records, then dispatched a START_RESOLUTION / FINISH_RESOLUTION pair for
    [getEntityRecord] with args [[kind, name, record[ key ]]] for every
    fetched record whose primary-key value is truthy (and for no other),
    and finally released its lock.  Once these actions have reached a store,
    the entry of each such key is Finished, and a call of the wrapped
    [getEntityRecord] selector with those arguments schedules no resolver
    run, hence no further fetch. *)
Theorem getEntityRecords_seeds_truthy_keys (kind name : string)
  (query : option object) (w w1 w' : World) (entities : list entity)
  (e : entity) (log : list event) :
  handle (GetKindEntities kind) w = (Returned entities, w1) ->
  find_entity entities kind name = Some e ->
  truthy (prop (query_or_empty query) "_fields") = false ->
  getEntityRecords kind name query w = (Returned tt, w', log) ->
  exists (l : lock) (body : value) (records : list value),
    object_values body = Returned records
    /\ log
       = Performed (GetKindEntities kind) (Returned entities)
         :: Performed (AcquireStoreLock "core"
                         [VStr "entities"; VStr "data"; VStr kind; VStr name]
                         false) (Returned l)
         :: Performed
              (ApiFetch
                 [("path",
                   VStr (addQueryArgs (entity_baseURL e)
                           (edit_context (Some (query_or_empty query)))))])
              (Returned body)
         :: Performed (ReceiveEntityRecords kind name (VArr records)
                         (Some (query_or_empty query))) (Returned tt)
         :: map dispatch_returned
              (flat_map (seeded_actions kind name (primary_key e)) records)
         ++ [Performed (ReleaseStoreLock l) (Returned tt)]
    /\ forall (i : Instance) (record id : value),
         In record records ->
         read_prop record (primary_key e) = Returned id ->
         truthy id = true ->
         let seeded := run i (map Dispatches (dispatched log)) in
         Metadata.hasFinishedResolution (metadata (store seeded))
           "getEntityRecord" [VStr kind; VStr name; id] = true
         /\ fst (callSelector "getEntityRecord" [VStr kind; VStr name; id]
                   seeded) = seeded.
Proof.
  intros Hkind Hfind Hfields Hrun.
  destruct (getEntityRecords_returned _ _ _ _ _ _ _ _ _ Hkind Hfind Hfields Hrun)
    as [l [body [records [Hvalues Hlog]]]].
  exists l, body, records. split; [exact Hvalues|]. split; [exact Hlog|].
  intros i record id Hin Hread Htruthy. cbv zeta.
  assert (Hdispatched :
    dispatched log
    = flat_map (seeded_actions kind name (primary_key e)) records).
  { rewrite Hlog.
    change (dispatched
              (?a :: ?b :: ?c :: ?d :: ?rest))
      with (dispatched rest).
    rewrite dispatched_app, dispatched_returned. apply app_nil_r. }
  assert (Hfinished :
    Metadata.hasFinishedResolution
      (metadata (store (run i (map Dispatches (dispatched log)))))
      "getEntityRecord" [VStr kind; VStr name; id] = true).
  { rewrite metadata_run_dispatches, Hdispatched.
    apply (seeded_finished _ _ _ _ _ _ Hin Hread Htruthy). }
  split; [exact Hfinished|].
  unfold callSelector. cbn [fst]. apply fulfillSelector_finished, Hfinished.
Qed.

End Seeding.

(** ** The other resolvers *)

Section ThunkFacts.
Context {World : Type} {registry : Registry World} {imports : Imports}.

Lemma ask_eq {T : Type} (q : request T) (w w1 : World) (journal : list asked)
  (r : outcome T) :
  reply q w = (r, w1) ->
  ask q (w, journal) = (r, (w1, journal ++ [Asked q r]), []).
Proof. unfold ask. cbn [fst snd]. intros ->. reflexivity. Qed.

Lemma bind_returned {S T U : Type} (m : M S T) (k : T -> M S U) (s s1 : S)
  (v : T) :
  m s = (Returned v, s1, []) -> bind m k s = k v s1.
Proof.
  unfold bind. intros ->. destruct (k v s1) as [[r s2] l2]. reflexivity.
Qed.

Lemma bind_lift_returned {S T U : Type} (v : T) (k : T -> M S U) (s : S) :
  bind (lift (Returned v)) k s = k v s.
Proof. apply bind_returned. reflexivity. Qed.

(** X9.  [getEmbedPreview( url )] always ends with a call of
    [receiveEmbedPreview] for that url, whose answer is the resolver's own:
    with the fetched response when the fetch succeeded, and with [false]
    when the fetch failed or when handing over the response threw.  A
    failed fetch never escapes the resolver. *)
Theorem getEmbedPreview_always_receives (url : string) (w : World) :
  let request :=
    Fetch [("path",
            VStr (addQueryArgs "/oembed/1.0/proxy" [("url", VStr url)]))] in
  (exists error r w',
     getEmbedPreview url (w, [])
     = (r, (w', [Asked request (Raised error);
                 Asked (Call "receiveEmbedPreview" [VStr url; VBool false]) r]),
        []))
  \/ (exists response v w',
        getEmbedPreview url (w, [])
        = (Returned v,
           (w', [Asked request (Returned response);
                 Asked (Call "receiveEmbedPreview" [VStr url; response])
                   (Returned v)]),
           []))
  \/ (exists response error r w',
        getEmbedPreview url (w, [])
        = (r, (w', [Asked request (Returned response);
                    Asked (Call "receiveEmbedPreview" [VStr url; response])
                      (Raised error);
                    Asked (Call "receiveEmbedPreview" [VStr url; VBool false])
                      r]),
           [])).
Proof.
  cbv zeta. unfold getEmbedPreview, try_catch, bind.
  destruct (reply (Fetch [("path",
              VStr (addQueryArgs "/oembed/1.0/proxy" [("url", VStr url)]))]) w)
    as [[response|error] w1] eqn:Hfetch;
    rewrite (ask_eq _ _ _ _ _ Hfetch); cbn [app].
  - destruct (reply (Call "receiveEmbedPreview" [VStr url; response]) w1)
      as [[v|error] w2] eqn:Hcall;
      rewrite (ask_eq _ _ _ _ _ Hcall); cbn [app].
    + right. left. exists response, v, w2. reflexivity.
    + destruct (reply (Call "receiveEmbedPreview" [VStr url; VBool false]) w2)
        as [r w3] eqn:Hfalse.
      rewrite (ask_eq _ _ _ _ _ Hfalse). cbn [app].
      right. right. exists response, error, r, w3. reflexivity.
  - destruct (reply (Call "receiveEmbedPreview" [VStr url; VBool false]) w1)
      as [r w2] eqn:Hfalse.
    rewrite (ask_eq _ _ _ _ _ Hfalse). cbn [app].
    left. exists error, r, w2. reflexivity.
Qed.

(** X10.  With an empty list of active themes, [getCurrentTheme] records
    [undefined] as the current theme, while [getThemeSupports] raises a
    [TypeError] on [activeThemes[ 0 ].theme_supports] and records
    nothing. *)
Theorem no_active_theme (w w1 : World) :
  reply (Fetch [("path", VStr "/wp/v2/themes?status=active")]) w
  = (Returned (VArr []), w1) ->
  getCurrentTheme (w, [])
  = (fst (reply (Call "receiveCurrentTheme" [VUndefined]) w1),
     (snd (reply (Call "receiveCurrentTheme" [VUndefined]) w1),
      [Asked (Fetch [("path", VStr "/wp/v2/themes?status=active")])
         (Returned (VArr []));
       Asked (Call "receiveCurrentTheme" [VUndefined])
         (fst (reply (Call "receiveCurrentTheme" [VUndefined]) w1))]),
     [])
  /\ getThemeSupports (w, [])
     = (Raised (TypeError "Cannot read properties of null or undefined"),
        (w1, [Asked (Fetch [("path", VStr "/wp/v2/themes?status=active")])
                (Returned (VArr []))]),
        []).
Proof.
  intros Hfetch. unfold getCurrentTheme, getThemeSupports, bind.
  rewrite (ask_eq _ _ _ _ _ Hfetch). cbn [app first_item hd lift read_prop].
  split; [|reflexivity].
  destruct (reply (Call "receiveCurrentTheme" [VUndefined]) w1) as [r w2]
    eqn:Hcall.
  rewrite (ask_eq _ _ _ _ _ Hcall). reflexivity.
Qed.

(** X11.  For a known post type, [getAutosaves] fetches the autosaves of the
    post under the type's [rest_base] and records a fetched list exactly
    when it is not empty: an empty list is never handed to
    [receiveAutosaves]. *)
Theorem getAutosaves_records_nonempty (postType postId type restBase : value)
  (items : list value) (w w1 w2 : World) :
  let request :=
    Fetch [("path",
            VStr ("/wp/v2/" ++ to_string restBase ++ "/" ++ to_string postId
                  ++ "/autosaves?context=edit"))] in
  reply (ResolveSelect "getPostType" [postType]) w = (Returned type, w1) ->
  read_prop type "rest_base" = Returned restBase ->
  reply request w1 = (Returned (VArr items), w2) ->
  exists (journal : list asked) (r : outcome value) (w' : World),
    getAutosaves postType postId (w, []) = (r, (w', journal), [])
    /\ journal
       = Asked (ResolveSelect "getPostType" [postType]) (Returned type)
         :: Asked request (Returned (VArr items))
         :: match items with
            | [] => []
            | _ :: _ =>
                [Asked (Call "receiveAutosaves" [postId; VArr items])
                   (fst (reply (Call "receiveAutosaves" [postId; VArr items])
                           w2))]
            end
    /\ existsb (is_call "receiveAutosaves") journal
       = negb (Nat.eqb (length items) 0).
Proof.
  cbv zeta. intros Htype Hbase Hfetch. unfold getAutosaves, bind.
  rewrite (ask_eq _ _ _ _ _ Htype), Hbase. cbn [app lift].
  rewrite (ask_eq _ _ _ _ _ Hfetch). cbn [app].
  destruct items as [|item items].
  - cbn. eexists _, _, _. split; [reflexivity|]. split; reflexivity.
  - assert (Htruthy :
      truthy (js_and (VArr (item :: items)) (length_of (VArr (item :: items))))
      = true).
    { unfold js_and, length_of. cbn [truthy length].
      rewrite Nat2Z.inj_succ. destruct (Z.eqb_spec (Z.succ (Z.of_nat (length items))) 0);
        [lia|reflexivity]. }
    rewrite Htruthy.
    destruct (reply (Call "receiveAutosaves" [postId; VArr (item :: items)]) w2)
      as [[v|error] w3] eqn:Hcall;
      rewrite (ask_eq _ _ _ _ _ Hcall); cbn [app fst ret];
      eexists _, _, _; (split; [reflexivity|]); split; reflexivity.
Qed.

(** X12.  When [resolveSelect.getPostType] answers [undefined] or [null]
    (an unknown post type), [getAutosaves] raises a [TypeError] on the
    destructuring of its answer, before any fetch and any dispatch. *)
Theorem getAutosaves_unknown_post_type (postType postId type : value)
  (w w1 : World) :
  reply (ResolveSelect "getPostType" [postType]) w = (Returned type, w1) ->
  type = VUndefined \/ type = VNull ->
  getAutosaves postType postId (w, [])
  = (Raised (TypeError "Cannot read properties of null or undefined"),
     (w1, [Asked (ResolveSelect "getPostType" [postType]) (Returned type)]),
     []).
Proof.
  intros Htype Hnone. unfold getAutosaves, bind.
  rewrite (ask_eq _ _ _ _ _ Htype).
  destruct Hnone as [-> | ->]; reflexivity.
Qed.

(** X13.  [__experimentalGetTemplateForLink] guards against a [null]
    template only: when the fetched body carries [data: null] it returns
    after the fetch alone; when the body carries no [data] at all it raises
    a [TypeError] on [template.id]; in neither case is an entity looked up
    or anything dispatched. *)
Theorem template_not_found (link : string) (res template : value)
  (w w1 : World) :
  reply (WindowFetch (addQueryArgs link [("_wp-find-template", VBool true)])) w
  = (Returned res, w1) ->
  read_prop res "data" = Returned template ->
  template = VNull \/ template = VUndefined ->
  __experimentalGetTemplateForLink link (w, [])
  = (match template with
     | VNull => Returned VUndefined
     | _ => Raised (TypeError "Cannot read properties of null or undefined")
     end,
     (w1,
      [Asked (WindowFetch
                (addQueryArgs link [("_wp-find-template", VBool true)]))
         (Returned res)]),
     []).
Proof.
  intros Hfetch Hdata Hnone. unfold __experimentalGetTemplateForLink, bind.
  rewrite (ask_eq _ _ _ _ _ Hfetch), Hdata.
  destruct Hnone as [-> | ->]; reflexivity.
Qed.

(** X14.  When a template is found for the link, its record is looked up
    through [resolveSelect.getEntityRecord( 'postType', 'wp_template',
    template.id )], and a receive-action is dispatched exactly when that
    record is truthy, carrying the one record and the query
    [{ 'find-template': link }]. *)
Theorem template_found (link : string) (res template id record : value)
  (w w1 w2 : World) :
  reply (WindowFetch (addQueryArgs link [("_wp-find-template", VBool true)])) w
  = (Returned res, w1) ->
  read_prop res "data" = Returned template ->
  template <> VNull ->
  read_prop template "id" = Returned id ->
  reply (ResolveSelect "getEntityRecord"
           [VStr "postType"; VStr "wp_template"; id]) w1
  = (Returned record, w2) ->
  exists (journal : list asked) (r : outcome value) (w' : World),
    __experimentalGetTemplateForLink link (w, []) = (r, (w', journal), [])
    /\ journal
       = Asked (WindowFetch
                  (addQueryArgs link [("_wp-find-template", VBool true)]))
           (Returned res)
         :: Asked (ResolveSelect "getEntityRecord"
                     [VStr "postType"; VStr "wp_template"; id])
              (Returned record)
         :: (if truthy record then
               [Asked (Call "receiveEntityRecords"
                         [VStr "postType"; VStr "wp_template"; VArr [record];
                          VObj [("find-template", VStr link)]])
                  (fst (reply (Call "receiveEntityRecords"
                                 [VStr "postType"; VStr "wp_template";
                                  VArr [record];
                                  VObj [("find-template", VStr link)]]) w2))]
             else [])
    /\ existsb is_any_call journal = truthy record.
Proof.
  intros Hfetch Hdata Hfound Hid Hrecord.
  unfold __experimentalGetTemplateForLink.
  rewrite (bind_returned _ _ _ _ _ (ask_eq _ _ _ _ _ Hfetch)), Hdata,
    bind_lift_returned.
  cbn [app].
  assert (Hguard : forall A (none rest : A),
    match template with VNull => none | _ => rest end = rest).
  { intros A none rest. destruct template; try reflexivity. congruence. }
  rewrite Hguard, Hid, bind_lift_returned.
  rewrite (bind_returned _ _ _ _ _ (ask_eq _ _ _ _ _ Hrecord)). cbn [app].
  destruct (truthy record).
  - unfold bind.
    destruct (reply (Call "receiveEntityRecords"
                       [VStr "postType"; VStr "wp_template"; VArr [record];
                        VObj [("find-template", VStr link)]]) w2)
      as [[v|error] w3] eqn:Hcall;
      rewrite (ask_eq _ _ _ _ _ Hcall); cbn [app fst ret];
      eexists _, _, _; (split; [reflexivity|]); split; reflexivity.
  - eexists _, _, _. split; [reflexivity|]. split; reflexivity.
Qed.

(** X15.  The resolvers that fetch and then hand the result over have no
    [catch]: when the fetch fails, [getAuthors], [__unstableGetAuthor],
    [getCurrentUser], [getCurrentTheme] and [getThemeSupports] raise the
    error of the fetch and call no action creator. *)
Theorem failed_fetch_propagates (error : value) (query : option object)
  (id : value) (w : World) :
  (forall (options : object) (w0 : World),
      fst (reply (Fetch options) w0) = Raised error) ->
  let failed (run : outcome value * (World * list asked) * list event) :=
    fst (fst run) = Raised error
    /\ existsb is_any_call (snd (snd (fst run))) = false in
  failed (getAuthors query (w, []))
  /\ failed (__unstableGetAuthor id (w, []))
  /\ failed (getCurrentUser (w, []))
  /\ failed (getCurrentTheme (w, []))
  /\ failed (getThemeSupports (w, [])).
Proof.
  intros Hdown. cbv zeta.
  assert (Hask : forall options,
    ask (Fetch options) (w, [])
    = (Raised error,
       (snd (reply (Fetch options) w), [Asked (Fetch options) (Raised error)]),
       [])).
  { intros options. unfold ask. cbn [fst snd app].
    specialize (Hdown options w).
    destruct (reply (Fetch options) w) as [r w1]. cbn [fst snd] in *.
    rewrite Hdown. reflexivity. }
  unfold getAuthors, __unstableGetAuthor, getCurrentUser, getCurrentTheme,
    getThemeSupports, bind.
  rewrite !Hask. repeat split.
Qed.

End ThunkFacts.

(** ** The argument array of [runSelector] *)

Section RunSelectorFacts.
Context {A : Type} (hole : A).

Lemma assign_within (pre post : list A) (old x : A) :
  assign hole (pre ++ old :: post) (length pre) x = pre ++ x :: post.
Proof.
  induction pre as [|y pre IH]; cbn [app length assign]; [reflexivity|].
  rewrite IH. reflexivity.
Qed.

Lemma copy_arguments_fills (state : A) (arguments : list A) :
  forall (todo i : nat),
    i + todo = length arguments ->
    copy_arguments hole arguments i todo
      (state :: firstn i arguments ++ repeat hole todo)
    = state :: arguments.
Proof.
  induction todo as [|todo IH]; intros i Hi; cbn [copy_arguments repeat].
  - rewrite app_nil_r, Nat.add_0_r in *. subst i. rewrite firstn_all.
    reflexivity.
  - assert (Hlen : length (state :: firstn i arguments) = i + 1).
    { cbn [length]. rewrite length_firstn. lia. }
    change (state :: firstn i arguments ++ hole :: repeat hole todo)
      with ((state :: firstn i arguments) ++ hole :: repeat hole todo).
    rewrite <- Hlen, assign_within. cbn [app].
    replace (firstn i arguments ++ nth i arguments hole :: repeat hole todo)
      with (firstn (S i) arguments ++ repeat hole todo).
    + apply IH. lia.
    + rewrite <- (firstn_skipn i arguments) at 1.
      assert (Hskip : skipn i arguments
                      = nth i arguments hole :: skipn (S i) arguments).
      { clear IH Hlen. revert i Hi.
        induction arguments as [|a arguments IHa]; intros [|i] Hi;
          cbn in *; try lia; [reflexivity|].
        apply IHa. lia. }
      rewrite Hskip.
      assert (Hfirst : firstn (S i) (firstn i arguments
                                     ++ nth i arguments hole
                                        :: skipn (S i) arguments)
                       = firstn i arguments ++ [nth i arguments hole]).
      { rewrite firstn_app, length_firstn.
        replace (S i - Nat.min i (length arguments)) with 1 by lia.
        rewrite firstn_firstn. replace (Nat.min (S i) i) with i by lia.
        reflexivity. }
      rewrite Hfirst, <- app_assoc. reflexivity.
Qed.

(** X16.  The argument array that [runSelector] assembles by direct
    assignment is the state followed by the call's arguments, for every
    number of arguments: the wrapped selector computes
    [selector( state, ...arguments )], as its comment says. *)
Theorem runSelector_args_spreads (state : A) (arguments : list A) :
  runSelector_args hole state arguments = state :: arguments.
Proof.
  unfold runSelector_args, new_array. cbv zeta.
  rewrite Nat.add_1_r. cbn [repeat assign].
  apply (copy_arguments_fills state arguments (length arguments) 0).
  reflexivity.
Qed.

End RunSelectorFacts.

(** ** The tables of a store instance *)

Section TableFacts.
Context {V : Type}.

Lemma assoc_get_absent (o : list (string * V)) (k : string) :
  ~ In k (map fst o) -> assoc_get String.eqb o k = None.
Proof.
  induction o as [|[k' v] o IH]; cbn [map assoc_get fst In]; [reflexivity|].
  intros N. destruct (String.eqb_spec k k') as [->|_].
  - exfalso. apply N. left. reflexivity.
  - apply IH. intros H. apply N. right. exact H.
Qed.

Lemma assoc_get_spread (a b : list (string * V)) (k : string) :
  NoDup (map fst b) ->
  assoc_get String.eqb (spread a b) k
  = match assoc_get String.eqb b k with
    | Some v => Some v
    | None => assoc_get String.eqb a k
    end.
Proof.
  unfold spread. revert a.
  induction b as [|[k' v] b IH]; intros a Hb; cbn [fold_left]; [reflexivity|].
  cbn [map fst] in Hb. inversion Hb as [|? ? Hfresh Hrest]; subst.
  rewrite (IH _ Hrest). cbn [assoc_get fst snd].
  destruct (String.eqb_spec k k') as [->|N].
  - rewrite (assoc_get_absent b k' Hfresh).
    apply (assoc_get_set_same String.eqb String.eqb_eq).
  - rewrite (assoc_get_set_other String.eqb String.eqb_eq) by congruence.
    reflexivity.
Qed.

Lemma assoc_get_mapValues {W : Type} (f : V -> string -> W)
  (o : list (string * V)) (k : string) :
  assoc_get String.eqb (mapValues f o) k
  = match assoc_get String.eqb o k with
    | Some v => Some (f v k)
    | None => None
    end.
Proof.
  induction o as [|[k' v] o IH]; cbn [mapValues map assoc_get fst snd];
    [reflexivity|].
  destruct (String.eqb_spec k k') as [->|_]; [reflexivity|exact IH].
Qed.

Lemma mapValues_keys {W : Type} (f : V -> string -> W)
  (o : list (string * V)) :
  map fst (mapValues f o) = map fst o.
Proof.
  unfold mapValues. rewrite map_map. reflexivity.
Qed.

Lemma assoc_get_omit (o : list (string * V)) (names : list string)
  (k : string) :
  assoc_get String.eqb (omit o names) k
  = if existsb (String.eqb k) names then None
    else assoc_get String.eqb o k.
Proof.
  induction o as [|[k' v] o IH]; cbn [omit filter assoc_get fst];
    [destruct (existsb _ names); reflexivity|].
  fold (omit o names).
  destruct (existsb (String.eqb k') names) eqn:Hk'; cbn [negb assoc_get].
  - rewrite IH. destruct (String.eqb_spec k k') as [->|_]; [|reflexivity].
    rewrite Hk'. reflexivity.
  - rewrite IH. destruct (String.eqb_spec k k') as [->|_]; [|reflexivity].
    rewrite Hk'. reflexivity.
Qed.

End TableFacts.

(** X17.  A store cannot replace a built-in control, while its own action
    creators and selectors do replace those of the resolution metadata that
    have the same name: the controls are
    [{ ...options.controls, ...builtinControls }], the action creators
    [{ ...metadataActions, ...options.actions }], and the selectors likewise
    put the store's after the metadata's. *)
Theorem precedence_of_store_parts {R C Act BoundAct Sel BoundSel : Type}
  (registry : R) (options_controls builtinControls : list (string * control R C))
  (wrap : Act -> BoundAct) (metadataActions options_actions : list (string * Act))
  (onMetadata onRoot : Sel -> BoundSel)
  (metadataSelectors options_selectors : list (string * Sel))
  (name : string) :
  NoDup (map fst builtinControls) ->
  NoDup (map fst options_actions) ->
  NoDup (map fst options_selectors) ->
  let normalize (c : control R C) :=
    match c with
    | RegistryControl make => make registry
    | PlainControl handler => handler
    end in
  assoc_get String.eqb
    (normalizedControls registry options_controls builtinControls) name
  = match assoc_get String.eqb builtinControls name with
    | Some builtin => Some (normalize builtin)
    | None => option_map normalize (assoc_get String.eqb options_controls name)
    end
  /\ assoc_get String.eqb
       (bound_actions wrap metadataActions options_actions) name
     = match assoc_get String.eqb options_actions name with
       | Some own => Some (wrap own)
       | None => option_map wrap (assoc_get String.eqb metadataActions name)
       end
  /\ assoc_get String.eqb
       (state_selectors onMetadata onRoot metadataSelectors options_selectors)
       name
     = match assoc_get String.eqb options_selectors name with
       | Some own => Some (onRoot own)
       | None =>
           option_map onMetadata (assoc_get String.eqb metadataSelectors name)
       end.
Proof.
  intros Hcontrols Hactions Hselectors. cbv zeta.
  unfold normalizedControls, bound_actions, state_selectors.
  rewrite !assoc_get_mapValues.
  rewrite (assoc_get_spread _ _ _ Hcontrols), (assoc_get_spread _ _ _ Hactions).
  rewrite assoc_get_spread by (rewrite mapValues_keys; exact Hselectors).
  rewrite !assoc_get_mapValues.
  repeat split.
  - destruct (assoc_get String.eqb builtinControls name); [reflexivity|].
    destruct (assoc_get String.eqb options_controls name); reflexivity.
  - destruct (assoc_get String.eqb options_actions name); [reflexivity|].
    destruct (assoc_get String.eqb metadataActions name); reflexivity.
  - destruct (assoc_get String.eqb options_selectors name); [reflexivity|].
    destruct (assoc_get String.eqb metadataSelectors name); reflexivity.
Qed.

(** X18.  [resolveSelect] offers a promise-returning selector for every
    selector of the store except the five selectors that read the
    resolution metadata, and for nothing else. *)
Theorem resolveSelectors_offered {Sel Promised : Type}
  (promised : Sel -> string -> Promised) (selectors : list (string * Sel))
  (name : string) :
  assoc_get String.eqb (resolveSelectors promised selectors) name
  = if existsb (String.eqb name)
         ["getIsResolving"; "hasStartedResolution"; "hasFinishedResolution";
          "isResolving"; "getCachedResolvers"]
    then None
    else match assoc_get String.eqb selectors name with
         | Some selector => Some (promised selector name)
         | None => None
         end.
Proof.
  unfold resolveSelectors. rewrite assoc_get_mapValues, assoc_get_omit.
  destruct (existsb _ _); reflexivity.
Qed.

(** ** The run-cache *)

(** X19.  On the selector names that the cache object does not inherit, the
    run-cache behaves as a set of resolution keys taken up to the
    equivalence of [EquivalentKeyMap], for which two keys are one when they
    have the same name and their arguments the same path, whatever the
    order in which the objects among them list their properties: nothing is
    running at first, [markAsRunning] adds its key and [clear] removes its
    key, each leaving every key that is not equivalent as it was; clearing a
    key that was never marked changes nothing. *)
Theorem resolversCache_is_a_set (cache : ResolversCache.t)
  (selectorName name' : string) (args args' : list value) :
  inherited selectorName = false ->
  inherited name' = false ->
  ResolversCache.isRunning ResolversCache.empty name' args' = false
  /\ ResolversCache.isRunning
       (ResolversCache.markAsRunning cache selectorName args) name' args'
     = key_eqb (selectorName, args) (name', args')
       || ResolversCache.isRunning cache name' args'
  /\ ResolversCache.isRunning
       (ResolversCache.clear cache selectorName args) name' args'
     = negb (key_eqb (selectorName, args) (name', args'))
       && ResolversCache.isRunning cache name' args'
  /\ (key_eqb (selectorName, args) (name', args') = true
      <-> selectorName = name' /\ map canonical args = map canonical args').
Proof.
  intros _ _. split; [reflexivity|].
  rewrite isRunning_mark, isRunning_clear.
  rewrite (key_eqb_sym (name', args') (selectorName, args)).
  split; [reflexivity|]. split; [reflexivity|].
  rewrite key_eqb_canonical. unfold canonical_key. cbn [fst snd]. split.
  - intros E. injection E. auto.
  - intros [-> ->]. reflexivity.
Qed.

(** ** Further invariants of the binder and of [subscribe] *)

Section InstanceInvariants.
Context {options : StoreOptions}.

(** The run-cache marks a key exactly while a timer callback for it is
    pending, at most one is, and none ever is under a name the cache object
    inherits. *)
Definition marks_pending (i : Instance) : Prop :=
  forall (selectorName : string) (args : list value),
    ResolversCache.isRunning (resolversCache i) selectorName args
    = Nat.eqb (times (selectorName, args) (timeouts i)) 1
    /\ times (selectorName, args) (timeouts i) <= 1
    /\ (inherited selectorName = true ->
        times (selectorName, args) (timeouts i) = 0).

Lemma marks_pending_step (i : Instance) (o : occurrence) :
  marks_pending i -> marks_pending (step i o).
Proof.
  intros H. destruct o as [n a| |action|n a ok| |k]; cbn [step].
  - unfold callSelector, fulfillSelector. cbn [fst].
    destruct (resolvers n) as [resolver|]; [|exact H].
    destruct (inherited n) eqn:Hown; [exact H|].
    destruct (_ || _) eqn:Hskip; [exact H|].
    destruct (Metadata.hasStartedResolution _ n a); [exact H|].
    apply orb_false_elim in Hskip. destruct Hskip as [Hrunning _].
    intros selectorName args. cbn [resolversCache timeouts].
    rewrite times_snoc.
    destruct (H selectorName args) as [Hmark [Honce Hnone]].
    destruct (key_eqb (selectorName, args) (n, a)) eqn:E.
    + rewrite <- (isRunning_equiv _ _ _ E) in Hrunning.
      cbn [fst snd] in Hrunning. rewrite Hrunning in Hmark.
      assert (times (selectorName, args) (timeouts i) = 0).
      { destruct (times (selectorName, args) (timeouts i)) as [|[|t]];
          [reflexivity|discriminate|lia]. }
      rewrite isRunning_mark, E. split; [|split; [lia|]].
      * replace (times (selectorName, args) (timeouts i) + 1) with 1 by lia.
        reflexivity.
      * intros Hinherited. apply key_eqb_name in E. cbn [fst] in E.
        congruence.
    + rewrite Nat.add_0_r.
      rewrite isRunning_mark_other by exact E. repeat split; assumption.
  - unfold runTimeout.
    destruct (timeouts i) as [|[n a] rest] eqn:Hqueue; [exact H|].
    intros selectorName args. cbn [resolversCache timeouts].
    destruct (H selectorName args) as [Hmark [Honce Hnone]].
    rewrite Hqueue, times_cons in Hmark, Honce, Hnone.
    destruct (key_eqb (selectorName, args) (n, a)) eqn:E.
    + rewrite isRunning_clear, E.
      assert (times (selectorName, args) rest = 0) by lia.
      split; [|split; [lia|]].
      * replace (times (selectorName, args) rest) with 0 by lia. reflexivity.
      * intros _. assumption.
    + cbn [Nat.add] in *.
      rewrite isRunning_clear_other by exact E. repeat split; assumption.
  - exact H.
  - unfold settle. destruct (existsb _ _); exact H.
  - exact H.
  - exact H.
Qed.

Lemma marks_pending_run (os : list occurrence) (i : Instance) :
  marks_pending i -> marks_pending (run i os).
Proof.
  revert i. induction os as [|o os IH]; intros i H; cbn [run fold_left];
    [exact H|].
  apply IH, marks_pending_step, H.
Qed.

(** X20.  At every state a store instance can reach, the run-cache marks a
    resolution key exactly while a timer callback for an equivalent key is
    pending, and never more than one callback is pending for a key and its
    equivalents: the entry is made when a run is scheduled and deleted when
    its callback starts.  Under a selector name that the cache object
    inherits, where the methods of the cache raise, no callback is ever
    pending. *)
Theorem run_cache_marks_pending_timers (os : list occurrence)
  (selectorName : string) (args : list value) :
  (if inherited selectorName
   then times (selectorName, args) (timeouts (run initial os)) = 0
   else ResolversCache.isRunning (resolversCache (run initial os))
          selectorName args
        = Nat.eqb (times (selectorName, args) (timeouts (run initial os))) 1)
  /\ times (selectorName, args) (timeouts (run initial os)) <= 1.
Proof.
  assert (H : marks_pending (run initial os)).
  { apply marks_pending_run. intros n a. split; [reflexivity|].
    split; [cbn; lia|]. intros _. reflexivity. }
  destruct (H selectorName args) as [Hmark [Honce Hnone]].
  split; [|exact Honce].
  destruct (inherited selectorName); [apply Hnone; reflexivity|exact Hmark].
Qed.

Lemma calls_of_cons (k : Key) (o : occurrence) (os : list occurrence) :
  calls_of k (o :: os)
  = (match o with
     | Calls selectorName args =>
         if key_eqb k (selectorName, args) then 1 else 0
     | _ => 0
     end) + calls_of k os.
Proof.
  unfold calls_of. cbn [filter].
  destruct o as [n a| | | | |]; try reflexivity.
  destruct (key_eqb k (n, a)); reflexivity.
Qed.

Lemma runs_bounded_by_calls (k : Key) (os : list occurrence) :
  forall i : Instance,
    times k (fulfills (run i os)) + times k (timeouts (run i os))
    <= times k (fulfills i) + times k (timeouts i) + calls_of k os.
Proof.
  induction os as [|o os IH]; intros i; cbn [run fold_left].
  - unfold calls_of. cbn. lia.
  - change (fold_left step os (step i o)) with (run (step i o) os).
    specialize (IH (step i o)). rewrite calls_of_cons.
    assert (Hstep :
      times k (fulfills (step i o)) + times k (timeouts (step i o))
      <= times k (fulfills i) + times k (timeouts i)
         + match o with
           | Calls selectorName args =>
               if key_eqb k (selectorName, args) then 1 else 0
           | _ => 0
           end); [|lia].
    clear IH. destruct o as [n a| |action|n a ok| |m]; cbn [step].
    + unfold callSelector, fulfillSelector. cbn [fst].
      destruct (resolvers n) as [resolver|]; [|lia].
      destruct (inherited n); [lia|].
      destruct (_ || _); [lia|].
      destruct (Metadata.hasStartedResolution _ n a); [lia|].
      cbn [fulfills timeouts]. rewrite times_snoc. lia.
    + unfold runTimeout.
      destruct (timeouts i) as [|[n a] rest] eqn:Hqueue;
        [rewrite Hqueue; lia|].
      cbn [fulfills timeouts]. rewrite times_snoc, times_cons.
      destruct (key_eqb k (n, a)); lia.
    + cbn [with_store fulfills timeouts]. lia.
    + unfold settle. destruct (existsb _ _); cbn [fulfills timeouts]; lia.
    + cbn [with_store fulfills timeouts]. lia.
    + cbn [with_store fulfills timeouts]. lia.
Qed.

(** X21.  A resolver never runs of its own accord: at every reachable
    state, also across invalidations, the number of invocations of
    [fulfill] for a resolution key is at most the number of calls of the
    wrapped selector with those arguments. *)
Theorem fulfills_bounded_by_calls (selectorName : string)
  (args : list value) (os : list occurrence) :
  times (selectorName, args) (fulfills (run initial os))
  <= calls_of (selectorName, args) os.
Proof.
  pose proof (runs_bounded_by_calls (selectorName, args) os initial) as H.
  cbn [initial fulfills timeouts] in H. unfold times at 3 4 in H.
  cbn in H. lia.
Qed.

(** The listener [n], subscribed when the next state identity was [base],
    has been called once for every state object made since. *)
Definition counts_changes (base n : nat) (s : Store) : Prop :=
  stateId s < nextId s
  /\ exists sub : Subscription,
       nth_error (subscriptions s) n = Some sub
       /\ active sub = true
       /\ lastState sub = stateId s
       /\ calls sub + base = nextId s.

Lemma counts_changes_dispatch (base n : nat) (action : object) (s : Store) :
  counts_changes base n s -> counts_changes base n (dispatch action s).
Proof.
  intros [Hfresh [sub [Hnth [Hactive [Hlast Hcalls]]]]].
  unfold dispatch, counts_changes.
  destruct (combineReducers (metadata s) (root s) action) as [[m r]|];
    cbn [stateId nextId subscriptions]; (split; [lia|]);
    rewrite nth_error_map, Hnth; cbn [option_map];
    eexists; (split; [reflexivity|]);
    unfold notify; rewrite Hactive, Hlast; cbn [active lastState calls].
  - repeat split.
    destruct (Nat.eqb_spec (nextId s) (stateId s)); [lia|]. cbn [negb]. lia.
  - rewrite Nat.eqb_refl. cbn [negb]. repeat split. exact Hcalls.
Qed.

Lemma counts_changes_step (base n : nat) (i : Instance) (o : occurrence) :
  unsubscribing n o = false ->
  counts_changes base n (store i) -> counts_changes base n (store (step i o)).
Proof.
  intros Hstays H. destruct o as [name a| |action|name a ok| |m]; cbn [step].
  - unfold callSelector. cbn [fst]. rewrite store_fulfillSelector. exact H.
  - unfold runTimeout. destruct (timeouts i) as [|[name a] rest]; [exact H|].
    cbn [store]. apply counts_changes_dispatch, H.
  - cbn [with_store store]. apply counts_changes_dispatch, H.
  - unfold settle. destruct (existsb _ _); [|exact H].
    cbn [store]. destruct ok; [apply counts_changes_dispatch|]; exact H.
  - cbn [with_store store]. destruct H as [Hfresh [sub [Hnth Hsub]]].
    split; [exact Hfresh|]. exists sub. split; [|exact Hsub].
    cbn [subscribe subscriptions]. rewrite nth_error_app1; [exact Hnth|].
    apply nth_error_Some. congruence.
  - cbn [with_store store]. destruct H as [Hfresh [sub [Hnth Hsub]]].
    split; [exact Hfresh|]. exists sub. split; [|exact Hsub].
    cbn [unsubscribe subscriptions]. cbn [unsubscribing] in Hstays.
    rewrite nth_error_deactivate_other; [exact Hnth|].
    apply Nat.eqb_neq in Hstays. congruence.
Qed.

Lemma counts_changes_run (base n : nat) (os : list occurrence) (i : Instance) :
  forallb (fun o => negb (unsubscribing n o)) os = true ->
  counts_changes base n (store i) -> counts_changes base n (store (run i os)).
Proof.
  revert i. induction os as [|o os IH]; intros i Hos H;
    cbn [run fold_left]; [exact H|].
  cbn [forallb] in Hos. apply andb_true_iff in Hos. destruct Hos as [Ho Hos].
  apply negb_true_iff in Ho.
  apply IH; [exact Hos|]. apply counts_changes_step; assumption.
Qed.

(** X22.  A listener registered through the facade's [subscribe] has, for
    as long as it stays subscribed, been called exactly once for every new
    state object the store has made since the subscription, whatever
    calls, timer callbacks, dispatches and other subscriptions came in
    between. *)
Theorem listener_counts_state_changes (before after : list occurrence) :
  let subscribed_at := run initial before in
  let n := length (subscriptions (store subscribed_at)) in
  let final := run (step subscribed_at Subscribes) after in
  forallb (fun o => negb (unsubscribing n o)) after = true ->
  option_map calls (nth_error (subscriptions (store final)) n)
  = Some (nextId (store final) - nextId (store subscribed_at)).
Proof.
  cbv zeta. intros Hstays.
  set (i := run initial before).
  destruct (synced_run before initial synced_initial) as [Hfresh _].
  fold i in Hfresh.
  assert (Hstart :
    counts_changes (nextId (store i)) (length (subscriptions (store i)))
      (store (step i Subscribes))).
  { split; [exact Hfresh|].
    exists {| lastState := stateId (store i); calls := 0; active := true |}.
    cbn [step with_store store subscribe subscriptions stateId nextId].
    rewrite nth_error_app2, Nat.sub_diag by lia. repeat split. }
  destruct (counts_changes_run _ _ after _ Hstays Hstart)
    as [_ [sub [Hnth [_ [_ Hcalls]]]]].
  subst i. rewrite Hnth. cbn [option_map]. f_equal. lia.
Qed.

End InstanceInvariants.

(** ** The fields a collection fetch was asked for *)




(** ** The posts menu *)

(** X24.  Whenever the posts menu renders, it never shows the search
    results together with the loading item.  While a search text is
    typed, it shows no post list and exactly one of the two: the loading
    item while the search is debouncing, the results otherwise.  Without
    search text it shows no results, and the loading item exactly while
    the posts are [null], in which case no post item is shown. *)
Theorem posts_menu_states (search : string) (isDebouncing : bool)
  (posts showOnFront : value) (menu : PostsMenu) :
  ContentPostsMenu search isDebouncing posts showOnFront = Returned menu ->
  (match searchResults menu with
   | Some _ => negb (loadingItem menu)
   | None => true
   end = true)
  /\ (if String.eqb search EmptyString then
        searchResults menu = None
        /\ loadingItem menu = match posts with VNull => true | _ => false end
        /\ (loadingItem menu = true -> postItems menu = [])
      else
        postItems menu = []
        /\ allPostsItem menu = false
        /\ loadingItem menu = isDebouncing
        /\ searchResults menu
           = if isDebouncing then None else Some (posts, search)).
Proof.
  unfold ContentPostsMenu. cbv zeta. cbn [truthy].
  destruct (String.eqb search EmptyString); cbn [negb andb orb].
  - destruct (post_items posts) as [items|error] eqn:Hitems; [|discriminate].
    intros H. injection H as <-. cbn [searchResults loadingItem postItems].
    rewrite orb_false_r. repeat split.
    destruct posts; try discriminate.
    intros _. cbn in Hitems. congruence.
  - intros H. injection H as <-.
    cbn [searchResults loadingItem postItems allPostsItem].
    destruct isDebouncing; repeat split.
Qed.

(* ================================================================== *)
(** * Part III.  The model on concrete inputs                          *)
(* ================================================================== *)

(** ** The binder on the widget store *)


Example four_calls_one_fulfill :
  fulfills (run (options := widget_store) initial widget_calls)
  = [("getWidget", [VNum 1])].
Proof. reflexivity. Qed.


(** Arguments that differ only in the order in which an object lists its
    properties are one resolution key: the second call is skipped by the
    run-cache, the third by the resolution entry, and the resolver runs
    once. *)
Example reordered_arguments_share_one_run :
  let i :=
    run (options := entity_store) initial
      [Calls "getEntityRecords" [VStr "postType"; VStr "post"; second_page];
       Calls "getEntityRecords"
         [VStr "postType"; VStr "post"; second_page_reordered];
       TimerFires;
       Calls "getEntityRecords"
         [VStr "postType"; VStr "post"; second_page_reordered]] in
  fulfills i
  = [("getEntityRecords", [VStr "postType"; VStr "post"; second_page])]
  /\ timeouts i = []
  /\ Metadata.hasStartedResolution (metadata (store i)) "getEntityRecords"
       [VStr "postType"; VStr "post"; second_page_reordered]
     = true.
Proof. repeat split. Qed.

(** C2, the claim as stated fails: the resolver of [getWidget( 1 )] raises;
    the timer callback has dispatched START_RESOLUTION and ends at the
    rejected [await], so the entry is Started, nothing is scheduled and
    nothing is awaited; whatever calls, timer callbacks and settling runs
    follow, the entry stays Started until some action is dispatched from
    elsewhere. *)
Lemma raising_fulfill_leaves_entry_started :
  let i := run (options := widget_store) initial widget_failure in
  Metadata.getStatus (metadata (store i)) "getWidget" [VNum 1]
  = Metadata.Started
  /\ Metadata.hasFinishedResolution (metadata (store i)) "getWidget" [VNum 1]
     = false
  /\ fulfills i = [("getWidget", [VNum 1])]
  /\ timeouts i = []
  /\ awaiting i = []
  /\ forall os : list occurrence,
       forallb is_internal os = true ->
       Metadata.getStatus (metadata (store (run i os))) "getWidget" [VNum 1]
       = Metadata.Started.
Proof.
  cbv zeta. repeat split. intros os Hos.
  apply (left_started_run (options := widget_store) "getWidget" [VNum 1] os
           (run (options := widget_store) initial widget_failure) Hos).
  repeat split.
Qed.

(** ** The facade's [subscribe] on the widget store

    A dispatch the reducers ignore leaves the state object and calls no
    listener; receiving a widget makes a new state object and calls the
    listener once, also when the new state equals the old one in content. *)
Example listener_counts :
  map calls
    (subscriptions
       (store
          (run (options := widget_store) initial
             [Subscribes;
              Dispatches [("type", VStr "NOOP")];
              Dispatches (receive_widget 1 "gear");
              Dispatches (receive_widget 1 "gear");
              Subscribes;
              Dispatches [("type", VStr "NOOP")];
              Dispatches (receive_widget 2 "cog")])))
  = [3; 1].
Proof. reflexivity. Qed.

Lemma finish_follows_fulfilled_effect_witness :
  let i := run (options := widget_store) initial [Calls "getWidget" [VNum 1]] in
  let started := runTimeout i in
  timeouts i = [("getWidget", [VNum 1])]
  /\ store started = dispatch (startResolution "getWidget" [VNum 1]) (store i)
  /\ Metadata.hasStartedResolution (metadata (store started))
       "getWidget" [VNum 1] = true
  /\ store (settle "getWidget" [VNum 1] true started)
     = dispatch (finishResolution "getWidget" [VNum 1]) (store started)
  /\ Metadata.hasFinishedResolution
       (metadata (store (settle "getWidget" [VNum 1] true started)))
       "getWidget" [VNum 1] = true
  /\ store (settle "getWidget" [VNum 1] false started) = store started.
Proof.
  split; [reflexivity|].
  apply (finish_follows_fulfilled_effect (options := widget_store)
           "getWidget" [VNum 1] []).
  reflexivity.
Defined.

(** The scenario of the specification: after START_RESOLUTION and
    FINISH_RESOLUTION for [('getWidget', [1])], resolution has finished for
    [[1]] and not for [[2]]. *)
Example start_then_finish_getWidget :
  let i :=
    run (options := widget_store) initial
      [Dispatches (startResolution "getWidget" [VNum 1]);
       Dispatches (finishResolution "getWidget" [VNum 1])] in
  Metadata.hasFinishedResolution (metadata (store i)) "getWidget" [VNum 1]
  = true
  /\ Metadata.hasFinishedResolution (metadata (store i)) "getWidget" [VNum 2]
     = false.
Proof. split; reflexivity. Qed.

(** ** The entity resolvers on scripted sites *)

Lemma unknown_entity_returns_early_witness :
  getEntityRecord (host := scripted online) (imports := sample_imports)
    "postType" "page" (VNum 7) None 0
  = (Returned tt, 1,
     [Performed (GetKindEntities "postType") (Returned [post_entity])])
  /\ getEntityRecords (host := scripted online) (imports := sample_imports)
       "postType" "page" None 0
     = (Returned tt, 1,
        [Performed (GetKindEntities "postType") (Returned [post_entity])]).
Proof.
  apply (unknown_entity_returns_early (host := scripted online)
           (imports := sample_imports)
           "postType" "page" (VNum 7) None None 0 1 [post_entity]);
    reflexivity.
Defined.

Lemma getEntityRecord_releases_lock_witness :
  exists (middle : list event) (released : outcome unit) (w' : nat),
    getEntityRecord (host := scripted offline) (imports := sample_imports)
      "postType" "post" (VNum 7) None 0
    = (match released with
       | Returned _ => Returned tt
       | Raised error => Raised error
       end,
       w',
       Performed (GetKindEntities "postType") (Returned [post_entity])
       :: Performed (AcquireStoreLock "core"
                       [VStr "entities"; VStr "data"; VStr "postType";
                        VStr "post"; VNum 7] false) (Returned 1)
       :: middle ++ [Performed (ReleaseStoreLock 1) released])
    /\ existsb is_release middle = false
    /\ existsb is_acquire middle = false
    /\ existsb is_failed_fetch middle && existsb is_receive middle = false.
Proof.
  apply (getEntityRecord_releases_lock (host := scripted offline)
           (imports := sample_imports)
           "postType" "post" (VNum 7) None 0 1 2 [post_entity] post_entity 1);
    reflexivity.
Defined.

(** A failed fetch: the error is swallowed, nothing is received, the lock is
    released. *)
Example getEntityRecord_offline :
  getEntityRecord (host := scripted offline) (imports := sample_imports)
    "postType" "post" (VNum 7) None 0
  = (Returned tt, 4,
     [Performed (GetKindEntities "postType") (Returned [post_entity]);
      Performed (AcquireStoreLock "core"
                   [VStr "entities"; VStr "data"; VStr "postType";
                    VStr "post"; VNum 7] false) (Returned 1);
      Performed (ApiFetch [("path", VStr "/wp/v2/posts/7?context=edit")])
        (Raised network_down);
      Performed (ReleaseStoreLock 1) (Returned tt)]).
Proof. reflexivity. Qed.

Lemma getEntityRecord_reuses_stored_records_witness :
  exists (released : outcome unit) (w' : nat) (log : list event),
    getEntityRecord (host := scripted cached) (imports := sample_imports)
      "postType" "post" (VNum 7) (Some [("_fields", VStr "title")]) 0
    = (match released with
       | Returned _ => Returned tt
       | Raised error => Raised error
       end, w', log)
    /\ log
       = [Performed (GetKindEntities "postType") (Returned [post_entity]);
          Performed (AcquireStoreLock "core"
                       [VStr "entities"; VStr "data"; VStr "postType";
                        VStr "post"; VNum 7] false) (Returned 1);
          Performed (HasEntityRecords "postType" "post"
                       [("_fields", VStr "title,id"); ("include", VArr [VNum 7])])
            (Returned true);
          Performed (ReleaseStoreLock 1) released]
    /\ existsb is_fetch log = false
    /\ existsb is_receive log = false.
Proof.
  apply (getEntityRecord_reuses_stored_records (host := scripted cached)
           (imports := sample_imports)
           "postType" "post" (VNum 7) [("_fields", VStr "title")]
           0 1 2 3 [post_entity] post_entity 1);
    reflexivity.
Defined.


(** The scenario of the specification: [canUser( 'create', 'media' )] with
    [Allow: GET, POST] records [true], with [Allow: GET] records [false];
    a preloaded response is read the same way. *)
Example canUser_create_media_allowed :
  canUser (host := scripted (preflight "GET, POST")) "create" "media" None 0
  = (Returned tt, 2,
     [Performed (ApiFetchUnparsed (canUser_request "media" None))
        (script_response (preflight "GET, POST"));
      Performed (ReceiveUserPermission "create/media" true) (Returned tt)]).
Proof. reflexivity. Qed.

Example canUser_create_media_refused :
  canUser (host := scripted (preflight "GET")) "create" "media" None 0
  = (Returned tt, 2,
     [Performed (ApiFetchUnparsed (canUser_request "media" None))
        (script_response (preflight "GET"));
      Performed (ReceiveUserPermission "create/media" false) (Returned tt)]).
Proof. reflexivity. Qed.

Example canUser_preloaded :
  canUser (host := scripted (preloaded "GET, POST, PUT, DELETE"))
    "update" "posts" (Some "12") 0
  = (Returned tt, 2,
     [Performed (ApiFetchUnparsed
                   [("path", VStr "/wp/v2/posts/12"); ("method", VStr "GET");
                    ("parse", VBool false)])
        (script_response (preloaded "GET, POST, PUT, DELETE"));
      Performed (ReceiveUserPermission "update/posts/12" true) (Returned tt)]).
Proof. reflexivity. Qed.

(** An action that is none of the four raises at once, before any request. *)
Example canUser_invalid_action :
  canUser (host := scripted (preflight "GET")) "publish" "media" None 0
  = (Raised (Error "'publish' is not a valid action."), 0, []).
Proof. reflexivity. Qed.

(** ** Seeding on a collection fetch with a falsy key *)

(** C6, the claim as stated fails: the collection fetch answers the records
    with keys [7], [0] and [9]; all three are received, and the run returns
    normally; resolution is seeded for [7] and [9] only, so that a later
    [getEntityRecord( 'postType', 'post', 0 )] does schedule a resolver run
    of its own, while the same call for [7] schedules none. *)
Lemma falsy_key_is_not_seeded :
  listing_run
  = (Returned tt, 9,
     [Performed (GetKindEntities "postType") (Returned [post_entity]);
      Performed (AcquireStoreLock "core"
                   [VStr "entities"; VStr "data"; VStr "postType"; VStr "post"]
                   false) (Returned 1);
      Performed (ApiFetch [("path", VStr "/wp/v2/posts?context=edit")])
        (script_body listing);
      Performed (ReceiveEntityRecords "postType" "post"
                   (VArr [VObj [("id", VNum 7)]; VObj [("id", VNum 0)];
                          VObj [("id", VNum 9)]])
                   (Some [])) (Returned tt);
      dispatch_returned
        (startResolution "getEntityRecord"
           [VStr "postType"; VStr "post"; VNum 7]);
      dispatch_returned
        (finishResolution "getEntityRecord"
           [VStr "postType"; VStr "post"; VNum 7]);
      dispatch_returned
        (startResolution "getEntityRecord"
           [VStr "postType"; VStr "post"; VNum 9]);
      dispatch_returned
        (finishResolution "getEntityRecord"
           [VStr "postType"; VStr "post"; VNum 9]);
      Performed (ReleaseStoreLock 1) (Returned tt)])
  /\ (let seeded :=
        run (options := entity_store) initial
          (map Dispatches (dispatched (snd listing_run))) in
      Metadata.getStatus (metadata (store seeded)) "getEntityRecord"
        [VStr "postType"; VStr "post"; VNum 0] = Metadata.Unstarted
      /\ timeouts
           (step seeded
              (Calls "getEntityRecord" [VStr "postType"; VStr "post"; VNum 0]))
         = [("getEntityRecord", [VStr "postType"; VStr "post"; VNum 0])]
      /\ timeouts
           (step seeded
              (Calls "getEntityRecord" [VStr "postType"; VStr "post"; VNum 7]))
         = []).
Proof. repeat split. Qed.

Lemma getEntityRecords_seeds_truthy_keys_witness :
  exists (l : lock) (body : value) (records : list value),
    object_values body = Returned records
    /\ snd listing_run
       = Performed (GetKindEntities "postType") (Returned [post_entity])
         :: Performed (AcquireStoreLock "core"
                         [VStr "entities"; VStr "data"; VStr "postType";
                          VStr "post"] false) (Returned l)
         :: Performed
              (ApiFetch [("path", VStr "/wp/v2/posts?context=edit")])
              (Returned body)
         :: Performed (ReceiveEntityRecords "postType" "post" (VArr records)
                         (Some [])) (Returned tt)
         :: map dispatch_returned
              (flat_map (seeded_actions "postType" "post" "id") records)
         ++ [Performed (ReleaseStoreLock l) (Returned tt)]
    /\ forall (i : Instance (options := entity_store)) (record id : value),
         In record records ->
         read_prop record "id" = Returned id ->
         truthy id = true ->
         let seeded := run i (map Dispatches (dispatched (snd listing_run))) in
         Metadata.hasFinishedResolution (metadata (store seeded))
           "getEntityRecord" [VStr "postType"; VStr "post"; id] = true
         /\ fst (callSelector "getEntityRecord"
                   [VStr "postType"; VStr "post"; id] seeded) = seeded.
Proof.
  apply (getEntityRecords_seeds_truthy_keys (host := scripted listing)
           (imports := sample_imports) (options := entity_store)
           "postType" "post" None 0 1 9 [post_entity] post_entity
           (snd listing_run));
    reflexivity.
Defined.

(** ** Further properties on concrete inputs *)

(** An action named as a member of [Object.prototype] is not rejected: the
    preflight is sent and a permission is recorded under it, [false] here
    since the header does not hold the text of the member. *)
Example canUser_inherited_action :
  canUser (host := scripted (preflight "GET, POST")) "constructor" "media"
    None 0
  = (Returned tt, 2,
     [Performed (ApiFetchUnparsed (canUser_request "media" None))
        (script_response (preflight "GET, POST"));
      Performed (ReceiveUserPermission "constructor/media" false)
        (Returned tt)]).
Proof. reflexivity. Qed.

Lemma canUser_failed_preflight_records_nothing_witness :
  canUser (host := scripted offline) "create" "media" None 0
  = (Returned tt, 1,
     [Performed (ApiFetchUnparsed (canUser_request "media" None))
        (Raised network_down)]).
Proof.
  apply (canUser_failed_preflight_records_nothing (host := scripted offline)
           "create" "media" None "POST" network_down 0 1);
    reflexivity.
Defined.

Example requested_fields_of_a_post :
  prop (with_key_field (imports := sample_imports) post_entity
          [("_fields", VStr "title,id,title"); ("per_page", VNum 10)])
    "_fields"
  = VStr "title,id".
Proof. reflexivity. Qed.

Lemma skipped_call_changes_nothing_witness :
  let i := run (options := widget_store) initial [Calls "getWidget" [VNum 1]] in
  callSelector "getWidget" [VNum 1] i = (i, VUndefined).
Proof.
  apply (skipped_call_changes_nothing (options := widget_store)
           "getWidget" [VNum 1]).
  left. reflexivity.
Defined.

Lemma selector_without_resolver_witness :
  callSelector (options := widget_store) "getGadget" [VNum 1] initial
  = (initial, VUndefined).
Proof.
  apply (selector_without_resolver (options := widget_store)
           "getGadget" [VNum 1] initial).
  reflexivity.
Defined.

Lemma first_call_schedules_one_run_witness :
  let called :=
    fst (callSelector (options := entity_store) "getEntityRecords"
           [VStr "postType"; VStr "post"; second_page] initial) in
  timeouts called
  = [("getEntityRecords", [VStr "postType"; VStr "post"; second_page])]
  /\ store called = store initial
  /\ fulfills called = []
  /\ ResolversCache.isRunning (resolversCache called) "getEntityRecords"
       [VStr "postType"; VStr "post"; second_page_reordered]
     = true
  /\ callSelector "getEntityRecords"
       [VStr "postType"; VStr "post"; second_page_reordered] called
     = (called, VUndefined).
Proof.
  destruct (first_call_schedules_one_run (options := entity_store)
              "getEntityRecords" [VStr "postType"; VStr "post"; second_page]
              {| isFulfilled := None |} initial eq_refl eq_refl eq_refl eq_refl
              eq_refl)
    as [Htimeouts [_ [Hstore [Hfulfills [_ Hequivalent]]]]].
  destruct (Hequivalent [VStr "postType"; VStr "post"; second_page_reordered]
              eq_refl) as [Hmarked Hskipped].
  split; [exact Htimeouts|]. split; [exact Hstore|].
  split; [exact Hfulfills|]. split; [exact Hmarked|exact Hskipped].
Defined.

(** Under a selector name that the cache object inherits, the call of the
    wrapped selector schedules nothing, although the selector has a
    resolver. *)
Example inherited_selector_name_schedules_nothing :
  let options :=
    {| Root := unit; Result := value; initialState := tt;
       reducer := fun _ _ => None;
       selectors := fun _ _ _ => VUndefined;
       resolvers := fun _ => Some {| isFulfilled := None |} |} in
  callSelector (options := options) "toString" [] initial
  = (initial, VUndefined)
  /\ timeouts (fst (callSelector (options := options) "getWidget" [] initial))
     = [("getWidget", [])].
Proof. split; reflexivity. Qed.

Lemma started_entry_stays_started_witness :
  Metadata.getStatus
    (metadata
       (store
          (run (run (options := widget_store) initial widget_failure)
             [Calls "getWidget" [VNum 1]; TimerFires;
              Settles "getWidget" [VNum 1] true; Calls "getWidget" [VNum 1]])))
    "getWidget" [VNum 1]
  = Metadata.Started.
Proof.
  apply (started_entry_stays_started (options := widget_store)
           "getWidget" [VNum 1]).
  - reflexivity.
  - repeat split.
Defined.

Lemma getEntityRecords_propagates_failed_fetch_witness :
  getEntityRecords (host := scripted offline) (imports := sample_imports)
    "postType" "post" (Some [("per_page", VNum 10)]) 0
  = (Raised network_down, 4,
     [Performed (GetKindEntities "postType") (Returned [post_entity]);
      Performed (AcquireStoreLock "core"
                   [VStr "entities"; VStr "data"; VStr "postType"; VStr "post"]
                   false) (Returned 1);
      Performed
        (ApiFetch [("path", VStr "/wp/v2/posts?per_page=10&context=edit")])
        (Raised network_down);
      Performed (ReleaseStoreLock 1) (Returned tt)]).
Proof.
  apply (getEntityRecords_propagates_failed_fetch (host := scripted offline)
           (imports := sample_imports)
           "postType" "post" (Some [("per_page", VNum 10)]) 0 1 2 3 4
           [post_entity] post_entity 1 network_down);
    reflexivity.
Defined.

(** ** The other resolvers on scripted registries *)

Lemma no_active_theme_witness :
  fst (fst (getCurrentTheme (registry := answering no_themes) (0, [])))
  = Returned VUndefined
  /\ existsb (is_call "receiveCurrentTheme")
       (snd (snd (fst (getCurrentTheme (registry := answering no_themes)
                         (0, [])))))
     = true
  /\ getThemeSupports (registry := answering no_themes) (0, [])
     = (Raised (TypeError "Cannot read properties of null or undefined"),
        (1, [Asked (Fetch [("path", VStr "/wp/v2/themes?status=active")])
               (Returned (VArr []))]),
        []).
Proof.
  destruct (no_active_theme (registry := answering no_themes) 0 1 eq_refl)
    as [Htheme Hsupports].
  rewrite Htheme. split; [reflexivity|]. split; [reflexivity|exact Hsupports].
Defined.

Lemma getAutosaves_records_nonempty_witness :
  exists (journal : list asked) (r : outcome value) (w' : nat),
    getAutosaves (registry := answering with_autosave) (VStr "post") (VNum 7)
      (0, [])
    = (r, (w', journal), [])
    /\ existsb (is_call "receiveAutosaves") journal = true.
Proof.
  destruct (getAutosaves_records_nonempty (registry := answering with_autosave)
              (VStr "post") (VNum 7)
              (VObj [("rest_base", VStr "posts")]) (VStr "posts") [autosave]
              0 1 2 eq_refl eq_refl eq_refl)
    as [journal [r [w' [Hrun [_ Hcalls]]]]].
  exists journal, r, w'. split; [exact Hrun|exact Hcalls].
Defined.

Lemma getAutosaves_unknown_post_type_witness :
  getAutosaves (registry := answering unknown_type) (VStr "gadget") (VNum 7)
    (0, [])
  = (Raised (TypeError "Cannot read properties of null or undefined"),
     (1, [Asked (ResolveSelect "getPostType" [VStr "gadget"])
            (Returned VUndefined)]),
     []).
Proof.
  apply (getAutosaves_unknown_post_type (registry := answering unknown_type)
           (VStr "gadget") (VNum 7) VUndefined 0 1 eq_refl).
  left. reflexivity.
Defined.

Lemma template_not_found_witness :
  __experimentalGetTemplateForLink (registry := answering without_template)
    (imports := sample_imports) "https://example.org/about" (0, [])
  = (Returned VUndefined,
     (1, [Asked (WindowFetch "https://example.org/about?_wp-find-template=true")
            (Returned (VObj [("data", VNull)]))]),
     []).
Proof.
  apply (template_not_found (registry := answering without_template)
           (imports := sample_imports) "https://example.org/about"
           (VObj [("data", VNull)]) VNull 0 1 eq_refl eq_refl).
  left. reflexivity.
Defined.

Lemma template_found_witness :
  exists (journal : list asked) (r : outcome value) (w' : nat),
    __experimentalGetTemplateForLink (registry := answering with_template)
      (imports := sample_imports) "https://example.org/about" (0, [])
    = (r, (w', journal), [])
    /\ existsb is_any_call journal = true.
Proof.
  assert (Hfound : VObj [("id", VStr "theme//single")] <> VNull)
    by discriminate.
  destruct (template_found (registry := answering with_template)
              (imports := sample_imports) "https://example.org/about"
              (VObj [("data", VObj [("id", VStr "theme//single")])])
              (VObj [("id", VStr "theme//single")]) (VStr "theme//single")
              template_record 0 1 2 eq_refl eq_refl Hfound eq_refl eq_refl)
    as [journal [r [w' [Hrun [_ Hcalls]]]]].
  exists journal, r, w'. split; [exact Hrun|exact Hcalls].
Defined.

Lemma failed_fetch_propagates_witness :
  fst (fst (getAuthors (registry := answering unreachable)
              (imports := sample_imports) None (0, [])))
  = Raised network_down
  /\ existsb is_any_call
       (snd (snd (fst (getCurrentUser (registry := answering unreachable)
                         (0, [])))))
     = false.
Proof.
  destruct (failed_fetch_propagates (registry := answering unreachable)
              (imports := sample_imports) network_down None (VNum 3) 0
              (fun _ _ => eq_refl))
    as [[Hauthors _] [_ [[_ Huser] _]]].
  split; [exact Hauthors|exact Huser].
Defined.

(** An embed that cannot be fetched is recorded as [false]. *)
Example unreachable_embed_is_recorded :
  getEmbedPreview (registry := answering unreachable)
    (imports := sample_imports) "https://example.org/clip" (0, [])
  = (Returned VUndefined,
     (2, [Asked (Fetch [("path",
                         VStr "/oembed/1.0/proxy?url=https://example.org/clip")])
            (Raised network_down);
          Asked (Call "receiveEmbedPreview"
                   [VStr "https://example.org/clip"; VBool false])
            (Returned VUndefined)]),
     []).
Proof. reflexivity. Qed.

(** ** The tables of an instance *)

Lemma precedence_of_store_parts_witness :
  assoc_get String.eqb
    (normalizedControls (C := nat) 5
       [("SELECT", PlainControl 1); ("AWAIT", PlainControl 2)]
       [("SELECT", RegistryControl (fun registry => registry + 10))])
    "SELECT"
  = Some 15
  /\ assoc_get String.eqb
       (bound_actions (fun action : nat => action * 2)
          [("startResolution", 1)] [("startResolution", 7)])
       "startResolution"
     = Some 14
  /\ assoc_get String.eqb
       (state_selectors (fun selector : nat => (selector, false))
          (fun selector : nat => (selector, true))
          [("isResolving", 1)] [("isResolving", 7)])
       "isResolving"
     = Some (7, true).
Proof.
  assert (Hcontrols :
    NoDup (map fst [("SELECT",
                     RegistryControl (C := nat) (fun registry => registry + 10))]))
    by (repeat constructor; cbn; tauto).
  assert (Hactions : NoDup (map fst [("startResolution", 7)]))
    by (repeat constructor; cbn; tauto).
  assert (Hselectors : NoDup (map fst [("isResolving", 7)]))
    by (repeat constructor; cbn; tauto).
  pose proof (precedence_of_store_parts (C := nat) 5
                [("SELECT", PlainControl 1); ("AWAIT", PlainControl 2)]
                [("SELECT", RegistryControl (fun registry => registry + 10))]
                (fun action : nat => action * 2)
                [("startResolution", 1)] [("startResolution", 7)]
                (fun selector : nat => (selector, false))
                (fun selector : nat => (selector, true))
                [("isResolving", 1)] [("isResolving", 7)]) as H.
  destruct (H "SELECT" Hcontrols Hactions Hselectors) as [Hcontrol _].
  destruct (H "startResolution" Hcontrols Hactions Hselectors)
    as [_ [Haction _]].
  destruct (H "isResolving" Hcontrols Hactions Hselectors)
    as [_ [_ Hselector]].
  split; [exact Hcontrol|]. split; [exact Haction|exact Hselector].
Defined.

(** ** Listeners and state changes on the widget store *)

Lemma listener_counts_state_changes_witness :
  option_map calls
    (nth_error
       (subscriptions
          (store
             (run (options := widget_store)
                (step (options := widget_store)
                   (run (options := widget_store) initial
                      [Calls "getWidget" [VNum 1]])
                   Subscribes)
                after_subscription)))
       0)
  = Some 3.
Proof.
  apply (listener_counts_state_changes (options := widget_store)
           [Calls "getWidget" [VNum 1]] after_subscription).
  reflexivity.
Defined.

(** ** The posts menu *)

Lemma posts_menu_states_witness :
  ContentPostsMenu "gear" true VNull (VStr "page") = Returned loading_menu
  /\ postItems loading_menu = []
  /\ loadingItem loading_menu = true
  /\ searchResults loading_menu = None.
Proof.
  assert (Hmenu : ContentPostsMenu "gear" true VNull (VStr "page")
                  = Returned loading_menu) by reflexivity.
  destruct (posts_menu_states "gear" true VNull (VStr "page") loading_menu
              Hmenu)
    as [_ [Hitems [_ [Hloading Hresults]]]].
  split; [exact Hmenu|]. split; [exact Hitems|].
  split; [exact Hloading|exact Hresults].
Defined.

(** Without search text the posts are listed under their keys. *)
Example posts_are_listed :
  ContentPostsMenu "" false two_posts (VStr "posts")
  = Returned {| searchResults := None; allPostsItem := true;
                postItems := ["post-1"; "post-2"]; loadingItem := false |}.
Proof. reflexivity. Qed.

(** ** The run-cache on a query listed in two orders *)

Lemma resolversCache_is_a_set_witness :
  ResolversCache.isRunning
    (ResolversCache.markAsRunning ResolversCache.empty "getEntityRecords"
       [VStr "postType"; VStr "post"; second_page])
    "getEntityRecords" [VStr "postType"; VStr "post"; second_page_reordered]
  = true
  /\ ResolversCache.isRunning
       (ResolversCache.clear
          (ResolversCache.markAsRunning ResolversCache.empty
             "getEntityRecords" [VStr "postType"; VStr "post"; second_page])
          "getEntityRecords"
          [VStr "postType"; VStr "post"; second_page_reordered])
       "getEntityRecords" [VStr "postType"; VStr "post"; second_page]
     = false.
Proof.
  split.
  - destruct (resolversCache_is_a_set ResolversCache.empty
                "getEntityRecords" "getEntityRecords"
                [VStr "postType"; VStr "post"; second_page]
                [VStr "postType"; VStr "post"; second_page_reordered]
                eq_refl eq_refl) as [_ [Hmark _]].
    exact Hmark.
  - destruct (resolversCache_is_a_set
                (ResolversCache.markAsRunning ResolversCache.empty
                   "getEntityRecords"
                   [VStr "postType"; VStr "post"; second_page])
                "getEntityRecords" "getEntityRecords"
                [VStr "postType"; VStr "post"; second_page_reordered]
                [VStr "postType"; VStr "post"; second_page]
                eq_refl eq_refl) as [_ [_ [Hclear _]]].
    exact Hclear.
Defined.

(** ** [resolveSelect] on the widget store *)

Lemma resolveSelect_resolves_once_witness :
  let final :=
    session_run (options := widget_store)
      (resolveSelect "getWidget" [VNum 1] opened) widget_resolution in
  option_map resolved (nth_error (promises final) 0) = Some [VStr "gear"]
  /\ option_map unsubscribeCalls (nth_error (promises final) 0) = Some 1
  /\ option_map active (nth_error (subscriptions (store (instance final))) 0)
     = Some false
  /\ option_map calls (nth_error (subscriptions (store (instance final))) 0)
     = Some 3.
Proof.
  destruct (resolveSelect_resolves_once (options := widget_store)
              "getWidget" [VNum 1] [] widget_resolution eq_refl)
    as [_ [_ H]].
  vm_compute in H. vm_compute. exact H.
Defined.

(** A promise made when the entry is Finished is resolved at once, with the
    value the selector returned, and subscribes to nothing. *)
Example resolveSelect_after_resolution :
  let s :=
    session_run (options := widget_store) opened
      [Occurs (Calls "getWidget" [VNum 1]);
       Occurs TimerFires;
       Occurs (Dispatches (receive_widget 1 "gear"));
       Occurs (Settles "getWidget" [VNum 1] true);
       ResolveSelects "getWidget" [VNum 1]] in
  map resolved (promises s) = [[VStr "gear"]]
  /\ map listener (promises s) = [None]
  /\ map unsubscribeCalls (promises s) = [0]
  /\ subscriptions (store (instance s)) = [].
Proof. repeat split. Qed.
